(** * Manifest synchronisation and validation (GitUtil / ManifestUtil)

    A shallow embedding of the classes [GitUtil] and [ManifestUtil] and
    the properties of the manifest engine.  Line numbers are those of
    src/utils/Statistic.ts, the file that holds both classes.

    - Part 1: JavaScript values as [JSON.parse] produces them and as
      [processExecutableManifest] mutates them.
    - Part 2: [processExecutableManifest].
    - Part 3: the collaborators (file system, isomorphic-git, shell,
      clock, database) as calls answered by an abstract world, and the
      monad of a call of the pipeline: world, trace of calls, cache.
    - Part 4: [GitUtil] and [ManifestUtil]: [deleteAndPull],
      [getDefaultBranch], [outOfDate], [refreshGit],
      [getExecutableManifest], [getLastCommitTime],
      [deleteAndPullManifest], [refreshGitManifest] and the
      [getExecutableManifest] of [ManifestUtil].
    - Part 4b: [getRuntimeTotal] of the class [Statistic], and the
      transformer of the date columns of the entity [Event].
    - Part 5: a sample catalog, sample documents and sample
      collaborators, and the vocabulary of the properties.
    - Part 6: the properties, and their instances on the samples.
    - Part 7: further properties of the validator, of the calls of
      the pipeline, of its strings, of the statistics and of the
      date columns, and their instances on the samples.

    Idealisations, all of them at the boundary of the code:
    numbers are rationals with [NaN] (no rounding, no overflow to an
    infinity); objects, and the cache, are finite maps from property
    names to values: the enumeration order of [for .. in] is not
    represented (no iteration of the two loops depends on another one,
    and every failure of an iteration is a [TypeError]), no property
    is inherited, and [__proto__] is an ordinary name; [console.log] is
    left out; [await] is sequencing. *)

From Stdlib Require Import QArith Qabs Lqa.
From stdpp Require Import gmap strings list fin_maps pretty.

Set Warnings "-register-all".
Local Open Scope string_scope.

(* ================================================================== *)
(** * Part 1: JavaScript values *)
(* ================================================================== *)

(** Numbers.  [JSON.parse] yields finite numbers; [NaN] arises from
    [default_value * 2] on a default that is not numeric. *)
Inductive number :=
| NaN
| Fin (q : Q).

(** Values.  An array is a list of slots; [None] is a hole, as
    [delete a[i]] leaves one.  [JSON.parse] builds a tree: it allocates
    every array and object freshly, and produces neither [VUndef] nor
    [NaN] nor a hole. *)
Inductive value :=
| VUndef
| VNull
| VBool (b : bool)
| VNum (n : number)
| VStr (s : string)
| VArr (slots : list (option value))
| VObj (props : gmap string value).

(** What a [throw] carries.  [Failure] is an exception of a
    collaborator (network, file system, shell, database). *)
Inductive exn :=
| SyntaxError
| TypeError
| Failure (what : string).

(** The completion of an evaluation: a value, or an exception. *)
Inductive completion (A : Type) :=
| Normal (a : A)
| Throw (e : exn).
Arguments Normal {A} a.
Arguments Throw {A} e.

#[global] Instance completion_ret : MRet completion := fun A a => Normal a.
#[global] Instance completion_bind : MBind completion :=
  fun A B f c => match c with Normal a => f a | Throw e => Throw e end.
#[global] Instance completion_fmap : FMap completion :=
  fun A B f c => match c with Normal a => Normal (f a) | Throw e => Throw e end.

(** [!v] is [negb (truthy v)]. *)
Definition truthy (v : value) : bool :=
  match v with
  | VUndef | VNull => false
  | VBool b => b
  | VNum NaN => false
  | VNum (Fin q) => negb (Qeq_bool q 0)
  | VStr s => negb (String.eqb s "")
  | VArr _ | VObj _ => true
  end.

(** The comparison of [Array.prototype.includes].  Arrays and objects
    are compared by identity: two distinct nodes of a parsed document
    are never the same object. *)
Definition SameValueZero (x y : value) : bool :=
  match x, y with
  | VUndef, VUndef | VNull, VNull => true
  | VBool a, VBool b => Bool.eqb a b
  | VNum NaN, VNum NaN => true
  | VNum (Fin p), VNum (Fin q) => Qeq_bool p q
  | VStr s, VStr t => String.eqb s t
  | _, _ => false
  end.

(** [a.includes(x)] on an array; a hole reads as [undefined]. *)
Definition array_includes (slots : list (option value)) (x : value) : bool :=
  existsb (fun slot => SameValueZero (default VUndef slot) x) slots.

(** [names.includes(s)] on an array of string literals. *)
Definition includes (names : list string) (s : string) : bool :=
  bool_decide (s ∈ names).

(** [names.includes(v)] for any value [v]: only a string can be found. *)
Definition includes_value (names : list string) (v : value) : bool :=
  match v with
  | VStr s => includes names s
  | _ => false
  end.

(** [o.k] on an object: [undefined] when [k] is absent. *)
Definition prop (o : gmap string value) (k : string) : value :=
  default VUndef (o !! k).

(** [v === "s"]. *)
Definition is_string (s : string) (v : value) : bool :=
  match v with
  | VStr t => String.eqb t s
  | _ => false
  end.

Definition num_mul (a b : number) : number :=
  match a, b with
  | Fin p, Fin q => Fin (p * q)
  | _, _ => NaN
  end.

(** [v[0]] for a truthy [v]. *)
Definition index0 (v : value) : value :=
  match v with
  | VArr (Some x :: _) => x
  | VStr (String c _) => VStr (String c "")
  | VObj o => prop o "0"
  | _ => VUndef
  end.

(** The own enumerable properties of an array: its indices that are
    not holes. *)
Fixpoint index_entries (i : nat) (slots : list (option value))
  : list (string * value) :=
  match slots with
  | [] => []
  | Some v :: rest => (pretty i, v) :: index_entries (S i) rest
  | None :: rest => index_entries (S i) rest
  end.

(** The own enumerable properties that [Object.assign] copies from a
    source: those of an object, the indices of an array, the characters
    of a string, nothing for the other primitives. *)
Definition own_props (source : value) : gmap string value :=
  match source with
  | VObj o => o
  | VArr slots => list_to_map (index_entries 0 slots)
  | VStr s =>
      list_to_map
        (index_entries 0
           ((fun c => Some (VStr (String c ""))) <$> String.list_ascii_of_string s))
  | _ => ∅
  end.

(** [Object.assign(target, source)]. *)
Definition Object_assign (target : gmap string value) (source : value)
  : gmap string value :=
  own_props source ∪ target.

(** ** [for (const name in mapping) { ... }] with deletion

    An iteration either deletes the property ([None]), leaves a value
    in it ([Some]), or throws. *)

Fixpoint for_in_entries (body : string → value → completion (option value))
    (entries : list (string * value)) : completion (list (string * value)) :=
  match entries with
  | [] => Normal []
  | (name, v) :: rest =>
      r ← body name v;
      rest' ← for_in_entries body rest;
      Normal (match r with
              | Some v' => (name, v') :: rest'
              | None => rest'
              end)
  end.

Fixpoint for_in_slots (body : string → value → completion (option value))
    (i : nat) (slots : list (option value))
  : completion (list (option value)) :=
  match slots with
  | [] => Normal []
  | None :: rest =>
      rest' ← for_in_slots body (S i) rest;
      Normal (None :: rest')
  | Some v :: rest =>
      r ← body (pretty i) v;
      rest' ← for_in_slots body (S i) rest;
      Normal (r :: rest')
  end.

(** The loop over a mapping.  Null, undefined, booleans and numbers
    have no enumerable property.  A non-empty string has its indices,
    and the first iteration throws in both loops: the body deletes the
    property (its value, a one-character string, has no
    [default_value], or its name is outside the catalog), and deleting
    an index of a string is a [TypeError] in strict code. *)
Definition for_in (body : string → value → completion (option value))
    (mapping : value) : completion value :=
  match mapping with
  | VObj o =>
      entries ← for_in_entries body (map_to_list o);
      Normal (VObj (list_to_map entries))
  | VArr slots =>
      slots' ← for_in_slots body 0 slots;
      Normal (VArr slots')
  | VStr s => if String.eqb s "" then Normal mapping else Throw TypeError
  | _ => Normal mapping
  end.

(* ================================================================== *)
(** * Part 2: processExecutableManifest *)
(* ================================================================== *)

(** The rule catalog, six lists of rule names that the class imports
    from utils/types: the validator is parameterised by it. *)
Record catalog := {
  slurm_configs : list string;
  slurm_integer_configs : list string;
  slurm_integer_none_unit_config : list string;
  slurm_integer_storage_unit_config : list string;
  slurm_integer_time_unit_config : list string;
  slurm_string_option_configs : list string;
}.

(** The operations of the language that are not program code:
    [JSON.parse] ([None]: a [SyntaxError]), the conversion to a number
    of a string and of an array or object, and
    [String.prototype.includes] applied to a value. *)
Record builtins := {
  JSON_parse : string → option value;
  StringToNumber : string → number;
  ObjectToNumber : value → number;
  String_includes : string → value → bool;
}.

Section Validator.
Context (B : builtins) (C : catalog).

(** [ToNumber], as the operand of [*]. *)
Definition ToNumber (v : value) : number :=
  match v with
  | VUndef => NaN
  | VNull => Fin 0
  | VBool b => Fin (if b then 1 else 0)
  | VNum n => n
  | VStr s => StringToNumber B s
  | VArr _ | VObj _ => ObjectToNumber B v
  end.

(** [rule.unit !== undefined && !allowed.includes(rule.unit)] *)
Definition unit_outside (allowed : list string) (unit : value) : bool :=
  match unit with
  | VUndef => false
  | _ => negb (includes_value allowed unit)
  end.

(** The defaults of an integer rule (lines 398-406 and 449-459). *)
Definition integer_defaults (rule : gmap string value)
  : gmap string value :=
  let rule1 :=
    if negb (truthy (prop rule "max"))
    then <["max" := VNum (num_mul (ToNumber (prop rule "default_value"))
                                   (Fin 2))]> rule
    else rule in
  let rule2 :=
    if negb (truthy (prop rule1 "min"))
    then <["min" := VNum (Fin 0)]> rule1
    else rule1 in
  if negb (truthy (prop rule2 "step"))
  then <["step" := VNum (Fin 1)]> rule2
  else rule2.

(** The defaults of a string-option rule (lines 410-423 and
    467-473).  After [options = [default_value]] the array includes
    the default.  A truthy [options] that is a string has [includes]
    but no [push]; a number, [true] or an object has no [includes]. *)
Definition option_defaults (rule : gmap string value)
  : completion (gmap string value) :=
  let default_value := prop rule "default_value" in
  let options := prop rule "options" in
  if negb (truthy options)
  then Normal (<["options" := VArr [Some default_value]]> rule)
  else
    match options with
    | VArr slots =>
        if negb (array_includes slots default_value)
        then Normal (<["options" := VArr (slots ++ [Some default_value])]> rule)
        else Normal rule
    | VStr s =>
        if negb (String_includes B s default_value)
        then Throw TypeError
        else Normal rule
    | _ => Throw TypeError
    end.

(** One iteration of the loop over [slurm_input_rules]
    (lines 348-425).  A rule that is not an object reads
    [default_value] as [undefined], except [null], on which the read
    throws. *)
Definition slurm_rule (rule_name : string) (rule : value)
  : completion (option value) :=
  if negb (includes (slurm_configs C) rule_name) then Normal None
  else
    match rule with
    | VUndef => Normal (Some rule)
    | VNull => Throw TypeError
    | VObj r =>
        if negb (truthy (prop r "default_value")) then Normal None
        else if includes (slurm_integer_time_unit_config C) rule_name
                && unit_outside ["Minutes"; "Hours"; "Days"] (prop r "unit")
        then Normal None
        else if includes (slurm_integer_storage_unit_config C) rule_name
                && unit_outside ["GB"; "MB"] (prop r "unit")
        then Normal None
        else if includes (slurm_integer_none_unit_config C) rule_name
        then Normal (Some (VObj (<["unit" := VStr "None"]> r)))
        else
          let r1 :=
            if includes (slurm_integer_configs C) rule_name
            then integer_defaults r else r in
          r2 ← (if includes (slurm_string_option_configs C) rule_name
                then option_defaults r1 else Normal r1);
          Normal (Some (VObj r2))
    | _ => Normal None
    end.

(** One iteration of the loop over [param_rules] (lines 427-475). *)
Definition param_rule (rule_name : string) (rule : value)
  : completion (option value) :=
  match rule with
  | VUndef | VNull => Throw TypeError
  | VObj r =>
      if negb (truthy (prop r "default_value")) then Normal None
      else if negb (includes_value
                      ["integer"; "string_option"; "string_input"]
                      (match prop r "type" with
                       | VUndef => VStr ""
                       | type => type
                       end))
      then Normal None
      else
        let r1 :=
          if is_string "integer" (prop r "type")
          then integer_defaults r else r in
        r2 ← (if is_string "string_option" (prop r1 "type")
              then option_defaults r1 else Normal r1);
        Normal (Some (VObj r2))
  | _ => Normal None
  end.

(** The first argument of [Object.assign] (lines 325-340). *)
Definition defaults (address : string) : gmap string value :=
  list_to_map
    [ ("name", VUndef);
      ("container", VUndef);
      ("connector", VUndef);
      ("pre_processing_stage", VUndef);
      ("execution_stage", VUndef);
      ("post_processing_stage", VUndef);
      ("description", VStr "none");
      ("estimated_runtime", VStr "unknown");
      ("supported_hpc", VArr [Some (VStr "keeling_community")]);
      ("default_hpc", VUndef);
      ("repository", VStr address);
      ("require_upload_data", VBool false);
      ("slurm_input_rules", VObj ∅);
      ("param_rules", VObj ∅) ].

(** Lines 344-346. *)
Definition default_hpc_step (manifest : gmap string value)
  : gmap string value :=
  if negb (truthy (prop manifest "default_hpc"))
     && truthy (prop manifest "supported_hpc")
  then <["default_hpc" := index0 (prop manifest "supported_hpc")]> manifest
  else manifest.

(** [processExecutableManifest] after [JSON.parse]. *)
Definition normalize (document : value) (address : string)
  : completion (gmap string value) :=
  let executableManifest :=
    default_hpc_step (Object_assign (defaults address) document) in
  slurm ← for_in slurm_rule (prop executableManifest "slurm_input_rules");
  let executableManifest :=
    <["slurm_input_rules" := slurm]> executableManifest in
  param ← for_in param_rule (prop executableManifest "param_rules");
  Normal (<["param_rules" := param]> executableManifest).

Definition processExecutableManifest (rawExecutableManifest : string)
    (address : string) : completion (gmap string value) :=
  match JSON_parse B rawExecutableManifest with
  | None => Throw SyntaxError
  | Some document => normalize document address
  end.

End Validator.

(* ================================================================== *)
(** * Part 3: collaborators and the monad of the pipeline *)
(* ================================================================== *)

(** Modelled from the spec: the entity [Git] (models/Git) is missing.
    Section 3 gives a repository handle a stable id, an address, an
    optional pinned revision and an optional time of the last
    synchronisation; the code reads them as [id], [address], [sha] and
    [updatedAt].  [sha] is [None] when the column is [undefined] or
    [null], which the code does not tell apart.  [updatedAt] is a date
    column as the sibling entity [Event] declares it: absent, [null],
    or a date, in milliseconds since the epoch. *)
Inductive date_column :=
| DateUndefined
| DateNull
| DateAt (ms : Z).

Module Git.
Record t := {
  id : string;
  address : string;
  sha : option string;
  updatedAt : date_column;
}.
End Git.

(** [git.sha] where the code tests it for truth: the pinned revision,
    if there is a non-empty one. *)
Definition pinned (git : Git.t) : option string :=
  match Git.sha git with
  | Some s => if String.eqb s "" then None else Some s
  | None => None
  end.

(** The result of isomorphic-git's [fetch], and an entry of [log]. *)
Record FetchResult := {
  fetchHead : option string;
  defaultBranch : option string;
}.

Record ReadCommitResult := {
  oid : string;
  timestamp : Z;
}.

(** The calls to the collaborators, indexed by what they return. *)
Inductive call : Type → Type :=
| FolderUtil_removeZip (path : string) : call unit
| fs_existsSync (path : string) : call bool
| rimraf_sync (path : string) : call unit
| fs_mkdir (path : string) (recursive : bool) : call unit
| git_clone (dir url : string) : call unit
| git_checkout (dir ref : string) : call unit
| git_pull (dir : string) : call unit
| git_fetch (dir url : string) : call FetchResult
| git_log (dir : string) : call (list ReadCommitResult)
| fs_readFile (path : string) : call string
| child_process_exec (command : string) : call unit
| new_Date : call Z
| update_updatedAt (id : string) (now : Z) : call unit.

Inductive event :=
| Called {A : Type} (c : call A).

(** The world outside the process: a state, and the answer it gives
    to each call. *)
Record collaborators := {
  world : Type;
  answer : ∀ A, call A → world → completion A * world;
}.
Arguments answer _ {A} _ _.

(** The state a call of the pipeline runs in: the world, the calls made
    so far, and [GitUtil.cache]. *)
Record state (W : Type) := {
  st_world : W;
  st_trace : list event;
  st_cache : gmap string (gmap string value);
}.
Arguments st_world {W} _.
Arguments st_trace {W} _.
Arguments st_cache {W} _.

Definition io (W A : Type) : Type := state W → completion A * state W.

#[global] Instance io_ret W : MRet (io W) := fun A a s => (Normal a, s).
#[global] Instance io_bind W : MBind (io W) :=
  fun A B f m s =>
    match m s with
    | (Normal a, s') => f a s'
    | (Throw e, s') => (Throw e, s')
    end.

Definition throw {W A} (e : exn) : io W A := fun s => (Throw e, s).

(** [try { body } catch { handler }] *)
Definition try_catch {W A} (body : io W A) (handler : exn → io W A) : io W A :=
  fun s =>
    match body s with
    | (Normal a, s') => (Normal a, s')
    | (Throw e, s') => handler e s'
    end.

(** A completion of pure code, inside the pipeline. *)
Definition lift {W A} (c : completion A) : io W A := fun s => (c, s).

Definition read_cache {W} : io W (gmap string (gmap string value)) :=
  fun s => (Normal (st_cache s), s).

Definition write_cache {W} (id : string) (manifest : gmap string value)
  : io W unit :=
  fun s =>
    (Normal tt,
     {| st_world := st_world s;
        st_trace := st_trace s;
        st_cache := <[id := manifest]> (st_cache s) |}).

(** The state after the world answered a call and went to [w]. *)
Definition called {W A} (c : call A) (w : W) (s : state W) : state W :=
  {| st_world := w;
     st_trace := st_trace s ++ [Called c];
     st_cache := st_cache s |}.

(** The state with another cache. *)
Definition with_cache {W} (cache : gmap string (gmap string value))
    (s : state W) : state W :=
  {| st_world := st_world s; st_trace := st_trace s; st_cache := cache |}.

(** [count p t]: how many calls of the trace [t] satisfy [p]. *)
Definition count (p : event → bool) (t : list event) : nat :=
  length (List.filter p t).

Definition is_destroy (e : event) : bool :=
  match e with
  | Called (rimraf_sync _) => true
  | _ => false
  end.

Definition is_read (e : event) : bool :=
  match e with
  | Called (fs_readFile _) => true
  | _ => false
  end.

Definition is_record (e : event) : bool :=
  match e with
  | Called (update_updatedAt _ _) => true
  | _ => false
  end.

(** The calls that change a local mirror: deletion, creation, clone,
    checkout, pull and download. *)
Definition is_mutation (e : event) : bool :=
  match e with
  | Called (rimraf_sync _) | Called (fs_mkdir _ _) | Called (git_clone _ _)
  | Called (git_checkout _ _) | Called (git_pull _)
  | Called (child_process_exec _) => true
  | _ => false
  end.

(** ** Strings of paths, branches and urls *)

(** [path.join] of two segments that need no normalisation. *)
Definition path_join (a b : string) : string := a ++ "/" ++ b.

(** The last element of [branch.split("/")]. *)
Fixpoint last_section (current s : string) : string :=
  match s with
  | EmptyString => current
  | String c rest =>
      if Ascii.eqb c (Ascii.ascii_of_nat 47) then last_section "" rest
      else last_section (current ++ String c "") rest
  end.

(** [s.replace(pattern, replacement)] for a non-empty string pattern:
    the first occurrence only. *)
Fixpoint replace (pattern replacement s : string) : string :=
  if String.prefix pattern s
  then replacement ++ String.substring (String.length pattern)
                        (String.length s - String.length pattern) s
  else
    match s with
    | EmptyString => EmptyString
    | String c rest => String c (replace pattern replacement rest)
    end.

(* ================================================================== *)
(** * Part 4: GitUtil and ManifestUtil *)
(* ================================================================== *)

Section Pipeline.
Context (B : builtins) (C : catalog) (E : collaborators).
(** [config.local_file_system.root_path] *)
Context (root_path : string).

Local Abbreviation W := (world E).

Definition perform {A} (c : call A) : io W A :=
  fun s =>
    let (r, w) := answer E c (st_world s) in
    (r, called c w s).

(** ** GitUtil *)

Definition getLocalPath (gitId : string) : string :=
  path_join root_path gitId.

Definition deleteAndPull (git : Git.t) : io W unit :=
  let localPath := getLocalPath (Git.id git) in
  perform (rimraf_sync localPath);;
  perform (fs_mkdir localPath false);;
  perform (git_clone localPath (Git.address git));;
  match pinned git with
  | Some sha => perform (git_checkout localPath sha)
  | None => mret tt
  end.

Definition getDefaultBranch (git : Git.t) : io W string :=
  remote ← perform (git_fetch (getLocalPath (Git.id git)) (Git.address git));
  match defaultBranch remote with
  | None => mret "main"
  | Some branch => mret (last_section "" branch)
  end.

Definition outOfDate (git : Git.t) : io W bool :=
  let localPath := getLocalPath (Git.id git) in
  remote ← perform (git_fetch localPath (Git.address git));
  match fetchHead remote with
  | None => mret true
  | Some fetched =>
      let remoteSha := match pinned git with
                       | Some sha => sha
                       | None => fetched
                       end in
      local ← perform (git_log localPath);
      match local with
      | [] => throw TypeError
      | commit :: _ =>
          let localSha := oid commit in
          mret (match pinned git with
                | Some sha => String.eqb localSha sha
                | None => false
                end
                || negb (String.eqb remoteSha localSha))
      end
  end.

Definition refreshGit (git : Git.t) : io W bool :=
  let localPath := getLocalPath (Git.id git) in
  perform (FolderUtil_removeZip localPath);;
  present ← perform (fs_existsSync localPath);
  if negb present
  then deleteAndPull git;; mret true
  else
    stale ← outOfDate git;
    if (stale : bool)
    then
      try_catch
        (match pinned git with
         | Some sha => perform (git_checkout localPath sha)
         | None => perform (git_pull localPath)
         end)
        (fun _ => deleteAndPull git);;
      now ← perform new_Date;
      perform (update_updatedAt (Git.id git) now);;
      mret true
    else mret false.

Definition getExecutableManifest (git : Git.t)
  : io W (gmap string value) :=
  let localPath := getLocalPath (Git.id git) in
  let executableFolderPath := path_join localPath "manifest.json" in
  refreshed ← refreshGit git;
  cached ← (if negb refreshed
            then cache ← read_cache; mret (cache !! Git.id git)
            else mret None);
  match cached with
  | Some manifest => mret manifest
  | None =>
      rawExecutableManifest ←
        try_catch
          (perform (fs_readFile executableFolderPath))
          (fun _ =>
             deleteAndPull git;;
             perform (fs_readFile executableFolderPath));
      result ← lift (processExecutableManifest B C rawExecutableManifest
                       (Git.address git));
      write_cache (Git.id git) result;;
      mret result
  end.

(** Lines 172-184.  [local[0]] of an empty log is [undefined], and
    reading its [commit] throws. *)
Definition getLastCommitTime (git : Git.t) : io W Z :=
  refreshGit git;;
  let localPath := getLocalPath (Git.id git) in
  local ← perform (git_log localPath);
  match local with
  | [] => throw TypeError
  | commit :: _ => mret (timestamp commit)
  end.

(** ** ManifestUtil *)

Definition getLocalManifestPath (gitId : string) : string :=
  path_join (path_join root_path "manifests") gitId.

Definition getManifestUrl (git : Git.t) (commit : string) : string :=
  replace "github.com" "raw.githubusercontent.com"
    (replace ".git" "" (Git.address git))
  ++ "/" ++ commit ++ "/manifest.json".

Definition wget (localPath url : string) : string :=
  "cd " ++ localPath ++ " && wget -O manifest.json " ++ url.

Definition deleteAndPullManifest (git : Git.t) : io W unit :=
  let localPath := getLocalManifestPath (Git.id git) in
  perform (rimraf_sync localPath);;
  perform (fs_mkdir localPath true);;
  match pinned git with
  | Some sha =>
      perform (child_process_exec (wget localPath (getManifestUrl git sha)))
  | None =>
      branch ← getDefaultBranch git;
      perform (child_process_exec (wget localPath (getManifestUrl git branch)))
  end.

(** Lines 555-561: the seconds since the last update.  On a [null]
    column [getTime] throws inside the [try], and the initial
    1000000 stays.  The division of an integer number of milliseconds
    by 1000 is compared with 120 as a rational: rounding the quotient
    to a double does not change the comparison. *)
Definition secsSinceUpdate (now : Z) (updatedAt : date_column) : Q :=
  match updatedAt with
  | DateNull => 1000000
  | DateUndefined => inject_Z (now - (-999999)) / 1000
  | DateAt ms => inject_Z (now - ms) / 1000
  end.

(** Line 563: [secsSinceUpdate > 120] *)
Definition manifestStale (now : Z) (updatedAt : date_column) : bool :=
  negb (Qle_bool (secsSinceUpdate now updatedAt) 120).

Definition refreshGitManifest (git : Git.t) : io W unit :=
  let localPath := getLocalManifestPath (Git.id git) in
  present ← perform (fs_existsSync localPath);
  (if negb present
   then
     perform (fs_mkdir localPath true);;
     perform (child_process_exec (wget localPath (getManifestUrl git "main")))
   else mret tt);;
  now ← perform new_Date;
  if manifestStale now (Git.updatedAt git)
  then
    try_catch
      (match pinned git with
       | Some sha =>
           perform (child_process_exec
                      (wget localPath (getManifestUrl git sha)))
       | None =>
           perform (child_process_exec
                      (wget localPath (getManifestUrl git "main")))
       end)
      (fun _ => deleteAndPullManifest git);;
    now ← perform new_Date;
    perform (update_updatedAt (Git.id git) now)
  else mret tt.

Definition ManifestUtil_getExecutableManifest (git : Git.t)
  : io W (gmap string value) :=
  refreshGitManifest git;;
  let localPath := getLocalManifestPath (Git.id git) in
  let executableFolderPath := path_join localPath "manifest.json" in
  rawExecutableManifest ←
    try_catch
      (perform (fs_readFile executableFolderPath))
      (fun _ =>
         deleteAndPullManifest git;;
         perform (fs_readFile executableFolderPath));
  lift (processExecutableManifest B C rawExecutableManifest
          (Git.address git)).

End Pipeline.

(* ================================================================== *)
(** * Part 4b: Statistic, and the date columns of Event *)
(* ================================================================== *)

(** A value of type [T | null | undefined]. *)
Inductive nullable (A : Type) :=
| Undefined
| Null
| Present (a : A).
Arguments Undefined {A}.
Arguments Null {A}.
Arguments Present {A} a.

(** A result of type [T | null], read as an argument. *)
Definition of_null {A} (r : option A) : nullable A :=
  match r with
  | Some a => Present a
  | None => Null
  end.

(** ** Statistic *)

(** The rows of the two queries of [getRuntimeTotal]. *)
Module Total.
Record t := { STATISTIC : string }.
End Total.

Module ByHPC.
Record t := { STATISTIC : string; HPC : string }.
End ByHPC.

(** The repository of jobs: a state, and the two sums that
    [getRuntimeTotal] asks of it, over all jobs ([getRawOne]) and by
    cluster ([getRawMany]). *)
Record Job_repository := {
  database : Type;
  runtime_sum : database → completion (nullable Total.t) * database;
  runtime_sum_by_hpc :
    database → completion (nullable (list ByHPC.t)) * database;
}.

Section Statistic.
(** [parseInt], on the strings of the rows. *)
Context (parseInt : string → number) (R : Job_repository).

(** The loop of lines 66-70 over the rows. *)
Definition by_hpc (out : gmap string number) (rows : list ByHPC.t)
  : gmap string number :=
  fold_left
    (fun out statistic =>
       <[ByHPC.HPC statistic := parseInt (ByHPC.STATISTIC statistic)]> out)
    rows out.

(** Lines 37-76.  [None] is [null]; an object and an array, also an
    empty one, are truthy. *)
Definition getRuntimeTotal (d : database R)
  : completion (option (gmap string number)) * database R :=
  match runtime_sum R d with
  | (Throw e, d1) => (Throw e, d1)
  | (Normal statisticTotal, d1) =>
      match runtime_sum_by_hpc R d1 with
      | (Throw e, d2) => (Throw e, d2)
      | (Normal statisticByHPC, d2) =>
          match statisticTotal, statisticByHPC with
          | Present total, Present rows =>
              (Normal
                 (Some (by_hpc
                          {[ "total" := parseInt (Total.STATISTIC total) ]}
                          rows)), d2)
          | _, _ => (Normal None, d2)
          end
      end
  end.

End Statistic.

(** ** Event: the transformer of the date columns

    The three date columns of the entity [Event] ([createdAt],
    [updatedAt], [deletedAt]) have the same transformer. *)

(** A [Date]: its time value, a number of milliseconds, or an
    invalid date. *)
Inductive JSDate :=
| Invalid_Date
| Time_value (ms : Z).

Definition getTime (d : JSDate) : number :=
  match d with
  | Invalid_Date => NaN
  | Time_value ms => Fin (inject_Z ms)
  end.

(** [Math.trunc]: towards zero. *)
Definition Math_trunc (n : number) : number :=
  match n with
  | NaN => NaN
  | Fin q => Fin (inject_Z (Z.quot (Qnum q) (Z.pos (Qden q))))
  end.

(** [new Date(n)]: beyond 8.64e15 milliseconds on either side of
    the epoch the date is invalid; within, the time is the number
    without its fraction. *)
Definition new_Date_of (n : number) : JSDate :=
  match n with
  | NaN => Invalid_Date
  | Fin q =>
      if Qle_bool (Qabs q) (inject_Z 8640000000000000)
      then Time_value (Z.quot (Qnum q) (Z.pos (Qden q)))
      else Invalid_Date
  end.

(** [to: (i) => (i ? i.getTime() : null)]; a [Date] is an object,
    and truthy. *)
Definition transformer_to (i : nullable JSDate) : option number :=
  match i with
  | Present d => Some (getTime d)
  | _ => None
  end.

(** [from: (i) => (i ? new Date(Math.trunc(i)) : null)] *)
Definition transformer_from (i : nullable number) : option JSDate :=
  match i with
  | Present n =>
      if truthy (VNum n) then Some (new_Date_of (Math_trunc n)) else None
  | _ => None
  end.

(* ================================================================== *)
(** * Part 5: sample catalog, documents and collaborators *)
(* ================================================================== *)

(** Modelled from the spec: the rule catalog of utils/types is missing.
    Section 4.4 gives its categories (time unit, storage unit, unitless
    integer, string option) and section 8 names [time] as a rule of the
    time category; the integer rules are the three integer categories
    together, the closed catalog is the integer rules and the
    string-option rules.  The other names are samples. *)
Definition sample_time : list string := ["time"].
Definition sample_storage : list string :=
  ["memory_per_cpu"; "memory_per_gpu"; "memory"].
Definition sample_unitless : list string :=
  ["cpu_per_task"; "num_of_node"; "num_of_task"; "gpus"].
Definition sample_options : list string := ["partition"].

Definition sample_catalog : catalog := {|
  slurm_configs :=
    sample_storage ++ sample_time ++ sample_unitless ++ sample_options;
  slurm_integer_configs := sample_storage ++ sample_time ++ sample_unitless;
  slurm_integer_none_unit_config := sample_unitless;
  slurm_integer_storage_unit_config := sample_storage;
  slurm_integer_time_unit_config := sample_time;
  slurm_string_option_configs := sample_options;
|}.

(** Writing documents.  [json_text] turns every apostrophe of its
    argument into a quotation mark. *)
Fixpoint json_text (s : string) : string :=
  match s with
  | EmptyString => EmptyString
  | String c rest =>
      String (if Ascii.eqb c (Ascii.ascii_of_nat 39)
              then Ascii.ascii_of_nat 34 else c)
             (json_text rest)
  end.

Definition num (z : Z) : value := VNum (Fin (inject_Z z)).
Definition obj (entries : list (string * value)) : value :=
  VObj (list_to_map entries).
Definition arr (elements : list value) : value := VArr (Some <$> elements).

(** The scenario of section 8 of the spec. *)
Definition raw_demo : string :=
  json_text "{'name':'demo','slurm_input_rules':{'time':{'default_value':5}}}".
Definition doc_demo : value :=
  obj [("name", VStr "demo");
       ("slurm_input_rules", obj [("time", obj [("default_value", num 5)])])].

(** A default cluster outside the supported ones. *)
Definition raw_hpc : string :=
  json_text "{'default_hpc':'x','supported_hpc':['y']}".
Definition doc_hpc : value :=
  obj [("default_hpc", VStr "x"); ("supported_hpc", arr [VStr "y"])].

(** An integer parameter whose [max] is below its default and whose
    [step] is negative. *)
Definition raw_bounds : string :=
  json_text "{'param_rules':{'n':{'type':'integer','default_value':5,'max':1,'step':-1}}}".
Definition doc_bounds : value :=
  obj [("param_rules",
        obj [("n", obj [("type", VStr "integer"); ("default_value", num 5);
                        ("max", num 1); ("step", num (-1))])])].

(** A unitless integer rule without [max], [min] and [step]. *)
Definition raw_unitless : string :=
  json_text "{'slurm_input_rules':{'cpu_per_task':{'default_value':4}}}".
Definition doc_unitless : value :=
  obj [("slurm_input_rules",
        obj [("cpu_per_task", obj [("default_value", num 4)])])].

(** A string-option parameter whose default is an array. *)
Definition raw_array_default : string :=
  json_text "{'param_rules':{'p':{'type':'string_option','default_value':[1]}}}".
Definition doc_array_default : value :=
  obj [("param_rules",
        obj [("p", obj [("type", VStr "string_option");
                        ("default_value", arr [num 1])])])].

(** That document after one validation, as text. *)
Definition raw_array_default' : string :=
  json_text "{'description':'none','estimated_runtime':'unknown','supported_hpc':['keeling_community'],'default_hpc':'keeling_community','repository':'https://github.com/o/r.git','require_upload_data':false,'slurm_input_rules':{},'param_rules':{'p':{'type':'string_option','default_value':[1],'options':[[1]]}}}".
Definition doc_array_default' : value :=
  obj [("description", VStr "none");
       ("estimated_runtime", VStr "unknown");
       ("supported_hpc", arr [VStr "keeling_community"]);
       ("default_hpc", VStr "keeling_community");
       ("repository", VStr "https://github.com/o/r.git");
       ("require_upload_data", VBool false);
       ("slurm_input_rules", obj []);
       ("param_rules",
        obj [("p", obj [("type", VStr "string_option");
                        ("default_value", arr [num 1]);
                        ("options", arr [arr [num 1]])])])].

(** An integer parameter with all its fields. *)
Definition raw_full : string :=
  json_text "{'param_rules':{'n':{'type':'integer','default_value':5,'max':8,'min':1,'step':2}}}".
Definition doc_full : value :=
  obj [("param_rules",
        obj [("n", obj [("type", VStr "integer"); ("default_value", num 5);
                        ("max", num 8); ("min", num 1); ("step", num 2)])])].

(** A text that is no JSON. *)
Definition raw_broken : string := "{".

(** [JSON.parse] on the sample texts. *)
Definition sample_JSON_parse (raw : string) : option value :=
  if String.eqb raw raw_demo then Some doc_demo
  else if String.eqb raw raw_hpc then Some doc_hpc
  else if String.eqb raw raw_bounds then Some doc_bounds
  else if String.eqb raw raw_unitless then Some doc_unitless
  else if String.eqb raw raw_array_default then Some doc_array_default
  else if String.eqb raw raw_array_default' then Some doc_array_default'
  else if String.eqb raw raw_full then Some doc_full
  else None.

(** The sample documents hold no string, array or object where a
    number is expected, and no string in the place of [options]. *)
Definition sample_builtins : builtins := {|
  JSON_parse := sample_JSON_parse;
  StringToNumber := fun _ => NaN;
  ObjectToNumber := fun _ => NaN;
  String_includes := fun _ _ => false;
|}.

(** A world with one repository and one local mirror.  The remote has
    a head revision and a manifest text; the mirror is present or not,
    stands at a revision, and holds a manifest file or not. *)
Record sample_world := {
  remote_head : option string;
  remote_manifest : option string;
  mirror_present : bool;
  mirror_revision : string;
  mirror_manifest : option string;
  clock : Z;
}.

Definition sample_answer (A : Type) (c : call A) (w : sample_world)
  : completion A * sample_world :=
  match c in call T return completion T * sample_world with
  | FolderUtil_removeZip _ => (Normal tt, w)
  | fs_existsSync _ => (Normal (mirror_present w), w)
  | rimraf_sync _ =>
      (Normal tt,
       {| remote_head := remote_head w; remote_manifest := remote_manifest w;
          mirror_present := false; mirror_revision := EmptyString;
          mirror_manifest := None; clock := clock w |})
  | fs_mkdir _ _ =>
      (Normal tt,
       {| remote_head := remote_head w; remote_manifest := remote_manifest w;
          mirror_present := true; mirror_revision := mirror_revision w;
          mirror_manifest := mirror_manifest w; clock := clock w |})
  | git_clone _ _ | git_pull _ =>
      (Normal tt,
       {| remote_head := remote_head w; remote_manifest := remote_manifest w;
          mirror_present := mirror_present w;
          mirror_revision := default EmptyString (remote_head w);
          mirror_manifest := remote_manifest w; clock := clock w |})
  | git_checkout _ ref =>
      (Normal tt,
       {| remote_head := remote_head w; remote_manifest := remote_manifest w;
          mirror_present := mirror_present w; mirror_revision := ref;
          mirror_manifest := mirror_manifest w; clock := clock w |})
  | git_fetch _ _ =>
      (Normal {| fetchHead := remote_head w;
                 defaultBranch := Some "refs/heads/main" |}, w)
  | git_log _ =>
      (Normal [{| oid := mirror_revision w; timestamp := 0 |}], w)
  | fs_readFile _ =>
      (match mirror_manifest w with
       | Some text => Normal text
       | None => Throw (Failure "ENOENT")
       end, w)
  | child_process_exec _ =>
      (Normal tt,
       {| remote_head := remote_head w; remote_manifest := remote_manifest w;
          mirror_present := mirror_present w;
          mirror_revision := mirror_revision w;
          mirror_manifest := remote_manifest w; clock := clock w |})
  | new_Date => (Normal (clock w), w)
  | update_updatedAt _ _ => (Normal tt, w)
  end.

Definition sample_collaborators : collaborators :=
  {| world := sample_world; answer := sample_answer |}.

Definition sample_root : string := "/data".

Definition start (w : sample_world)
    (cache : gmap string (gmap string value)) : state sample_world :=
  {| st_world := w; st_trace := []; st_cache := cache |}.

(** Two rows of the [Git] table: one that follows the remote head, one
    pinned to a revision. *)
Definition sample_git : Git.t :=
  {| Git.id := "hello"; Git.address := "https://github.com/o/r.git";
     Git.sha := None; Git.updatedAt := DateUndefined |}.

Definition sample_pinned_git : Git.t :=
  {| Git.id := "hello"; Git.address := "https://github.com/o/r.git";
     Git.sha := Some "abc"; Git.updatedAt := DateUndefined |}.

(** Sample worlds.  In all of them the remote holds the manifest of
    the demo but where said. *)

(** The mirror stands at the pinned revision [abc]; the remote head is
    another revision. *)
Definition world_at_pinned : sample_world :=
  {| remote_head := Some "def"; remote_manifest := Some raw_demo;
     mirror_present := true; mirror_revision := "abc";
     mirror_manifest := Some raw_demo; clock := 1000 |}.

(** No local mirror. *)
Definition world_missing : sample_world :=
  {| remote_head := Some "def"; remote_manifest := Some raw_demo;
     mirror_present := false; mirror_revision := EmptyString;
     mirror_manifest := None; clock := 1000 |}.

(** The mirror is at the remote head, and neither holds a manifest. *)
Definition world_unreadable : sample_world :=
  {| remote_head := Some "def"; remote_manifest := None;
     mirror_present := true; mirror_revision := "def";
     mirror_manifest := None; clock := 1000 |}.

(** The mirror is at the remote head and holds the manifest. *)
Definition world_in_sync : sample_world :=
  {| remote_head := Some "def"; remote_manifest := Some raw_demo;
     mirror_present := true; mirror_revision := "def";
     mirror_manifest := Some raw_demo; clock := 1000 |}.

(** The remote has advanced to a revision whose manifest is broken. *)
Definition world_broken : sample_world :=
  {| remote_head := Some "def"; remote_manifest := Some raw_broken;
     mirror_present := true; mirror_revision := "abc";
     mirror_manifest := Some raw_demo; clock := 1000 |}.

(** A cache with an entry for the sample repository. *)
Definition sample_cache : gmap string (gmap string value) :=
  {[ "hello" := defaults "https://github.com/o/r.git" ]}.

(** Reading results. *)

Definition sample_address : string := "https://github.com/o/r.git".
Definition validated (raw : string) : gmap string value :=
  match processExecutableManifest sample_builtins sample_catalog raw
          sample_address with
  | Normal manifest => manifest
  | Throw _ => ∅
  end.
Definition object_of (v : value) : gmap string value :=
  match v with
  | VObj o => o
  | _ => ∅
  end.
Definition rule_of (manifest : gmap string value) (key name : string)
  : gmap string value :=
  object_of (prop (object_of (prop manifest key)) name).
(** How many options the rule [name] of [param_rules] has. *)
Definition options_of (manifest : gmap string value) (name : string) : nat :=
  match prop (rule_of manifest "param_rules" name) "options" with
  | VArr slots => length slots
  | _ => 0
  end.

(** ** More samples *)

(** A parameter rule that is [null]. *)
Definition raw_null_rule : string :=
  json_text "{'param_rules':{'p':null}}".
Definition doc_null_rule : value :=
  obj [("param_rules", obj [("p", VNull)])].

(** The sample builtins, with that document too. *)
Definition more_builtins : builtins := {|
  JSON_parse := fun raw =>
    if String.eqb raw raw_null_rule then Some doc_null_rule
    else sample_JSON_parse raw;
  StringToNumber := fun _ => NaN;
  ObjectToNumber := fun _ => NaN;
  String_includes := fun _ _ => false;
|}.

(** A row pinned to a revision, and updated at the time of the
    sample clock. *)
Definition sample_fresh_git : Git.t :=
  {| Git.id := "hello"; Git.address := "https://github.com/o/r.git";
     Git.sha := Some "abc"; Git.updatedAt := DateAt 1000 |}.

(** [parseInt] on the strings of the sample rows, which are decimal
    digits. *)
Fixpoint decimal (acc : Z) (s : string) : number :=
  match s with
  | EmptyString => Fin (inject_Z acc)
  | String c rest =>
      let n := Ascii.nat_of_ascii c in
      if (48 <=? n)%nat && (n <=? 57)%nat
      then decimal (10 * acc + Z.of_nat (n - 48)) rest
      else NaN
  end.
Definition sample_parseInt (s : string) : number :=
  match s with
  | EmptyString => NaN
  | _ => decimal 0 s
  end.

(** A repository of jobs with 30 seconds in all, of which 10 on a
    cluster and 20 on a cluster that is named [total]. *)
Definition sample_jobs : Job_repository := {|
  database := unit;
  runtime_sum := fun d =>
    (Normal (Present {| Total.STATISTIC := "30" |}), d);
  runtime_sum_by_hpc := fun d =>
    (Normal (Present [ {| ByHPC.STATISTIC := "10"; ByHPC.HPC := "keeling" |};
                       {| ByHPC.STATISTIC := "20"; ByHPC.HPC := "total" |} ]),
     d);
|}.

(** The sample collaborators, but that a pull fails. *)
Definition no_pull_answer (A : Type) (c : call A) (w : sample_world)
  : completion A * sample_world :=
  match c in call T return completion T * sample_world with
  | git_pull _ => (Throw (Failure "pull"), w)
  | c' => sample_answer _ c' w
  end.

Definition no_pull_collaborators : collaborators :=
  {| world := sample_world; answer := no_pull_answer |}.

(** ** The vocabulary of the properties *)

Section Vocabulary.
Context (C : catalog).

(** The document over the defaults: the manifest before the rules
    are looked at. *)
Definition merged (document : value) (address : string)
  : gmap string value :=
  Object_assign (defaults address) document.

(** A rule typed as numeric: a parameter rule that declares the type
    [integer], a cluster-resource rule whose name is an integer rule
    of the catalog. *)
Definition integer_typed (key name : string) (rule : gmap string value)
  : bool :=
  if String.eqb key "param_rules"
  then is_string "integer" (prop rule "type")
  else includes (slurm_integer_configs C) name.

(** A cluster-resource rule of the unitless category. *)
Definition unitless (key name : string) : bool :=
  String.eqb key "slurm_input_rules"
  && includes (slurm_integer_none_unit_config C) name.

(** [min <= default <= max] and a positive step, on numbers. *)
Definition in_bounds (rule : gmap string value) : Prop :=
  ∃ d lo hi st : Q,
    prop rule "default_value" = VNum (Fin d) ∧
    prop rule "min" = VNum (Fin lo) ∧
    prop rule "max" = VNum (Fin hi) ∧
    prop rule "step" = VNum (Fin st) ∧
    (lo <= d)%Q ∧ (d <= hi)%Q ∧ (0 < st)%Q.

(** What a document has to give for [in_bounds] to hold afterwards:
    a default that is a number and not negative, and each of [max],
    [min] and [step] either left out (or falsy) or a number on the
    right side of the default. *)
Definition bounds_respected (rule : gmap string value) : Prop :=
  ∃ d : Q,
    prop rule "default_value" = VNum (Fin d) ∧ (0 <= d)%Q ∧
    (truthy (prop rule "max") = true →
     ∃ hi, prop rule "max" = VNum (Fin hi) ∧ (d <= hi)%Q) ∧
    (truthy (prop rule "min") = true →
     ∃ lo, prop rule "min" = VNum (Fin lo) ∧ (lo <= d)%Q) ∧
    (truthy (prop rule "step") = true →
     ∃ st, prop rule "step" = VNum (Fin st) ∧ (0 < st)%Q).

(** [default_hpc] is one of [supported_hpc]. *)
Definition default_hpc_supported (manifest : gmap string value) : Prop :=
  ∃ slots,
    prop manifest "supported_hpc" = VArr slots ∧
    Some (prop manifest "default_hpc") ∈ slots.

(** A value that is neither an array nor an object. *)
Definition primitive (v : value) : bool :=
  match v with
  | VArr _ | VObj _ => false
  | _ => true
  end.

(** A rule mapping that is no array, and whose rules have a
    primitive default value.  (In an array, a deleted rule leaves a
    hole, which the text of the result writes as [null].) *)
Definition plain_rules (mapping : value) : Prop :=
  match mapping with
  | VArr _ => False
  | VObj rules =>
      ∀ name r, rules !! name = Some (VObj r) →
                primitive (prop r "default_value") = true
  | _ => True
  end.

(** No name of the unitless category is in the time or the storage
    category. *)
Definition categories_apart : Prop :=
  ∀ name,
    includes (slurm_integer_none_unit_config C) name = true →
    includes (slurm_integer_time_unit_config C) name = false ∧
    includes (slurm_integer_storage_unit_config C) name = false.

(** One defaulting statement, [if (!rule.k) { rule.k = c }]. *)
Definition fill (k : string) (c : value) (rule : gmap string value)
  : gmap string value :=
  if negb (truthy (prop rule k)) then <[k := c]> rule else rule.

(** [JSON.parse(JSON.stringify(v))]: a property whose value is
    [undefined] is left out, an array slot that is a hole or
    [undefined] is written [null], and so is [NaN]. *)
Fixpoint JSON_roundtrip (v : value) : value :=
  match v with
  | VObj o =>
      VObj (omap (fun x => match x with
                           | VUndef => None
                           | _ => Some (JSON_roundtrip x)
                           end) o)
  | VArr slots =>
      VArr (map (fun slot => Some (match slot with
                                   | Some VUndef | None => VNull
                                   | Some x => JSON_roundtrip x
                                   end)) slots)
  | VNum NaN => VNull
  | _ => v
  end.

(** What the text keeps of a property. *)
Definition written (x : value) : option value :=
  match x with
  | VUndef => None
  | _ => Some (JSON_roundtrip x)
  end.

(** What the text keeps of an array slot. *)
Definition written_slot (slot : option value) : option value :=
  Some (match slot with
        | Some VUndef | None => VNull
        | Some x => JSON_roundtrip x
        end).

(** A value that [JSON.parse] can yield. *)
Definition is_JSON (v : value) : Prop :=
  v ≠ VUndef ∧ JSON_roundtrip v = v.

(** A rule as validation leaves it: its fields are JSON values, but
    for a [max] that is [NaN]. *)
Definition settled (r : gmap string value) : Prop :=
  ∀ k x, r !! k = Some x → is_JSON x ∨ (k = "max" ∧ x = VNum NaN).

(** The rule that the text of a settled rule parses to. *)
Definition null_for_NaN (r : gmap string value) : gmap string value :=
  match prop r "max" with
  | VNum NaN => <["max" := VNull]> r
  | _ => r
  end.

End Vocabulary.

(** A way to recreate a mirror: whatever comes of it, it deletes the
    local directory once and reads no file. *)
Definition one_destroy {W} (recreate : io W unit) : Prop :=
  ∀ s r s', recreate s = (r, s') →
    ∃ t, st_trace s' = (st_trace s ++ t)%list ∧
         count is_destroy t = 1%nat ∧ count is_read t = 0%nat.

(** A computation only adds calls to the trace. *)
Definition monotone {W A} (m : io W A) : Prop :=
  ∀ s, ∃ t, st_trace (m s).2 = (st_trace s ++ t)%list.

(** A computation that neither reads nor writes the cache: with
    another cache it does the same and leaves that cache. *)
Definition oblivious {W A} (m : io W A) : Prop :=
  ∀ cache s, m (with_cache cache s) = ((m s).1, with_cache cache (m s).2).

(** ** The vocabulary of the further properties *)

(** The three types of a parameter rule. *)
Definition param_types : list string :=
  ["integer"; "string_option"; "string_input"].

(** A parameter rule that the loop keeps: an object with a truthy
    default and one of the three types. *)
Definition param_rule_valid (rule : value) : Prop :=
  ∃ r, rule = VObj r ∧
       truthy (prop r "default_value") = true ∧
       includes_value param_types (prop r "type") = true.

(** A cluster-resource rule that the loop keeps: its name is in the
    catalog, and it is [undefined] or an object with a truthy default
    and, in the time and the storage category, no unit or a unit of
    the category. *)
Definition slurm_rule_valid (C : catalog) (name : string) (rule : value)
  : Prop :=
  includes (slurm_configs C) name = true ∧
  (rule = VUndef ∨
   ∃ r, rule = VObj r ∧
        truthy (prop r "default_value") = true ∧
        (includes (slurm_integer_time_unit_config C) name
         && unit_outside ["Minutes"; "Hours"; "Days"] (prop r "unit")) = false ∧
        (includes (slurm_integer_storage_unit_config C) name
         && unit_outside ["GB"; "MB"] (prop r "unit")) = false).

(** [undefined], or one of the strings of [allowed]. *)
Definition unit_among (allowed : list string) (unit : value) : Prop :=
  unit = VUndef ∨ ∃ u, unit = VStr u ∧ u ∈ allowed.

(** The options of a rule hold its default: an array that includes it
    or ends with it, or a string that includes it. *)
Definition options_hold_default (B : builtins) (r : gmap string value)
  : Prop :=
  match prop r "options" with
  | VArr slots =>
      array_includes slots (prop r "default_value") = true
      ∨ last slots = Some (Some (prop r "default_value"))
  | VStr s => String_includes B s (prop r "default_value") = true
  | _ => False
  end.

(** A rule typed as a choice among options: a parameter rule that
    declares the type [string_option], a cluster-resource rule whose
    name is a string-option rule of the catalog. *)
Definition option_typed (C : catalog) (key name : string)
    (rule : gmap string value) : bool :=
  if String.eqb key "param_rules"
  then is_string "string_option" (prop rule "type")
  else includes (slurm_string_option_configs C) name.

(** A computation none of whose calls satisfies [p]. *)
Definition never {W A} (p : event → bool) (m : io W A) : Prop :=
  ∀ s, ∃ t, st_trace (m s).2 = (st_trace s ++ t)%list ∧ count p t = 0%nat.

(** The commands of a shell. *)
Definition is_shell (e : event) : bool :=
  match e with
  | Called (child_process_exec _) => true
  | _ => false
  end.

(** The calls to isomorphic-git. *)
Definition is_isomorphic_git (e : event) : bool :=
  match e with
  | Called (git_clone _ _) | Called (git_checkout _ _) | Called (git_pull _)
  | Called (git_fetch _ _) | Called (git_log _) => true
  | _ => false
  end.

(** A call that changes the file system elsewhere than in the
    directory [dir]: a deletion, a creation, a clone, a checkout or a
    pull in another directory, or a shell command that is not a
    download of the manifest into [dir]. *)
Definition changes_outside (dir : string) (e : event) : bool :=
  match e with
  | Called (rimraf_sync p) | Called (fs_mkdir p _) | Called (git_clone p _)
  | Called (git_checkout p _) | Called (git_pull p) =>
      negb (String.eqb p dir)
  | Called (child_process_exec command) =>
      negb (String.prefix ("cd " ++ dir ++ " && wget -O manifest.json ")
              command)
  | _ => false
  end.

(** A string without the character [c]. *)
Fixpoint free_of (c : Ascii.ascii) (s : string) : bool :=
  match s with
  | EmptyString => true
  | String x rest => negb (Ascii.eqb x c) && free_of c rest
  end.

Definition slash : Ascii.ascii := Ascii.ascii_of_nat 47.
Definition dot : Ascii.ascii := Ascii.ascii_of_nat 46.

(* ================================================================== *)
(** * Part 6: properties *)
(* ================================================================== *)

(** ** Properties of objects and of the loop *)

Lemma prop_insert_eq (o : gmap string value) k v : prop (<[k := v]> o) k = v.
Proof. unfold prop. by rewrite lookup_insert_eq. Qed.

Lemma prop_insert_ne (o : gmap string value) k k' v :
  k ≠ k' → prop (<[k := v]> o) k' = prop o k'.
Proof. intros. unfold prop. by rewrite lookup_insert_ne. Qed.

Lemma prop_lookup (o : gmap string value) k v :
  o !! k = Some v → prop o k = v.
Proof. unfold prop. by intros ->. Qed.

Lemma prop_object (o rules : gmap string value) k :
  prop o k = VObj rules → o !! k = Some (VObj rules).
Proof. unfold prop. destruct (o !! k); simpl; [congruence | discriminate]. Qed.

Lemma insert_prop (o : gmap string value) k :
  is_Some (o !! k) → <[k := prop o k]> o = o.
Proof. intros [v Hv]. apply insert_id. by rewrite (prop_lookup _ _ _ Hv). Qed.

Section Loops.
Context (body : string → value → completion (option value)).

Lemma for_in_entries_elem l l' :
  for_in_entries body l = Normal l' →
  ∀ k v', (k, v') ∈ l' ↔ ∃ v, (k, v) ∈ l ∧ body k v = Normal (Some v').
Proof.
  revert l'. induction l as [|[name v0] l IH]; simpl; intros l' H k v'.
  - inversion H; subst. split.
    + intros Hin. by apply elem_of_nil in Hin.
    + intros (v & Hin & _). by apply elem_of_nil in Hin.
  - destruct (body name v0) as [r|e] eqn:Hbody; simpl in H; [|discriminate].
    destruct (for_in_entries body l) as [rest|e] eqn:Hrest; simpl in H;
      [|discriminate].
    inversion H; subst; clear H.
    specialize (IH rest eq_refl k v').
    destruct r as [v1|].
    + rewrite elem_of_cons, IH. split.
      * intros [Heq | (v & Hin & Hb)].
        -- inversion Heq; subst. exists v0. split; [left|]; done.
        -- exists v. split; [by right|done].
      * intros (v & Hin & Hb). apply elem_of_cons in Hin as [Heq | Hin].
        -- inversion Heq; subst. left. congruence.
        -- right. eauto.
    + rewrite IH. split.
      * intros (v & Hin & Hb). exists v. split; [by right|done].
      * intros (v & Hin & Hb). apply elem_of_cons in Hin as [Heq | Hin].
        -- inversion Heq; subst. congruence.
        -- eauto.
Qed.

Lemma for_in_entries_keys l l' :
  for_in_entries body l = Normal l' → l'.*1 `sublist_of` l.*1.
Proof.
  revert l'. induction l as [|[name v0] l IH]; simpl; intros l' H.
  - by inversion H.
  - destruct (body name v0) as [r|e]; simpl in H; [|discriminate].
    destruct (for_in_entries body l) as [rest|e]; simpl in H; [|discriminate].
    inversion H; subst; clear H. specialize (IH rest eq_refl).
    destruct r; simpl; [by apply sublist_skip | by apply sublist_cons].
Qed.

(** The loop over an object keeps the names whose iteration leaves a
    value, with that value. *)
Lemma for_in_object o x :
  for_in body (VObj o) = Normal x →
  ∃ o', x = VObj o' ∧
    ∀ k v', o' !! k = Some v' ↔
            ∃ v, o !! k = Some v ∧ body k v = Normal (Some v').
Proof.
  simpl. destruct (for_in_entries body (map_to_list o)) as [l'|e] eqn:Hl;
    simpl; [|discriminate].
  intros H; inversion H; subst; clear H. eexists; split; [done|].
  intros k v'.
  rewrite <- elem_of_list_to_map.
  - rewrite (for_in_entries_elem _ _ Hl).
    split; intros (v & Hin & Hb); exists v; split; try done;
      by apply elem_of_map_to_list.
  - apply (sublist_NoDup _ (map_to_list o).*1).
    + apply NoDup_fst_map_to_list.
    + by apply for_in_entries_keys.
Qed.

(** An output that is an object comes from an input that is one. *)
Lemma for_in_object_back mapping o' :
  for_in body mapping = Normal (VObj o') → ∃ o, mapping = VObj o.
Proof.
  destruct mapping; simpl; try discriminate; eauto.
  - case_match; discriminate.
  - destruct (for_in_slots body 0 slots); simpl; discriminate.
Qed.

Lemma for_in_entries_fixed l :
  (∀ k v, (k, v) ∈ l → body k v = Normal (Some v)) →
  for_in_entries body l = Normal l.
Proof.
  induction l as [|[name v0] l IH]; simpl; intros H; [done|].
  rewrite (H name v0) by left. simpl.
  rewrite IH; [done|]. intros. apply H. by right.
Qed.

(** An object that every iteration leaves as it is comes out of the
    loop as it went in. *)
Lemma for_in_object_fixed o :
  (∀ k v, o !! k = Some v → body k v = Normal (Some v)) →
  for_in body (VObj o) = Normal (VObj o).
Proof.
  intros H. simpl. rewrite for_in_entries_fixed.
  - simpl. by rewrite list_to_map_to_list.
  - intros k v Hin. apply H. by apply elem_of_map_to_list.
Qed.
End Loops.

(** ** Properties of the rules *)

Section Rules.
Context (B : builtins) (C : catalog).

Lemma integer_defaults_max r :
  prop (integer_defaults B r) "max" =
    if truthy (prop r "max") then prop r "max"
    else VNum (num_mul (ToNumber B (prop r "default_value")) (Fin 2)).
Proof.
  unfold integer_defaults.
  destruct (truthy (prop r "max")) eqn:Hmax; simpl;
    repeat (case_match; simpl);
    rewrite ?prop_insert_ne, ?prop_insert_eq by done; done.
Qed.

Lemma integer_defaults_min r :
  prop (integer_defaults B r) "min" =
    if truthy (prop r "min") then prop r "min" else VNum (Fin 0).
Proof.
  unfold integer_defaults.
  destruct (truthy (prop r "max")) eqn:Hmax; simpl;
  rewrite ?prop_insert_ne by done;
  destruct (truthy (prop r "min")) eqn:Hmin; simpl;
    repeat (case_match; simpl);
    rewrite ?prop_insert_ne, ?prop_insert_eq by done; done.
Qed.

Lemma integer_defaults_step r :
  prop (integer_defaults B r) "step" =
    if truthy (prop r "step") then prop r "step" else VNum (Fin 1).
Proof.
  unfold integer_defaults.
  destruct (truthy (prop r "max")) eqn:Hmax; simpl;
  rewrite ?prop_insert_ne by done;
  destruct (truthy (prop r "min")) eqn:Hmin; simpl;
  rewrite ?prop_insert_ne by done;
  destruct (truthy (prop r "step")) eqn:Hstep; simpl;
    rewrite ?prop_insert_ne, ?prop_insert_eq by done; done.
Qed.

Lemma integer_defaults_other r k :
  k ≠ "max" → k ≠ "min" → k ≠ "step" →
  prop (integer_defaults B r) k = prop r k.
Proof.
  intros. unfold integer_defaults.
  repeat (case_match; simpl); rewrite ?prop_insert_ne by done; done.
Qed.

Lemma option_defaults_other r r' k :
  option_defaults B r = Normal r' → k ≠ "options" → prop r' k = prop r k.
Proof.
  unfold option_defaults. intros H Hk.
  repeat (case_match; simpl in *; try discriminate);
    inversion H; subst; rewrite ?prop_insert_ne by done; done.
Qed.

(** What an iteration over [slurm_input_rules] leaves: [undefined]
    as it is, or an object with a truthy default; in the unitless
    category the rule with its unit set, elsewhere the rule with the
    defaults of its kinds. *)
Lemma slurm_rule_kept name rule v' :
  slurm_rule B C name rule = Normal (Some v') →
  (rule = VUndef ∧ v' = VUndef) ∨
  ∃ r r', rule = VObj r ∧ v' = VObj r' ∧
    truthy (prop r "default_value") = true ∧
    if includes (slurm_integer_none_unit_config C) name
    then r' = <["unit" := VStr "None"]> r
    else
      (if includes (slurm_string_option_configs C) name
       then option_defaults B
       else Normal)
        (if includes (slurm_integer_configs C) name
         then integer_defaults B r else r)
      = Normal r'.
Proof.
  unfold slurm_rule. intros H.
  destruct (includes (slurm_configs C) name); simpl in H; [|discriminate].
  destruct rule as [| | | | | |r]; try discriminate.
  { left. split; congruence. }
  right.
  destruct (truthy (prop r "default_value")) eqn:Hd; simpl in H;
    [|discriminate].
  destruct (includes (slurm_integer_time_unit_config C) name
            && unit_outside ["Minutes"; "Hours"; "Days"] (prop r "unit"));
    [discriminate|].
  destruct (includes (slurm_integer_storage_unit_config C) name
            && unit_outside ["GB"; "MB"] (prop r "unit"));
    [discriminate|].
  destruct (includes (slurm_integer_none_unit_config C) name).
  { inversion H; subst. eauto 10. }
  destruct (includes (slurm_string_option_configs C) name).
  - destruct (option_defaults B _) as [r2|e] eqn:Ho; simpl in H;
      [|discriminate].
    inversion H; subst. eauto 10.
  - simpl in H. inversion H; subst. eauto 10.
Qed.

Lemma param_rule_kept name rule v' :
  param_rule B name rule = Normal (Some v') →
  ∃ r r', rule = VObj r ∧ v' = VObj r' ∧
    truthy (prop r "default_value") = true ∧
    (if is_string "string_option" (prop r "type")
     then option_defaults B
     else Normal)
      (if is_string "integer" (prop r "type")
       then integer_defaults B r else r)
    = Normal r'.
Proof.
  unfold param_rule. intros H.
  destruct rule as [| | | | | |r]; try discriminate.
  destruct (truthy (prop r "default_value")) eqn:Hd; simpl in H;
    [|discriminate].
  destruct (includes_value _ _); simpl in H; [|discriminate].
  exists r.
  destruct (is_string "integer" (prop r "type")) eqn:Hint.
  - rewrite integer_defaults_other in H by done.
    destruct (is_string "string_option" (prop r "type")).
    + destruct (option_defaults B _) as [r2|e] eqn:Ho; simpl in H;
        [|discriminate].
      inversion H; subst. eauto.
    + simpl in H. inversion H; subst. eauto.
  - destruct (is_string "string_option" (prop r "type")).
    + destruct (option_defaults B _) as [r2|e] eqn:Ho; simpl in H;
        [|discriminate].
      inversion H; subst. eauto.
    + simpl in H. inversion H; subst. eauto.
Qed.

(** The default value of a rule is never written. *)
Lemma slurm_rule_default name r r' :
  slurm_rule B C name (VObj r) = Normal (Some (VObj r')) →
  prop r' "default_value" = prop r "default_value".
Proof.
  intros H. apply slurm_rule_kept in H as [[? _]|(r0 & r1 & ? & ? & _ & H)];
    [discriminate|].
  simplify_eq.
  destruct (includes (slurm_integer_none_unit_config C) name).
  { subst. by rewrite prop_insert_ne. }
  destruct (includes (slurm_string_option_configs C) name),
           (includes (slurm_integer_configs C) name);
    first [ rewrite (option_defaults_other _ _ _ H) by done
          | simplify_eq ];
    rewrite ?integer_defaults_other by done; done.
Qed.

Lemma param_rule_default name r r' :
  param_rule B name (VObj r) = Normal (Some (VObj r')) →
  prop r' "default_value" = prop r "default_value".
Proof.
  intros H. apply param_rule_kept in H as (r0 & r1 & ? & ? & _ & H).
  simplify_eq.
  destruct (is_string "string_option" (prop r0 "type")),
           (is_string "integer" (prop r0 "type"));
    first [ rewrite (option_defaults_other _ _ _ H) by done
          | simplify_eq ];
    rewrite ?integer_defaults_other by done; done.
Qed.

(** ** The shape of the result *)

Lemma default_hpc_step_other m k :
  k ≠ "default_hpc" → prop (default_hpc_step m) k = prop m k.
Proof.
  intros. unfold default_hpc_step. case_match; [|done].
  by rewrite prop_insert_ne.
Qed.

Lemma normalize_inv document address manifest :
  normalize B C document address = Normal manifest →
  ∃ slurm param,
    for_in (slurm_rule B C)
      (prop (merged document address) "slurm_input_rules") = Normal slurm ∧
    for_in (param_rule B)
      (prop (merged document address) "param_rules") = Normal param ∧
    manifest =
      <["param_rules" := param]>
        (<["slurm_input_rules" := slurm]>
           (default_hpc_step (merged document address))).
Proof.
  unfold normalize, merged. intros H.
  rewrite default_hpc_step_other in H by done.
  destruct (for_in (slurm_rule B C) _) as [slurm|e] eqn:Hs; simpl in H;
    [|discriminate].
  rewrite prop_insert_ne, default_hpc_step_other in H by done.
  destruct (for_in (param_rule B) _) as [param|e] eqn:Hp; simpl in H;
    [|discriminate].
  inversion H; subst. eauto.
Qed.

(** Every entry of a rule mapping of the result comes from an entry
    of the document that its iteration left in place. *)
Lemma surviving_rule document address manifest key rules name rule :
  normalize B C document address = Normal manifest →
  key = "slurm_input_rules" ∨ key = "param_rules" →
  prop manifest key = VObj rules →
  rules !! name = Some rule →
  ∃ rules0 rule0,
    prop (merged document address) key = VObj rules0 ∧
    rules0 !! name = Some rule0 ∧
    (if String.eqb key "param_rules"
     then param_rule B name rule0
     else slurm_rule B C name rule0) = Normal (Some rule).
Proof.
  intros H Hkey Hrules Hrule.
  apply normalize_inv in H as (slurm & param & Hs & Hp & ->).
  destruct Hkey as [-> | ->]; simpl.
  - rewrite prop_insert_ne, prop_insert_eq in Hrules by done. subst slurm.
    destruct (for_in_object_back _ _ _ Hs) as [rules0 Hm].
    rewrite Hm in Hs. apply for_in_object in Hs as (o' & Ho' & Hiff).
    simplify_eq. apply Hiff in Hrule as (rule0 & ? & ?). eauto.
  - rewrite prop_insert_eq in Hrules. subst param.
    destruct (for_in_object_back _ _ _ Hp) as [rules0 Hm].
    rewrite Hm in Hp. apply for_in_object in Hp as (o' & Ho' & Hiff).
    simplify_eq. apply Hiff in Hrule as (rule0 & ? & ?). eauto.
Qed.

End Rules.

(** ** The validator: C2, C3, C6 *)

Section ValidatorProperties.
Context (B : builtins) (C : catalog).

(** A numeric rule outside the unitless category comes out as
    [integer_defaults] leaves it, but for its options. *)
Lemma numeric_rule_result key name rule0 r :
  key = "slurm_input_rules" ∨ key = "param_rules" →
  (if String.eqb key "param_rules"
   then param_rule B name rule0
   else slurm_rule B C name rule0) = Normal (Some (VObj r)) →
  ∃ r0, rule0 = VObj r0 ∧
    truthy (prop r0 "default_value") = true ∧
    (integer_typed C key name r0 = true → unitless C key name = false →
     ∀ k, k ≠ "options" → prop r k = prop (integer_defaults B r0) k).
Proof.
  intros [-> | ->]; simpl; intros H.
  - apply slurm_rule_kept in H as [[_ ?]|(r0 & r' & -> & ? & Hd & H)];
      [discriminate|].
    simplify_eq. exists r0. split; [done|]. split; [done|].
    unfold integer_typed, unitless. simpl. intros Hint Hnone k Hk.
    rewrite Hnone, Hint in H.
    destruct (includes (slurm_string_option_configs C) name).
    + by apply (option_defaults_other B _ _ _ H).
    + by simplify_eq.
  - apply param_rule_kept in H as (r0 & r' & -> & ? & Hd & H).
    simplify_eq. exists r0. split; [done|]. split; [done|].
    unfold integer_typed. simpl. intros Hint _ k Hk.
    rewrite Hint in H.
    destruct (is_string "string_option" (prop r0 "type")).
    + by apply (option_defaults_other B _ _ _ H).
    + by simplify_eq.
Qed.

Lemma integer_defaults_in_bounds r0 r :
  (∀ k, k ≠ "options" → prop r k = prop (integer_defaults B r0) k) →
  bounds_respected r0 → in_bounds r.
Proof.
  intros Hr (d & Hd & Hpos & Hmax & Hmin & Hstep).
  unfold in_bounds.
  rewrite !Hr by done.
  rewrite integer_defaults_max, integer_defaults_min, integer_defaults_step.
  rewrite integer_defaults_other by done. rewrite Hd. simpl.
  destruct (truthy (prop r0 "max")).
  - destruct (Hmax eq_refl) as (hi & -> & ?).
    destruct (truthy (prop r0 "min")).
    + destruct (Hmin eq_refl) as (lo & -> & ?).
      destruct (truthy (prop r0 "step")).
      * destruct (Hstep eq_refl) as (st & -> & ?).
        exists d, lo, hi, st. repeat split; done.
      * exists d, lo, hi, 1%Q. repeat split; done.
    + destruct (truthy (prop r0 "step")).
      * destruct (Hstep eq_refl) as (st & -> & ?).
        exists d, 0%Q, hi, st. repeat split; done.
      * exists d, 0%Q, hi, 1%Q. repeat split; done.
  - assert (d <= d * 2)%Q by lra.
    destruct (truthy (prop r0 "min")).
    + destruct (Hmin eq_refl) as (lo & -> & ?).
      destruct (truthy (prop r0 "step")).
      * destruct (Hstep eq_refl) as (st & -> & ?).
        exists d, lo, (d * 2)%Q, st. repeat split; done.
      * exists d, lo, (d * 2)%Q, 1%Q. repeat split; done.
    + destruct (truthy (prop r0 "step")).
      * destruct (Hstep eq_refl) as (st & -> & ?).
        exists d, 0%Q, (d * 2)%Q, st. repeat split; done.
      * exists d, 0%Q, (d * 2)%Q, 1%Q. repeat split; done.
Qed.

(** C2, as amended.  In the result of an accepted document, every
    entry of the two rule mappings is an object with a truthy default
    value, the one the document gave (or [undefined], which the first
    loop steps over and [JSON.parse] never yields).  The bounds are
    not checked: [min <= default <= max] and a positive step hold for
    a numeric rule outside the unitless category when the default is
    a number that is not negative and the document gave no [max],
    [min] and [step], or gave numbers that respect them. *)
Theorem surviving_rules_invariant raw address document manifest :
  JSON_parse B raw = Some document →
  processExecutableManifest B C raw address = Normal manifest →
  ∀ key rules name rule,
    key = "slurm_input_rules" ∨ key = "param_rules" →
    prop manifest key = VObj rules →
    rules !! name = Some rule →
    rule = VUndef ∨
    ∃ r rules0 r0,
      rule = VObj r ∧
      prop (merged document address) key = VObj rules0 ∧
      rules0 !! name = Some (VObj r0) ∧
      prop r "default_value" = prop r0 "default_value" ∧
      truthy (prop r "default_value") = true ∧
      (integer_typed C key name r0 = true →
       unitless C key name = false →
       bounds_respected r0 → in_bounds r).
Proof.
  unfold processExecutableManifest. intros -> H key rules name rule Hkey Hm Hr.
  destruct (surviving_rule _ _ _ _ _ _ _ _ _ H Hkey Hm Hr)
    as (rules0 & rule0 & Hm0 & Hr0 & Hbody).
  destruct rule as [| | | | | |r].
  1: by left.
  all: right.
  6: {
    destruct (numeric_rule_result _ _ _ _ Hkey Hbody)
      as (r0 & -> & Hd & Hnum).
    assert (prop r "default_value" = prop r0 "default_value") as Heq.
    { destruct Hkey as [-> | ->].
      - apply (slurm_rule_default B C name _ _ Hbody).
      - apply (param_rule_default B name _ _ Hbody). }
    exists r, rules0, r0. repeat split; try done.
    - congruence.
    - intros Hint Hnone Hb.
      eapply integer_defaults_in_bounds; [|done]. by apply Hnum. }
  all: destruct Hkey as [-> | ->]; simpl in Hbody.
  all: first [ apply slurm_rule_kept in Hbody
                 as [[_ ?]|(? & ? & _ & ? & _)]; discriminate
             | apply param_rule_kept in Hbody
                 as (? & ? & _ & ? & _); discriminate ].
Qed.


(** C3, as amended.  The result keeps [supported_hpc] as the document
    over the defaults has it.  A truthy [default_hpc] is kept as
    given, supported or not.  When [default_hpc] is unset and
    [supported_hpc] is a list that starts with a cluster, the result
    has that cluster as [default_hpc], which is then one of
    [supported_hpc]. *)
Theorem default_hpc_result raw address document manifest :
  JSON_parse B raw = Some document →
  processExecutableManifest B C raw address = Normal manifest →
  prop manifest "supported_hpc"
    = prop (merged document address) "supported_hpc" ∧
  (truthy (prop (merged document address) "default_hpc") = true →
   prop manifest "default_hpc"
     = prop (merged document address) "default_hpc") ∧
  (truthy (prop (merged document address) "default_hpc") = false →
   ∀ first rest,
     prop (merged document address) "supported_hpc"
       = VArr (Some first :: rest) →
     prop manifest "default_hpc" = first ∧
     default_hpc_supported manifest).
Proof.
  unfold processExecutableManifest. intros -> H.
  apply normalize_inv in H as (slurm & param & _ & _ & ->).
  unfold default_hpc_supported.
  rewrite !prop_insert_ne by done.
  rewrite (default_hpc_step_other _ "supported_hpc") by done.
  split; [done|].
  unfold default_hpc_step.
  split.
  - intros ->. done.
  - intros -> first rest Hs. rewrite Hs. simpl.
    rewrite prop_insert_eq. split; [done|].
    exists (Some first :: rest). split; [done|]. left.
Qed.

End ValidatorProperties.

(** ** The validator: C7 *)

Section Idempotence.
Context (B : builtins) (C : catalog).

Lemma integer_defaults_fill r :
  integer_defaults B r =
    fill "step" (VNum (Fin 1))
      (fill "min" (VNum (Fin 0))
         (fill "max"
            (VNum (num_mul (ToNumber B (prop r "default_value")) (Fin 2)))
            r)).
Proof. reflexivity. Qed.

Lemma fill_fill k c r : fill k c (fill k c r) = fill k c r.
Proof.
  unfold fill. destruct (truthy (prop r k)) eqn:Ht; simpl.
  - by rewrite Ht.
  - rewrite prop_insert_eq. destruct (truthy c); simpl; [done|].
    by rewrite insert_insert_eq.
Qed.

Lemma fill_comm k c k' c' r :
  k ≠ k' → fill k c (fill k' c' r) = fill k' c' (fill k c r).
Proof.
  intros. unfold fill.
  destruct (truthy (prop r k)) eqn:Ht, (truthy (prop r k')) eqn:Ht'; simpl;
    rewrite ?prop_insert_ne by done; rewrite ?Ht, ?Ht'; simpl; try done.
  by apply insert_insert_ne.
Qed.

Lemma fill_insert_ne k c k' v r :
  k ≠ k' → fill k c (<[k' := v]> r) = <[k' := v]> (fill k c r).
Proof.
  intros. unfold fill. rewrite prop_insert_ne by done.
  case_match; [|done]. by apply insert_insert_ne.
Qed.

Lemma fill3_idem M a b r :
  fill "step" b (fill "min" a (fill "max" M
    (fill "step" b (fill "min" a (fill "max" M r)))))
  = fill "step" b (fill "min" a (fill "max" M r)).
Proof.
  rewrite (fill_comm "max" M "step" b) by done.
  rewrite (fill_comm "max" M "min" a) by done.
  rewrite fill_fill.
  rewrite (fill_comm "min" a "step" b) by done.
  by rewrite !fill_fill.
Qed.

Lemma integer_defaults_idem r :
  integer_defaults B (integer_defaults B r) = integer_defaults B r.
Proof.
  rewrite (integer_defaults_fill (integer_defaults B r)).
  rewrite integer_defaults_other by done.
  rewrite integer_defaults_fill.
  apply fill3_idem.
Qed.

Lemma integer_defaults_insert_options v r :
  integer_defaults B (<["options" := v]> r)
  = <["options" := v]> (integer_defaults B r).
Proof.
  rewrite !integer_defaults_fill. rewrite prop_insert_ne by done.
  by rewrite !fill_insert_ne by done.
Qed.

Lemma SameValueZero_refl v : primitive v = true → SameValueZero v v = true.
Proof.
  destruct v as [| |b|[|q]|s| |]; simpl; try done.
  - by destruct b.
  - intros _. apply Qeq_bool_iff. reflexivity.
  - intros _. apply String.eqb_refl.
Qed.

Lemma array_includes_last slots v :
  primitive v = true → array_includes (slots ++ [Some v]) v = true.
Proof.
  intros. unfold array_includes. rewrite existsb_app. simpl.
  rewrite SameValueZero_refl by done. by rewrite orb_true_r.
Qed.

(** With a primitive default, the options of a rule are settled
    after one pass. *)
Lemma option_defaults_idem r r' :
  primitive (prop r "default_value") = true →
  option_defaults B r = Normal r' →
  option_defaults B r' = Normal r' ∧
  (r' = r ∨ ∃ v, r' = <["options" := v]> r).
Proof.
  intros Hp. unfold option_defaults.
  destruct (truthy (prop r "options")) eqn:Ht; simpl.
  - destruct (prop r "options") as [| | | |s|slots|] eqn:Ho; try discriminate.
    + destruct (String_includes B s _) eqn:Hi; simpl; [|discriminate].
      intros ?; simplify_eq. rewrite Ho. simpl in *. rewrite Ht. simpl.
      rewrite Hi. simpl. eauto.
    + destruct (array_includes slots _) eqn:Hi; simpl.
      * intros ?; simplify_eq. rewrite Ho. simpl. rewrite Hi. simpl. eauto.
      * intros ?; simplify_eq.
        rewrite prop_insert_eq, prop_insert_ne by done. simpl.
        rewrite array_includes_last by done. simpl. eauto.
  - intros ?; simplify_eq.
    rewrite prop_insert_eq, prop_insert_ne by done. simpl.
    rewrite SameValueZero_refl by done. simpl. eauto.
Qed.

(** The defaults of the kinds of a rule, applied to their result,
    leave it. *)
Lemma kinds_idem (int opt : bool) r r' :
  primitive (prop r "default_value") = true →
  (if opt then option_defaults B else Normal)
    (if int then integer_defaults B r else r) = Normal r' →
  (if opt then option_defaults B else Normal)
    (if int then integer_defaults B r' else r') = Normal r'.
Proof.
  intros Hp H. destruct opt, int.
  - apply option_defaults_idem in H as [H1 [-> | [v ->]]];
      rewrite ?integer_defaults_other by done; try done.
    + by rewrite integer_defaults_idem.
    + by rewrite integer_defaults_insert_options, integer_defaults_idem.
  - by apply option_defaults_idem in H as [H1 _].
  - simplify_eq. by rewrite integer_defaults_idem.
  - done.
Qed.

Lemma slurm_rule_idem name rule v' :
  categories_apart C →
  (∀ r, rule = VObj r → primitive (prop r "default_value") = true) →
  slurm_rule B C name rule = Normal (Some v') →
  slurm_rule B C name v' = Normal (Some v').
Proof.
  intros Hapart Hprim H. pose proof H as H'.
  apply slurm_rule_kept in H' as [[-> ->]|(r & r' & -> & -> & Hd & Hres)];
    [done|].
  pose proof (slurm_rule_default _ _ _ _ _ H) as Hdv.
  specialize (Hprim r eq_refl).
  unfold slurm_rule in H |- *.
  destruct (includes (slurm_configs C) name); simpl in *; [|discriminate].
  rewrite Hdv, Hd. rewrite Hd in H. simpl in *.
  destruct (includes (slurm_integer_none_unit_config C) name) eqn:Hnone.
  - destruct (Hapart name Hnone) as [-> ->]. simpl. subst r'.
    by rewrite insert_insert_eq.
  - assert (prop r' "unit" = prop r "unit") as ->.
    { destruct (includes (slurm_string_option_configs C) name),
               (includes (slurm_integer_configs C) name);
        first [ rewrite (option_defaults_other _ _ _ _ Hres) by done
              | simplify_eq ];
        rewrite ?integer_defaults_other by done; done. }
    destruct (includes (slurm_integer_time_unit_config C) name
              && unit_outside ["Minutes"; "Hours"; "Days"] (prop r "unit"));
      [discriminate|].
    destruct (includes (slurm_integer_storage_unit_config C) name
              && unit_outside ["GB"; "MB"] (prop r "unit"));
      [discriminate|].
    apply (kinds_idem (includes (slurm_integer_configs C) name)
             (includes (slurm_string_option_configs C) name)) in Hres;
      [|done].
    destruct (includes (slurm_string_option_configs C) name).
    + by rewrite Hres.
    + by rewrite Hres.
Qed.

Lemma param_rule_idem name rule v' :
  (∀ r, rule = VObj r → primitive (prop r "default_value") = true) →
  param_rule B name rule = Normal (Some v') →
  param_rule B name v' = Normal (Some v').
Proof.
  intros Hprim H. pose proof H as H'.
  apply param_rule_kept in H' as (r & r' & -> & -> & Hd & Hres).
  pose proof (param_rule_default _ _ _ _ H) as Hdv.
  specialize (Hprim r eq_refl).
  assert (prop r' "type" = prop r "type") as Hty.
  { destruct (is_string "string_option" (prop r "type")),
             (is_string "integer" (prop r "type"));
      first [ rewrite (option_defaults_other _ _ _ _ Hres) by done
            | simplify_eq ];
      rewrite ?integer_defaults_other by done; done. }
  unfold param_rule in H |- *.
  rewrite Hdv, Hd. rewrite Hd in H. simpl in *. rewrite Hty.
  destruct (includes_value _ _); simpl in *; [|discriminate].
  apply (kinds_idem (is_string "integer" (prop r "type"))
           (is_string "string_option" (prop r "type"))) in Hres; [|done].
  replace (prop (if is_string "integer" (prop r "type")
                 then integer_defaults B r' else r') "type")
    with (prop r "type").
  - destruct (is_string "string_option" (prop r "type")); by rewrite Hres.
  - destruct (is_string "integer" (prop r "type"));
      rewrite ?integer_defaults_other by done; done.
Qed.

End Idempotence.

(** ** The text of a result

    What [JSON.parse] reads back from the text of a validated
    manifest. *)

Lemma JSON_roundtrip_object o :
  JSON_roundtrip (VObj o) = VObj (omap written o).
Proof. reflexivity. Qed.

Lemma JSON_roundtrip_array slots :
  JSON_roundtrip (VArr slots) = VArr (map written_slot slots).
Proof. reflexivity. Qed.

Lemma written_JSON x : is_JSON x → written x = Some x.
Proof. intros [Hne Heq]. unfold written. rewrite Heq. by destruct x. Qed.

Lemma written_Some x : written x = Some x → is_JSON x.
Proof.
  unfold written, is_JSON. intros H.
  destruct x; try discriminate H; (split; [done|]); congruence.
Qed.

Lemma is_JSON_object o :
  is_JSON (VObj o) ↔ ∀ k x, o !! k = Some x → is_JSON x.
Proof.
  unfold is_JSON at 1. rewrite JSON_roundtrip_object. split.
  - intros [_ H] k x Hk. injection H as H.
    apply (f_equal (fun m => m !! k)) in H.
    rewrite lookup_omap, Hk in H. simpl in H. by eapply written_Some.
  - intros H. split; [done|]. f_equal. apply map_eq. intros k.
    rewrite lookup_omap. destruct (o !! k) as [x|] eqn:Hk; simpl; [|done].
    apply written_JSON. by eapply H.
Qed.

Lemma is_JSON_array slots :
  is_JSON (VArr slots) ↔ ∀ slot, slot ∈ slots → ∃ x, slot = Some x ∧ is_JSON x.
Proof.
  unfold is_JSON at 1. rewrite JSON_roundtrip_array. split.
  - intros [_ H] slot Hin. injection H as H.
    apply list_elem_of_lookup in Hin as [i Hi].
    apply (f_equal (fun l => l !! i)) in H.
    rewrite list_lookup_fmap, Hi in H. simpl in H.
    unfold written_slot in H. injection H as H.
    destruct slot as [x|]; [|discriminate].
    exists x. split; [done|].
    destruct x; try discriminate H; (split; [done|]); congruence.
  - intros H. split; [done|]. f_equal.
    induction slots as [|slot slots IH]; [done|]. simpl. f_equal.
    + destruct (H slot) as (x & -> & Hne & Heq); [left|].
      unfold written_slot. rewrite Heq. by destruct x.
    + apply IH. intros s Hs. apply H. by right.
Qed.

Lemma is_JSON_primitive v :
  primitive v = true → v ≠ VUndef → v ≠ VNum NaN → is_JSON v.
Proof. destruct v as [| | |[|q]| | |]; try done. Qed.

Lemma index_entries_elem i slots k x :
  (k, x) ∈ index_entries i slots → Some x ∈ slots.
Proof.
  revert i. induction slots as [|[y|] slots IH]; simpl; intros i H.
  - by apply elem_of_nil in H.
  - apply elem_of_cons in H as [H|H]; [simplify_eq; left | right; eauto].
  - right. eauto.
Qed.

Lemma own_props_JSON document k x :
  is_JSON document → own_props document !! k = Some x → is_JSON x.
Proof.
  intros HJ. destruct document as [| | | |s|slots|o]; simpl;
    try by rewrite lookup_empty.
  - intros H. apply elem_of_list_to_map_2, index_entries_elem in H.
    apply list_elem_of_fmap in H as (c & Hc & _). by simplify_eq.
  - intros H. apply elem_of_list_to_map_2, index_entries_elem in H.
    destruct (proj1 (is_JSON_array _) HJ _ H) as (y & ? & ?). by simplify_eq.
  - intros H. by eapply (proj1 (is_JSON_object _)).
Qed.

Lemma defaults_JSON address k x :
  defaults address !! k = Some x → x = VUndef ∨ is_JSON x.
Proof.
  intros H. apply elem_of_list_to_map_2 in H.
  repeat (apply elem_of_cons in H as [H|H];
          [simplify_eq; first [by left | right] | ]).
  all: try by apply elem_of_nil in H.
  all: try done.
  all: apply is_JSON_object; intros ? ?; by rewrite lookup_empty.
Qed.

Lemma merged_JSON document address k x :
  is_JSON document → merged document address !! k = Some x →
  x = VUndef ∨ is_JSON x.
Proof.
  intros HJ H. unfold merged, Object_assign in H.
  apply lookup_union_Some_raw in H as [H | [_ H]].
  - right. by eapply own_props_JSON.
  - by eapply defaults_JSON.
Qed.

Lemma index0_JSON v : is_JSON v → index0 v = VUndef ∨ is_JSON (index0 v).
Proof.
  intros HJ. destruct v as [| | | |s|slots|o]; simpl; try by left.
  - destruct s; [by left | by right].
  - destruct slots as [|[x|] slots]; try by left.
    right.
    destruct (proj1 (is_JSON_array _) HJ (Some x)) as (y & ? & ?); [left|].
    by simplify_eq.
  - unfold prop. destruct (o !! "0") as [x|] eqn:H; simpl; [|by left].
    right. by eapply (proj1 (is_JSON_object _)).
Qed.

Section Text.
Context (B : builtins) (C : catalog).

Lemma JSON_settled r : is_JSON (VObj r) → settled r.
Proof. intros H k x Hk. left. by eapply (proj1 (is_JSON_object _)). Qed.

Lemma settled_insert r k v :
  settled r → is_JSON v ∨ (k = "max" ∧ v = VNum NaN) →
  settled (<[k := v]> r).
Proof.
  intros Hr Hv k' x. rewrite lookup_insert. case_decide.
  - intros ?; simplify_eq. done.
  - apply Hr.
Qed.

Lemma settled_fill r k c :
  settled r → is_JSON c ∨ (k = "max" ∧ c = VNum NaN) → settled (fill k c r).
Proof. intros. unfold fill. case_match; [by apply settled_insert | done]. Qed.

Lemma integer_defaults_settled r :
  settled r → settled (integer_defaults B r).
Proof.
  intros H. rewrite integer_defaults_fill.
  repeat apply settled_fill; try done; try by left.
  destruct (num_mul _ _); [right | left]; done.
Qed.

Lemma settled_prop r k :
  settled r → k ≠ "max" → prop r k = VUndef ∨ is_JSON (prop r k).
Proof.
  intros H Hk. unfold prop. destruct (r !! k) as [x|] eqn:Hx; [|by left].
  right. simpl. destruct (H _ _ Hx) as [?|[? _]]; done.
Qed.

Lemma option_defaults_settled r r' :
  settled r → truthy (prop r "default_value") = true →
  option_defaults B r = Normal r' → settled r'.
Proof.
  intros Hr Hd H.
  assert (is_JSON (prop r "default_value")) as Hdv.
  { destruct (settled_prop r "default_value" Hr) as [Hu|?]; [done| |done].
    by rewrite Hu in Hd. }
  unfold option_defaults in H.
  destruct (truthy (prop r "options")) eqn:Ht; simpl in H.
  - destruct (prop r "options") as [| | | |s|slots|] eqn:Ho; try discriminate.
    + destruct (String_includes B s _); simpl in H; by simplify_eq.
    + destruct (array_includes slots _); simpl in H; simplify_eq; [done|].
      apply settled_insert; [done|]. left.
      destruct (settled_prop r "options" Hr) as [Hu|HJ]; [done|congruence|].
      rewrite Ho in HJ. apply is_JSON_array. intros slot Hs.
      apply elem_of_app in Hs as [Hs|Hs].
      * by apply (proj1 (is_JSON_array _) HJ).
      * apply list_elem_of_singleton in Hs as ->. by eexists.
  - simplify_eq. apply settled_insert; [done|]. left.
    apply is_JSON_array. intros slot Hs.
    apply list_elem_of_singleton in Hs as ->. by eexists.
Qed.

Lemma kinds_settled (int opt : bool) r r' :
  settled r → truthy (prop r "default_value") = true →
  (if opt then option_defaults B else Normal)
    (if int then integer_defaults B r else r) = Normal r' →
  settled r'.
Proof.
  intros Hr Hd H.
  assert (settled (if int then integer_defaults B r else r)) as H1.
  { destruct int; [by apply integer_defaults_settled | done]. }
  destruct opt; [|by simplify_eq].
  eapply option_defaults_settled; [exact H1| |exact H].
  destruct int; [by rewrite integer_defaults_other|done].
Qed.

Lemma slurm_rule_settled name r r' :
  settled r →
  slurm_rule B C name (VObj r) = Normal (Some (VObj r')) → settled r'.
Proof.
  intros Hr H.
  apply slurm_rule_kept in H as [[? _]|(r0 & r1 & ? & ? & Hd & H)];
    [discriminate|]. simplify_eq.
  destruct (includes (slurm_integer_none_unit_config C) name).
  - subst. apply settled_insert; [done | by left].
  - by eapply (kinds_settled (includes (slurm_integer_configs C) name)
                 (includes (slurm_string_option_configs C) name)).
Qed.

Lemma param_rule_settled name r r' :
  settled r →
  param_rule B name (VObj r) = Normal (Some (VObj r')) → settled r'.
Proof.
  intros Hr H.
  apply param_rule_kept in H as (r0 & r1 & ? & ? & Hd & H). simplify_eq.
  by eapply (kinds_settled (is_string "integer" (prop r0 "type"))
               (is_string "string_option" (prop r0 "type"))).
Qed.

(** The text of a settled rule parses to the rule, with [null] for a
    [max] that is [NaN]. *)
Lemma settled_written r : settled r → omap written r = null_for_NaN r.
Proof.
  intros Hr. apply map_eq. intros k. rewrite lookup_omap.
  unfold null_for_NaN, prop.
  destruct (decide (k = "max")) as [-> | Hk].
  - destruct (r !! "max") as [x|] eqn:Hx; simpl.
    + destruct (Hr _ _ Hx) as [HJ | [_ ->]].
      * rewrite (written_JSON _ HJ).
        destruct x as [| | |[|q]| | |]; try done.
        by destruct HJ as [_ ?].
      * by rewrite lookup_insert_eq.
    + by rewrite Hx.
  - assert (r !! k ≫= written = r !! k) as ->.
    { destruct (r !! k) as [x|] eqn:Hx; simpl; [|done].
      destruct (Hr _ _ Hx) as [HJ | [? _]]; [|done]. by apply written_JSON. }
    destruct (default VUndef (r !! "max")) as [| | |[|q]| | |]; try done.
    by rewrite lookup_insert_ne.
Qed.
End Text.

Section Reread.
Context (B : builtins) (C : catalog).

Lemma integer_defaults_null r :
  truthy (prop r "max") = false →
  integer_defaults B (<["max" := VNull]> r) = integer_defaults B r.
Proof.
  intros Hm. rewrite !integer_defaults_fill.
  rewrite prop_insert_ne by done. do 2 f_equal.
  unfold fill. rewrite prop_insert_eq, Hm. simpl.
  by rewrite insert_insert_eq.
Qed.

Lemma slurm_rule_null name r :
  truthy (prop r "max") = false →
  includes (slurm_integer_configs C) name = true →
  includes (slurm_integer_none_unit_config C) name = false →
  slurm_rule B C name (VObj (<["max" := VNull]> r))
  = slurm_rule B C name (VObj r).
Proof.
  intros Hm Hint Hnone. unfold slurm_rule.
  rewrite !prop_insert_ne by done. rewrite Hint, Hnone.
  by rewrite integer_defaults_null.
Qed.

Lemma param_rule_null name r :
  truthy (prop r "max") = false →
  is_string "integer" (prop r "type") = true →
  param_rule B name (VObj (<["max" := VNull]> r))
  = param_rule B name (VObj r).
Proof.
  intros Hm Hint. unfold param_rule.
  rewrite !prop_insert_ne by done. rewrite Hint.
  by rewrite integer_defaults_null.
Qed.

(** A field of a JSON rule is not [NaN]. *)
Lemma JSON_prop_not_NaN r k : is_JSON (VObj r) → prop r k ≠ VNum NaN.
Proof.
  intros HJ. unfold prop. destruct (r !! k) as [x|] eqn:Hx; [|done].
  simpl. intros ->.
  by destruct (proj1 (is_JSON_object _) HJ _ _ Hx) as [_ ?].
Qed.

Lemma slurm_rule_text name r r' :
  is_JSON (VObj r) →
  slurm_rule B C name (VObj r) = Normal (Some (VObj r')) →
  slurm_rule B C name (VObj r') = Normal (Some (VObj r')) →
  slurm_rule B C name (VObj (null_for_NaN r')) = Normal (Some (VObj r')).
Proof.
  intros HJ H Hidem. unfold null_for_NaN.
  destruct (prop r' "max") as [| | |[|q]| | |] eqn:Hmax; try done.
  apply slurm_rule_kept in H as [[? _]|(r0 & r1 & ? & ? & Hd & H)];
    [discriminate|]. simplify_eq.
  pose proof (JSON_prop_not_NaN r0 "max" HJ) as Hnot.
  destruct (includes (slurm_integer_none_unit_config C) name) eqn:Hnone.
  { subst. by rewrite prop_insert_ne in Hmax. }
  destruct (includes (slurm_integer_configs C) name) eqn:Hint.
  - rewrite slurm_rule_null; [done| |done|done]. by rewrite Hmax.
  - destruct (includes (slurm_string_option_configs C) name).
    + by rewrite (option_defaults_other _ _ _ _ H) in Hmax.
    + by simplify_eq.
Qed.

Lemma param_rule_text name r r' :
  is_JSON (VObj r) →
  param_rule B name (VObj r) = Normal (Some (VObj r')) →
  param_rule B name (VObj r') = Normal (Some (VObj r')) →
  param_rule B name (VObj (null_for_NaN r')) = Normal (Some (VObj r')).
Proof.
  intros HJ H Hidem. unfold null_for_NaN.
  destruct (prop r' "max") as [| | |[|q]| | |] eqn:Hmax; try done.
  pose proof H as H'.
  apply param_rule_kept in H as (r0 & r1 & ? & ? & Hd & H). simplify_eq.
  pose proof (JSON_prop_not_NaN r0 "max" HJ) as Hnot.
  assert (prop r1 "type" = prop r0 "type") as Hty.
  { destruct (is_string "string_option" (prop r0 "type")),
             (is_string "integer" (prop r0 "type"));
      first [ rewrite (option_defaults_other _ _ _ _ H) by done
            | simplify_eq ];
      rewrite ?integer_defaults_other by done; done. }
  destruct (is_string "integer" (prop r0 "type")) eqn:Hint.
  - rewrite param_rule_null; [done| |by rewrite Hty]. by rewrite Hmax.
  - destruct (is_string "string_option" (prop r0 "type")).
    + by rewrite (option_defaults_other _ _ _ _ H) in Hmax.
    + by simplify_eq.
Qed.

Lemma for_in_entries_total body l :
  (∀ k v, (k, v) ∈ l → ∃ v', body k v = Normal (Some v')) →
  ∃ l', for_in_entries body l = Normal l'.
Proof.
  induction l as [|[k v] l IH]; simpl; intros H; [by eexists|].
  destruct (H k v) as [v' ->]; [left|]. simpl.
  destruct IH as [l' ->]; [|by eexists].
  intros. apply H. by right.
Qed.

(** The loop over an object none of whose iterations deletes or
    throws. *)
Lemma for_in_object_onto body (o o' : gmap string value) :
  (∀ k, match o !! k with
        | Some v => ∃ v', o' !! k = Some v' ∧ body k v = Normal (Some v')
        | None => o' !! k = None
        end) →
  for_in body (VObj o) = Normal (VObj o').
Proof.
  intros H.
  destruct (for_in_entries_total body (map_to_list o)) as [l' Hl'].
  { intros k v Hin. apply elem_of_map_to_list in Hin.
    specialize (H k). rewrite Hin in H. destruct H as (v' & _ & ?). eauto. }
  assert (for_in body (VObj o) = Normal (VObj (list_to_map l'))) as Hf.
  { simpl. by rewrite Hl'. }
  rewrite Hf. do 2 f_equal.
  apply for_in_object in Hf as (o2 & Heq & Hiff). simplify_eq.
  apply map_eq. intros k. specialize (H k).
  destruct (o !! k) as [v|] eqn:Hk.
  - destruct H as (v' & Hv' & Hb). rewrite Hv'. apply Hiff. eauto.
  - rewrite H. destruct (list_to_map l' !! k) as [v'|] eqn:Hk'; [|done].
    apply Hiff in Hk' as (v & Hv & _). congruence.
Qed.
End Reread.

Section IdempotenceOfValidation.
Context (B : builtins) (C : catalog).

Lemma for_in_idem body mapping x :
  (∀ slots, mapping ≠ VArr slots) →
  (∀ rules k v v',
     mapping = VObj rules → rules !! k = Some v →
     body k v = Normal (Some v') → body k v' = Normal (Some v')) →
  for_in body mapping = Normal x →
  for_in body x = Normal x.
Proof.
  intros Harr Hbody H.
  destruct mapping as [| | | |s|slots|rules].
  1-4: by (simpl in H; simplify_eq).
  - simpl in H. destruct (String.eqb s "") eqn:Hs; [|discriminate].
    simplify_eq. simpl. by rewrite Hs.
  - by destruct (Harr slots).
  - apply for_in_object in H as (o' & -> & Hiff).
    apply for_in_object_fixed. intros k v' Hv'.
    apply Hiff in Hv' as (v & Hv & Hb). by eapply Hbody.
Qed.

Lemma defaults_keys address address' k :
  is_Some (defaults address' !! k) → is_Some (defaults address !! k).
Proof.
  assert (defaults address'
          = <["repository" := VStr address']> (defaults address)) as ->
    by reflexivity.
  destruct (decide (k = "repository")) as [-> | Hne].
  - intros _. by eexists.
  - by rewrite lookup_insert_ne.
Qed.

Lemma union_absorb (m d : gmap string value) :
  (∀ k, is_Some (d !! k) → is_Some (m !! k)) → m ∪ d = m.
Proof.
  intros H. apply map_eq. intros k. rewrite lookup_union.
  destruct (m !! k) eqn:Hm, (d !! k) eqn:Hd; simpl; try done.
  destruct (H k) as [? ?]; [by eexists | congruence].
Qed.

Lemma default_hpc_step_keys m k :
  is_Some (m !! k) → is_Some (default_hpc_step m !! k).
Proof.
  unfold default_hpc_step. case_match; [|done].
  intros. rewrite lookup_insert. case_decide; [by eexists | done].
Qed.

Lemma default_hpc_step_stable m m' :
  prop m' "default_hpc" = prop (default_hpc_step m) "default_hpc" →
  prop m' "supported_hpc" = prop m "supported_hpc" →
  is_Some (m' !! "default_hpc") →
  default_hpc_step m' = m'.
Proof.
  intros Hd Hs [v Hv]. unfold default_hpc_step in *.
  rewrite Hs.
  destruct (truthy (prop m "default_hpc")) eqn:Htd; simpl in *.
  - by rewrite Hd, Htd.
  - destruct (truthy (prop m "supported_hpc")) eqn:Hts; simpl in *.
    + rewrite prop_insert_eq in Hd.
      destruct (truthy (prop m' "default_hpc")); simpl; [done|].
      apply insert_id. rewrite <- Hd. rewrite Hv.
      by rewrite (prop_lookup _ _ _ Hv).
    + by rewrite andb_false_r.
Qed.

Lemma rules_text body mapping x :
  is_JSON mapping →
  (∀ slots, mapping ≠ VArr slots) →
  (∀ rules k v v',
     mapping = VObj rules → rules !! k = Some v →
     body k v = Normal (Some v') →
     ∃ r', v' = VObj r' ∧ settled r' ∧
           body k (VObj (null_for_NaN r')) = Normal (Some v')) →
  for_in body mapping = Normal x →
  written x = Some (JSON_roundtrip x) ∧
  for_in body (JSON_roundtrip x) = Normal x.
Proof.
  intros HJ Harr Hbody H.
  destruct mapping as [| |b|[|q]|s|slots|rules].
  1-5: by (simpl in H; simplify_eq; try by destruct HJ).
  - simpl in H. destruct (String.eqb s "") eqn:Hs; [|discriminate].
    simplify_eq. simpl. by rewrite Hs.
  - by destruct (Harr slots).
  - apply for_in_object in H as (o' & -> & Hiff). split; [done|].
    rewrite JSON_roundtrip_object. apply for_in_object_onto.
    intros k. rewrite lookup_omap.
    destruct (o' !! k) as [v'|] eqn:Hk; simpl; [|done].
    apply Hiff in Hk as (v & Hv & Hb).
    destruct (Hbody _ _ _ _ eq_refl Hv Hb) as (r' & -> & Hr' & Hb').
    simpl. rewrite <- (settled_written _ Hr') in Hb'. eauto.
Qed.

Lemma merged_field_JSON document address k :
  is_JSON document → is_Some (defaults address !! k) →
  prop (merged document address) k = VUndef
  ∨ is_JSON (prop (merged document address) k).
Proof.
  intros HJ [d Hd]. unfold prop.
  destruct (merged document address !! k) as [x|] eqn:Hx; simpl; [|by left].
  by eapply merged_JSON.
Qed.

(** What the text of the manifest keeps of it before the rules are
    looked at, over the defaults of another address. *)
Lemma before_rules_text document address address' k :
  is_JSON document →
  union_with (λ x _, Some x)
    (default_hpc_step (merged document address) !! k ≫= written)
    (defaults address' !! k)
  = default_hpc_step (merged document address) !! k.
Proof.
  intros HJ.
  assert (defaults address'
          = <["repository" := VStr address']> (defaults address)) as Hd'
    by reflexivity.
  assert (∀ x, merged document address !! k = Some x →
               is_JSON x ∨ x = VUndef ∧ defaults address' !! k = Some VUndef)
    as Hm.
  { intros x H. unfold merged, Object_assign in H.
    apply lookup_union_Some_raw in H as [H | [_ H]].
    - left. by eapply own_props_JSON.
    - destruct (defaults_JSON _ _ _ H) as [-> | ?]; [right|by left].
      split; [done|]. rewrite Hd'.
      destruct (decide (k = "repository")) as [-> | Hne]; [done|].
      by rewrite lookup_insert_ne. }
  assert (∀ x, default_hpc_step (merged document address) !! k = Some x →
               is_JSON x ∨ x = VUndef ∧ defaults address' !! k = Some VUndef)
    as Hs.
  { intros x. unfold default_hpc_step.
    destruct (negb _ && truthy (prop (merged document address)
                                  "supported_hpc")) eqn:Hc; [|apply Hm].
    rewrite lookup_insert. case_decide; [|apply Hm].
    intros ?; simplify_eq.
    apply andb_true_iff in Hc as [_ Hc].
    destruct (merged_field_JSON document address "supported_hpc" HJ)
      as [Hu|HJs]; [by eexists | by rewrite Hu in Hc |].
    destruct (index0_JSON _ HJs) as [-> | ?]; [by right | by left]. }
  destruct (default_hpc_step (merged document address) !! k) as [x|] eqn:Hx.
  - destruct (Hs x eq_refl) as [HJx | [-> ->]]; [|done].
    simpl. rewrite (written_JSON _ HJx). by destruct (defaults address' !! k).
  - simpl. destruct (defaults address' !! k) as [d|] eqn:Hd; [|done].
    destruct (default_hpc_step_keys (merged document address) k) as [y Hy];
      [|congruence].
    unfold merged, Object_assign. rewrite lookup_union.
    destruct (defaults_keys address address' k) as [z ->]; [by eexists|].
    by destruct (own_props document !! k).
Qed.

Lemma merged_rules_JSON document address key :
  is_JSON document →
  key = "slurm_input_rules" ∨ key = "param_rules" →
  is_JSON (prop (merged document address) key).
Proof.
  intros HJ Hkey. unfold prop, merged, Object_assign.
  rewrite lookup_union.
  destruct (own_props document !! key) as [x|] eqn:Hx.
  - apply (own_props_JSON _ _ _ HJ) in Hx.
    by destruct (defaults address !! key).
  - assert (defaults address !! key = Some (VObj ∅)) as ->
      by (by destruct Hkey as [-> | ->]).
    simpl. apply is_JSON_object. intros ? ?. by rewrite lookup_empty.
Qed.

(** The result of an accepted document, given again as the
    document, is its own result. *)
Lemma normalize_fixed document address address' manifest :
  normalize B C document address = Normal manifest →
  categories_apart C →
  plain_rules (prop (merged document address) "slurm_input_rules") →
  plain_rules (prop (merged document address) "param_rules") →
  normalize B C (VObj manifest) address' = Normal manifest.
Proof.
  intros H Hapart Hps Hpp.
  apply normalize_inv in H as (slurm & param & Hs & Hp & ->).
  set (m1 := default_hpc_step (merged document address)).
  set (manifest := <["param_rules" := param]>
                     (<["slurm_input_rules" := slurm]> m1)).
  assert (∀ k, is_Some (defaults address' !! k) → is_Some (manifest !! k))
    as Hkeys.
  { intros k Hk. apply (defaults_keys address) in Hk.
    unfold manifest. rewrite !lookup_insert. repeat case_decide; try done.
    apply default_hpc_step_keys. unfold merged, Object_assign.
    rewrite lookup_union. destruct Hk as [v ->].
    by destruct (own_props document !! k). }
  assert (manifest !! "slurm_input_rules" = Some slurm) as Hls.
  { unfold manifest. by rewrite lookup_insert_ne, lookup_insert_eq. }
  assert (manifest !! "param_rules" = Some param) as Hlp.
  { unfold manifest. by rewrite lookup_insert_eq. }
  assert (for_in (slurm_rule B C) slurm = Normal slurm) as Hs'.
  { apply (for_in_idem _ _ _) with (3 := Hs).
    - intros slots Heq. by rewrite Heq in Hps.
    - intros rules k v v' Heq Hv Hb. rewrite Heq in Hps.
      eapply slurm_rule_idem; [done| |done].
      intros r ->. by eapply Hps. }
  assert (for_in (param_rule B) param = Normal param) as Hp'.
  { apply (for_in_idem _ _ _) with (3 := Hp).
    - intros slots Heq. by rewrite Heq in Hpp.
    - intros rules k v v' Heq Hv Hb. rewrite Heq in Hpp.
      eapply param_rule_idem; [|done].
      intros r ->. by eapply Hpp. }
  unfold normalize, Object_assign. simpl own_props.
  rewrite (union_absorb _ _ Hkeys).
  rewrite (default_hpc_step_stable (merged document address) manifest).
  - rewrite (prop_lookup _ _ _ Hls), Hs'. simpl.
    rewrite (insert_id _ _ _ Hls).
    rewrite (prop_lookup _ _ _ Hlp), Hp'. simpl.
    by rewrite (insert_id _ _ _ Hlp).
  - unfold manifest. by rewrite !prop_insert_ne.
  - unfold manifest, m1. rewrite !prop_insert_ne by done.
    by rewrite default_hpc_step_other.
  - apply Hkeys. by eexists.
Qed.

(** The text of the result of an accepted JSON document, read back,
    has the result as its result. *)
Lemma normalize_text_fixed document address address' manifest :
  is_JSON document →
  normalize B C document address = Normal manifest →
  categories_apart C →
  plain_rules (prop (merged document address) "slurm_input_rules") →
  plain_rules (prop (merged document address) "param_rules") →
  normalize B C (JSON_roundtrip (VObj manifest)) address' = Normal manifest.
Proof.
  intros HJ H Hapart Hps Hpp.
  apply normalize_inv in H as (slurm & param & Hs & Hp & ->).
  set (m1 := default_hpc_step (merged document address)).
  pose proof (merged_rules_JSON document address "slurm_input_rules" HJ)
    as HJs.
  pose proof (merged_rules_JSON document address "param_rules" HJ) as HJp.
  destruct (rules_text (slurm_rule B C) _ slurm (HJs (or_introl eq_refl)))
    as [Hws Hs']; [| |exact Hs|].
  { intros slots Heq. by rewrite Heq in Hps. }
  { intros rules k v v' Heq Hv Hb. rewrite Heq in Hps, HJs.
    pose proof (proj1 (is_JSON_object _) (HJs (or_introl eq_refl)) _ _ Hv)
      as HJv.
    pose proof Hb as Hk.
    apply slurm_rule_kept in Hk as [[-> _]|(r & r' & -> & -> & _)];
      [by destruct HJv|].
    exists r'. split; [done|]. split.
    - eapply slurm_rule_settled; [|exact Hb]. by apply JSON_settled.
    - apply (slurm_rule_text B C k r r' HJv Hb).
      eapply slurm_rule_idem; [done| |exact Hb].
      intros r0 ?; simplify_eq. by eapply Hps. }
  destruct (rules_text (param_rule B) _ param (HJp (or_intror eq_refl)))
    as [Hwp Hp']; [| |exact Hp|].
  { intros slots Heq. by rewrite Heq in Hpp. }
  { intros rules k v v' Heq Hv Hb. rewrite Heq in Hpp, HJp.
    pose proof (proj1 (is_JSON_object _) (HJp (or_intror eq_refl)) _ _ Hv)
      as HJv.
    pose proof Hb as Hk.
    apply param_rule_kept in Hk as (r & r' & -> & -> & _).
    exists r'. split; [done|]. split.
    - eapply param_rule_settled; [|exact Hb]. by apply JSON_settled.
    - apply (param_rule_text B k r r' HJv Hb).
      eapply param_rule_idem; [|exact Hb].
      intros r0 ?; simplify_eq. by eapply Hpp. }
  set (text := <["param_rules" := JSON_roundtrip param]>
                 (<["slurm_input_rules" := JSON_roundtrip slurm]> m1)).
  assert (Object_assign (defaults address')
            (JSON_roundtrip
               (VObj (<["param_rules" := param]>
                        (<["slurm_input_rules" := slurm]> m1))))
          = text) as Hread.
  { rewrite JSON_roundtrip_object. unfold Object_assign. simpl own_props.
    apply map_eq. intros k. rewrite lookup_union, lookup_omap.
    unfold text. rewrite !lookup_insert.
    destruct (decide ("param_rules" = k)) as [<- | Hkp].
    { simpl. by rewrite Hwp. }
    destruct (decide ("slurm_input_rules" = k)) as [<- | Hks].
    { simpl. by rewrite Hws. }
    by apply before_rules_text. }
  assert (text !! "slurm_input_rules" = Some (JSON_roundtrip slurm)) as Hls.
  { unfold text. by rewrite lookup_insert_ne, lookup_insert_eq. }
  assert (text !! "param_rules" = Some (JSON_roundtrip param)) as Hlp.
  { unfold text. by rewrite lookup_insert_eq. }
  unfold normalize. rewrite Hread.
  rewrite (default_hpc_step_stable (merged document address) text).
  - rewrite (prop_lookup _ _ _ Hls), Hs'. simpl.
    rewrite prop_insert_ne by done.
    rewrite (prop_lookup _ _ _ Hlp), Hp'. simpl. f_equal.
    apply map_eq. intros k. unfold text. rewrite !lookup_insert.
    by repeat case_decide.
  - unfold text. by rewrite !prop_insert_ne.
  - unfold text, m1. rewrite !prop_insert_ne by done.
    by rewrite default_hpc_step_other.
  - unfold text. rewrite !lookup_insert_ne by done.
    apply default_hpc_step_keys. unfold merged, Object_assign.
    rewrite lookup_union.
    assert (defaults address !! "default_hpc" = Some VUndef) as -> by done.
    by destruct (own_props document !! "default_hpc").
Qed.


End IdempotenceOfValidation.

(** ** The pipeline: calls, traces and the cache *)

Local Open Scope list_scope.

Section PipelineProperties.
Context (B : builtins) (C : catalog) (E : collaborators).
Context (root_path : string).
Local Abbreviation W := (world E).

Lemma oblivious_ret {A} (a : A) : oblivious (mret a : io W A).
Proof. done. Qed.

Lemma oblivious_throw {A} e : oblivious (throw e : io W A).
Proof. done. Qed.

Lemma oblivious_lift {A} (c : completion A) : oblivious (lift c : io W A).
Proof. done. Qed.

Lemma oblivious_perform {A} (c : call A) : oblivious (perform E c).
Proof.
  intros cache s. unfold perform. simpl.
  by destruct (answer E c (st_world s)).
Qed.

Lemma oblivious_bind {A A'} (m : io W A) (f : A → io W A') :
  oblivious m → (∀ a, oblivious (f a)) → oblivious (m ≫= f).
Proof.
  intros Hm Hf cache s. unfold mbind, io_bind. rewrite Hm.
  destruct (m s) as [[a|e] s']; simpl; [apply Hf | done].
Qed.

Lemma oblivious_try_catch {A} (m : io W A) (h : exn → io W A) :
  oblivious m → (∀ e, oblivious (h e)) → oblivious (try_catch m h).
Proof.
  intros Hm Hh cache s. unfold try_catch. rewrite Hm.
  destruct (m s) as [[a|e] s']; simpl; [done | apply Hh].
Qed.

Lemma oblivious_cache {A} (m : io W A) s :
  oblivious m → st_cache (m s).2 = st_cache s.
Proof.
  intros Hm. specialize (Hm (st_cache s) s).
  assert (with_cache (st_cache s) s = s) as Heq by by destruct s.
  rewrite Heq in Hm. destruct (m s) as [r s']. simpl in *.
  by inversion Hm as [Hs]; rewrite Hs at 1.
Qed.

Lemma bind_run {A A'} (m : io W A) (k : A → io W A') s :
  (m ≫= k) s =
    match m s with
    | (Normal a, s') => k a s'
    | (Throw e, s') => (Throw e, s')
    end.
Proof. reflexivity. Qed.

Lemma bind_run_oblivious {A A'} (m : io W A) (k : A → io W A') cache s :
  oblivious m →
  (m ≫= k) (with_cache cache s) =
    match m s with
    | (Normal a, s') => k a (with_cache cache s')
    | (Throw e, s') => (Throw e, with_cache cache s')
    end.
Proof.
  intros Hm. rewrite bind_run, Hm. by destruct (m s) as [[a|e] s'].
Qed.

Ltac oblivious :=
  repeat first
    [ apply oblivious_perform | apply oblivious_ret | apply oblivious_throw
    | apply oblivious_lift | apply oblivious_bind | apply oblivious_try_catch
    | match goal with
      | |- ∀ _, _ => intros ?
      | |- oblivious (match ?x with _ => _ end) => destruct x
      | |- oblivious (if ?x then _ else _) => destruct x
      | |- oblivious (let _ := _ in _) => cbv zeta
      end ].

Lemma deleteAndPull_oblivious git : oblivious (deleteAndPull E root_path git).
Proof. unfold deleteAndPull. oblivious. Qed.

Lemma outOfDate_oblivious git : oblivious (outOfDate E root_path git).
Proof. unfold outOfDate. oblivious. Qed.

Lemma refreshGit_oblivious git : oblivious (refreshGit E root_path git).
Proof.
  unfold refreshGit.
  pose proof (deleteAndPull_oblivious git).
  pose proof (outOfDate_oblivious git).
  oblivious; done.
Qed.

(** The block [try { read } catch { deleteAndPull; read }]. *)
Lemma read_block_oblivious git path :
  oblivious
    (try_catch (perform E (fs_readFile path))
       (fun _ => deleteAndPull E root_path git;;
                 perform E (fs_readFile path))).
Proof. pose proof (deleteAndPull_oblivious git). oblivious; done. Qed.

Ltac run H :=
  unfold mbind, io_bind, mret, io_ret, perform, try_catch, throw, lift in H;
  simpl in H;
  repeat match type of H with
    | context [answer ?E' ?c ?w] =>
        destruct (answer E' c w) as [[?|?] ?] eqn:?; simpl in H
    | context [match pinned ?g with _ => _ end] =>
        destruct (pinned g) eqn:?; simpl in H
    | context [match defaultBranch ?g with _ => _ end] =>
        destruct (defaultBranch g) eqn:?; simpl in H
    end.

Ltac trace_done :=
  simplify_eq; simpl; rewrite <- ?app_assoc; simpl;
  eexists; split; [reflexivity | split; reflexivity].

Lemma deleteAndPull_one_destroy git :
  one_destroy (deleteAndPull E root_path git).
Proof.
  intros s r s' H. unfold deleteAndPull in H. run H; trace_done.
Qed.

Lemma deleteAndPullManifest_one_destroy git :
  one_destroy (deleteAndPullManifest E root_path git).
Proof.
  intros s r s' H. unfold deleteAndPullManifest, getDefaultBranch in H.
  run H; trace_done.
Qed.

(** The block [try { read } catch { recreate; read }], followed by
    code that makes no call, when the first read fails. *)
Lemma recovery_block {A} (recreate : io W unit) (k : string → io W A)
    path s1 e1 w1 r s' :
  one_destroy recreate →
  (∀ raw s r s', k raw s = (r, s') → st_trace s' = st_trace s) →
  answer E (fs_readFile path) (st_world s1) = (Throw e1, w1) →
  (try_catch (perform E (fs_readFile path))
     (fun _ => recreate;; perform E (fs_readFile path)) ≫= k) s1 = (r, s') →
  ∃ t,
    st_trace s' = st_trace s1 ++ Called (fs_readFile path) :: t ∧
    count is_destroy t = 1%nat ∧
    (count is_read t ≤ 1)%nat ∧
    ∀ s3, recreate (called (fs_readFile path) w1 s1) = (Normal tt, s3) →
      st_trace s' = st_trace s3 ++ [Called (fs_readFile path)] ∧
      count is_read t = 1%nat ∧
      ∀ e2 w4,
        answer E (fs_readFile path) (st_world s3) = (Throw e2, w4) →
        r = Throw e2 ∧ s' = called (fs_readFile path) w4 s3.
Proof.
  intros Hrec Hk Hread H.
  unfold mbind, io_bind, try_catch, perform in H. rewrite Hread in H.
  destruct (recreate (called (fs_readFile path) w1 s1)) as [[[]|e] s3] eqn:Hr;
    destruct (Hrec _ _ _ Hr) as (t3 & Ht3 & Hd3 & Hr3).
  - assert (st_trace s' = st_trace s3 ++ [Called (fs_readFile path)] ∧
            ∀ e2 w4,
              answer E (fs_readFile path) (st_world s3) = (Throw e2, w4) →
              r = Throw e2 ∧ s' = called (fs_readFile path) w4 s3)
      as [Htr Hfail].
    { destruct (answer E (fs_readFile path) (st_world s3)) as [[raw|e2] w4].
      - rewrite (Hk _ _ _ _ H). split; [done|]. intros; simplify_eq.
      - simplify_eq. split; [done|]. intros; by simplify_eq. }
    exists (t3 ++ [Called (fs_readFile path)]).
    assert (count is_read (t3 ++ [Called (fs_readFile path)]) = 1%nat) as Hc.
    { unfold count in *. rewrite List.filter_app, length_app, Hr3. done. }
    split; [|split; [|split]].
    + rewrite Htr, Ht3. simpl. by rewrite <- !app_assoc.
    + unfold count in *. rewrite List.filter_app, length_app, Hd3. done.
    + lia.
    + intros s3' ?; simplify_eq. done.
  - simplify_eq. exists t3.
    split; [|split; [|split]].
    + rewrite Ht3. simpl. by rewrite <- !app_assoc.
    + done.
    + lia.
    + intros; simplify_eq.
Qed.

Lemma monotone_ret {A} (a : A) : monotone (mret a : io W A).
Proof. intros s. exists []. by rewrite app_nil_r. Qed.

Lemma monotone_perform {A} (c : call A) : monotone (perform E c).
Proof.
  intros s. unfold perform. destruct (answer E c (st_world s)). by eexists.
Qed.

Lemma monotone_bind {A A'} (m : io W A) (f : A → io W A') :
  monotone m → (∀ a, monotone (f a)) → monotone (m ≫= f).
Proof.
  intros Hm Hf s. rewrite bind_run. destruct (Hm s) as [t Ht].
  destruct (m s) as [[a|e] s1]; simpl in *.
  - destruct (Hf a s1) as [t' Ht']. exists (t ++ t').
    by rewrite Ht', Ht, app_assoc.
  - by exists t.
Qed.

Lemma monotone_try_catch {A} (m : io W A) (h : exn → io W A) :
  monotone m → (∀ e, monotone (h e)) → monotone (try_catch m h).
Proof.
  intros Hm Hh s. unfold try_catch. destruct (Hm s) as [t Ht].
  destruct (m s) as [[a|e] s1]; simpl in *.
  - by exists t.
  - destruct (Hh e s1) as [t' Ht']. exists (t ++ t').
    by rewrite Ht', Ht, app_assoc.
Qed.

Ltac monotone :=
  repeat first
    [ apply monotone_perform | apply monotone_ret
    | apply monotone_bind | apply monotone_try_catch
    | match goal with
      | |- ∀ _, _ => intros ?
      | |- monotone (match ?x with _ => _ end) => destruct x
      | |- monotone (if ?x then _ else _) => destruct x
      | |- monotone (let _ := _ in _) => cbv zeta
      end ].

Lemma deleteAndPullManifest_monotone git :
  monotone (deleteAndPullManifest E root_path git).
Proof. unfold deleteAndPullManifest, getDefaultBranch. monotone. Qed.

(** A block [try { call } catch { handler }] and what follows it
    start with the call. *)
Lemma first_call {A A'} (c : call A) (h : exn → io W A)
    (k : A → io W A') s :
  (∀ e, monotone (h e)) → (∀ a, monotone (k a)) →
  ∃ t, st_trace ((try_catch (perform E c) h ≫= k) s).2
       = st_trace s ++ Called c :: t.
Proof.
  intros Hh Hk.
  destruct (monotone_bind (try_catch (perform E c) h) k) with
    (s := s) as [t Ht].
  - apply monotone_try_catch; [apply monotone_perform | done].
  - done.
  - rewrite bind_run in *. unfold try_catch, perform in *.
    destruct (answer E c (st_world s)) as [[a|e] w].
    + destruct (Hk a (called c w s)) as [t' Ht']. exists t'.
      rewrite Ht'. simpl. by rewrite <- app_assoc.
    + destruct (Hh e (called c w s)) as [t1 Ht1].
      destruct (h e (called c w s)) as [[a|e'] s1]; simpl in *.
      * destruct (Hk a s1) as [t2 Ht2]. exists (t1 ++ t2).
        rewrite Ht2, Ht1. by rewrite <- !app_assoc.
      * exists t1. rewrite Ht1. by rewrite <- !app_assoc.
Qed.

(** ** C4: one recovery, one retry *)

(** The code of both [getExecutableManifest] after the read: no
    call. *)
Lemma after_read_no_call (id address : string) raw (s : state W) r s' :
  (result ← lift (processExecutableManifest B C raw address);
   write_cache id result;; mret result) s = (r, s') →
  st_trace s' = st_trace s.
Proof.
  unfold mbind, io_bind, lift, write_cache, mret, io_ret.
  destruct (processExecutableManifest B C raw address); simpl;
    intros; by simplify_eq.
Qed.

Lemma getExecutableManifest_miss git s0 refreshed s1 :
  refreshGit E root_path git s0 = (Normal refreshed, s1) →
  (refreshed = false → st_cache s1 !! Git.id git = None) →
  getExecutableManifest B C E root_path git s0 =
    (try_catch
       (perform E (fs_readFile
          (path_join (getLocalPath root_path (Git.id git)) "manifest.json")))
       (fun _ =>
          deleteAndPull E root_path git;;
          perform E (fs_readFile
            (path_join (getLocalPath root_path (Git.id git))
               "manifest.json")))
     ≫= (fun raw =>
           result ← lift (processExecutableManifest B C raw
                            (Git.address git));
           write_cache (Git.id git) result;; mret result)) s1.
Proof.
  intros Hr Hmiss. unfold getExecutableManifest.
  unfold mbind at 1. unfold io_bind at 1. rewrite Hr.
  destruct refreshed; simpl.
  - reflexivity.
  - unfold mbind at 1. unfold io_bind at 1. simpl.
    by rewrite (Hmiss eq_refl).
Qed.


(** ** C8 and C10: the cache *)

(** A manifest that [getExecutableManifest] returns is the entry of
    the cache afterwards. *)
Lemma result_cached git s0 manifest s1 :
  getExecutableManifest B C E root_path git s0 = (Normal manifest, s1) →
  st_cache s1 !! Git.id git = Some manifest.
Proof.
  unfold getExecutableManifest.
  unfold mbind at 1. unfold io_bind at 1.
  destruct (refreshGit E root_path git s0) as [[refreshed|e] s] eqn:Hr;
    [|discriminate].
  unfold mbind at 1. unfold io_bind at 1.
  assert (∀ r s',
    (rawExecutableManifest ←
       try_catch
         (perform E (fs_readFile
            (path_join (getLocalPath root_path (Git.id git))
               "manifest.json")))
         (fun _ =>
            deleteAndPull E root_path git;;
            perform E (fs_readFile
              (path_join (getLocalPath root_path (Git.id git))
                 "manifest.json")));
     result ← lift (processExecutableManifest B C rawExecutableManifest
                      (Git.address git));
     write_cache (Git.id git) result;; mret result) s
      = (Normal r, s') → st_cache s' !! Git.id git = Some r) as Hmiss.
  { intros r s'. unfold mbind at 1. unfold io_bind at 1.
    destruct (try_catch _ _ s) as [[raw|e] s2]; [|discriminate].
    unfold mbind, io_bind, lift, write_cache, mret, io_ret.
    destruct (processExecutableManifest B C raw (Git.address git));
      [|discriminate].
    intros; simplify_eq. simpl. apply lookup_insert_eq. }
  destruct refreshed; simpl.
  - apply Hmiss.
  - destruct (st_cache s !! Git.id git) as [m|] eqn:Hc.
    + unfold mret, io_ret. intros; by simplify_eq.
    + apply Hmiss.
Qed.

(** A call that finds the mirror fresh returns the entry of the
    cache, if there is one, and does nothing more. *)
Lemma fresh_returns_cached git s2 s3 manifest :
  refreshGit E root_path git s2 = (Normal false, s3) →
  st_cache s2 !! Git.id git = Some manifest →
  getExecutableManifest B C E root_path git s2 = (Normal manifest, s3).
Proof.
  intros Hr Hc. unfold getExecutableManifest.
  unfold mbind at 1. unfold io_bind at 1. rewrite Hr. simpl.
  unfold mbind at 1. unfold io_bind at 1. simpl.
  pose proof (oblivious_cache _ s2 (refreshGit_oblivious git)) as Hcache.
  rewrite Hr in Hcache. simpl in Hcache. by rewrite Hcache, Hc.
Qed.

(** C8.  For a repository without a pinned revision: after a call
    that returned a manifest, a second call, made with the cache the
    first one left, that finds the mirror present and the fetched
    head equal to the revision of the mirror, makes four calls
    (removal of a left-over archive, existence test, fetch, log),
    none of which changes the mirror, leaves the cache as it is and
    returns the manifest of the first call.  And the cache is read
    only after a refresh that answered that nothing was to be done:
    when the refresh answers that it refreshed, the call does the
    same, with the same result, whatever the cache holds. *)
Theorem cache_reuse git :
  pinned git = None →
  (∀ s0 manifest s1 s2 wa wb wc wd fetched head commit rest,
     let localPath := getLocalPath root_path (Git.id git) in
     getExecutableManifest B C E root_path git s0 = (Normal manifest, s1) →
     st_cache s2 = st_cache s1 →
     answer E (FolderUtil_removeZip localPath) (st_world s2)
       = (Normal tt, wa) →
     answer E (fs_existsSync localPath) wa = (Normal true, wb) →
     answer E (git_fetch localPath (Git.address git)) wb
       = (Normal fetched, wc) →
     fetchHead fetched = Some head →
     answer E (git_log localPath) wc = (Normal (commit :: rest), wd) →
     oid commit = head →
     ∃ s3,
       getExecutableManifest B C E root_path git s2 = (Normal manifest, s3) ∧
       st_world s3 = wd ∧
       st_cache s3 = st_cache s2 ∧
       st_trace s3 =
         st_trace s2 ++
           [Called (FolderUtil_removeZip localPath);
            Called (fs_existsSync localPath);
            Called (git_fetch localPath (Git.address git));
            Called (git_log localPath)] ∧
       count is_mutation
         [Called (FolderUtil_removeZip localPath);
          Called (fs_existsSync localPath);
          Called (git_fetch localPath (Git.address git));
          Called (git_log localPath)] = 0%nat) ∧
  (∀ s s1 cache,
     refreshGit E root_path git s = (Normal true, s1) →
     (getExecutableManifest B C E root_path git (with_cache cache s)).1
       = (getExecutableManifest B C E root_path git s).1 ∧
     st_world (getExecutableManifest B C E root_path git
                 (with_cache cache s)).2
       = st_world (getExecutableManifest B C E root_path git s).2 ∧
     st_trace (getExecutableManifest B C E root_path git
                 (with_cache cache s)).2
       = st_trace (getExecutableManifest B C E root_path git s).2).
Proof.
  intros Hpin. split.
  - intros s0 manifest s1 s2 wa wb wc wd fetched head commit rest localPath
      H1 Hcache Ha Hb Hc Hhead Hd Hoid.
    apply result_cached in H1. rewrite <- Hcache in H1.
    assert (refreshGit E root_path git s2 =
              (Normal false,
               called (git_log localPath) wd
                 (called (git_fetch localPath (Git.address git)) wc
                    (called (fs_existsSync localPath) wb
                       (called (FolderUtil_removeZip localPath) wa s2)))))
      as Hr.
    { unfold refreshGit, outOfDate, mbind, io_bind, perform, mret, io_ret.
      fold localPath. simpl. rewrite Ha. simpl. rewrite Hb. simpl.
      rewrite Hc. simpl. rewrite Hhead. simpl. rewrite Hd. simpl.
      rewrite Hpin, Hoid. by rewrite String.eqb_refl. }
    eexists. split; [by apply fresh_returns_cached|].
    simpl. rewrite <- !app_assoc. done.
  - intros s s1 cache Hr.
    assert (refreshGit E root_path git (with_cache cache s)
            = (Normal true, with_cache cache s1)) as Hr'.
    { by rewrite (refreshGit_oblivious git cache s), Hr. }
    rewrite (getExecutableManifest_miss _ _ _ _ Hr) by done.
    rewrite (getExecutableManifest_miss _ _ _ _ Hr') by done.
    rewrite bind_run_oblivious by apply read_block_oblivious.
    rewrite (bind_run _ _ s1).
    destruct (try_catch _ _ s1) as [[raw|e] s2]; simpl; [|done].
    unfold mbind, io_bind, lift, write_cache, mret, io_ret.
    by destruct (processExecutableManifest B C raw (Git.address git)).
Qed.

(** C10.  A call of [getExecutableManifest] that ends in an exception
    leaves the cache as it found it.  In particular, when the mirror
    was refreshed, the file read, and parsing or normalising its text
    throws, that exception is the result of the call and the cache is
    not written; an entry that was cached for the repository is then
    still the one that a later call returns when it finds the mirror
    fresh. *)
Theorem failure_keeps_cache git s0 :
  (∀ e s', getExecutableManifest B C E root_path git s0 = (Throw e, s') →
           st_cache s' = st_cache s0) ∧
  (∀ s1 raw w e,
     refreshGit E root_path git s0 = (Normal true, s1) →
     answer E
       (fs_readFile
          (path_join (getLocalPath root_path (Git.id git)) "manifest.json"))
       (st_world s1) = (Normal raw, w) →
     processExecutableManifest B C raw (Git.address git) = Throw e →
     ∃ s',
       getExecutableManifest B C E root_path git s0 = (Throw e, s') ∧
       st_cache s' = st_cache s0 ∧
       ∀ manifest s2 s3,
         st_cache s0 !! Git.id git = Some manifest →
         st_cache s2 = st_cache s' →
         refreshGit E root_path git s2 = (Normal false, s3) →
         getExecutableManifest B C E root_path git s2
           = (Normal manifest, s3)).
Proof.
  assert (∀ e s', getExecutableManifest B C E root_path git s0 = (Throw e, s')
                  → st_cache s' = st_cache s0) as Hfail.
  { intros e s' H.
    pose proof (oblivious_cache _ s0 (refreshGit_oblivious git)) as Hc0.
    destruct (refreshGit E root_path git s0) as [[refreshed|e0] s1] eqn:Hr;
      simpl in Hc0.
    - assert (∀ s'',
        (try_catch
           (perform E (fs_readFile
              (path_join (getLocalPath root_path (Git.id git))
                 "manifest.json")))
           (fun _ =>
              deleteAndPull E root_path git;;
              perform E (fs_readFile
                (path_join (getLocalPath root_path (Git.id git))
                   "manifest.json")))
         ≫= (fun raw =>
               result ← lift (processExecutableManifest B C raw
                                (Git.address git));
               write_cache (Git.id git) result;; mret result)) s1
          = (Throw e, s'') → st_cache s'' = st_cache s0) as Hmiss.
      { intros s''. rewrite bind_run.
        pose proof (oblivious_cache _ s1 (read_block_oblivious git
          (path_join (getLocalPath root_path (Git.id git)) "manifest.json")))
          as Hc1.
        destruct (try_catch _ _ s1) as [[raw|e1] s2]; simpl in Hc1.
        - unfold mbind, io_bind, lift, write_cache, mret, io_ret.
          destruct (processExecutableManifest B C raw (Git.address git));
            intros; simplify_eq. congruence.
        - intros; simplify_eq. congruence. }
      destruct refreshed.
      + rewrite (getExecutableManifest_miss _ _ _ _ Hr) in H by done.
        by apply Hmiss.
      + destruct (st_cache s1 !! Git.id git) as [m|] eqn:Hc.
        * rewrite (fresh_returns_cached git s0 s1 m Hr) in H;
            [discriminate | congruence].
        * rewrite (getExecutableManifest_miss _ _ _ _ Hr) in H by done.
          by apply Hmiss.
    - unfold getExecutableManifest in H. rewrite bind_run, Hr in H.
      by simplify_eq. }
  split; [exact Hfail|].
  intros s1 raw w e Hr Hread Hparse.
  assert (getExecutableManifest B C E root_path git s0
          = (Throw e,
             called (fs_readFile
               (path_join (getLocalPath root_path (Git.id git))
                  "manifest.json")) w s1)) as Hcall.
  { rewrite (getExecutableManifest_miss _ _ _ _ Hr) by done.
    rewrite bind_run. unfold try_catch, perform. rewrite Hread.
    unfold mbind, io_bind, lift. by rewrite Hparse. }
  eexists. split; [exact Hcall|]. split; [by eapply Hfail|].
  intros manifest s2 s3 Hm Hc2 Hfresh.
  apply fresh_returns_cached; [done|].
  rewrite Hc2. by rewrite (Hfail _ _ Hcall).
Qed.

(** ** C1 and C9: the behaviour that departs from the spec *)

(** C1, what the code does.  For a repository with a pinned revision,
    whenever the staleness check of the full mirror completes it
    answers stale: also when the mirror stands at the pinned
    revision and the remote has a head. *)
Theorem pinned_always_stale git sha s stale s' :
  pinned git = Some sha →
  outOfDate E root_path git s = (Normal stale, s') →
  stale = true.
Proof.
  intros Hpin H. unfold outOfDate in H. rewrite Hpin in H.
  rewrite bind_run in H.
  destruct (perform E _ s) as [[remote|e] s1]; [|discriminate].
  destruct (fetchHead remote) as [fetched|].
  - rewrite bind_run in H.
    destruct (perform E _ s1) as [[[|commit rest]|e] s2]; try discriminate.
    unfold mret, io_ret in H. simplify_eq.
    destruct (String.eqb_spec (oid commit) sha) as [-> | Hne]; [done|].
    simpl. apply negb_true_iff. apply String.eqb_neq. congruence.
  - unfold mret, io_ret in H. by simplify_eq.
Qed.

Lemma deleteAndPull_no_record git s r s' :
  deleteAndPull E root_path git s = (r, s') →
  ∃ t, st_trace s' = st_trace s ++ t ∧ count is_record t = 0%nat.
Proof.
  intros H. unfold deleteAndPull in H. run H;
    simplify_eq; simpl; rewrite <- ?app_assoc; simpl;
    eexists; split; reflexivity.
Qed.

(** C9, what the code does.  A refresh of the full mirror that finds
    no local directory clones (and checks out the pinned revision)
    and returns at once: whatever comes of the clone, no timestamp is
    recorded; when the clone completes, the refresh answers that it
    refreshed, in the state the clone left. *)
Theorem refresh_from_missing_records_nothing git s wa wb r s' :
  let localPath := getLocalPath root_path (Git.id git) in
  answer E (FolderUtil_removeZip localPath) (st_world s) = (Normal tt, wa) →
  answer E (fs_existsSync localPath) wa = (Normal false, wb) →
  refreshGit E root_path git s = (r, s') →
  (∃ t, st_trace s' = st_trace s ++ t ∧ count is_record t = 0%nat) ∧
  (∀ s3,
     deleteAndPull E root_path git
       (called (fs_existsSync localPath) wb
          (called (FolderUtil_removeZip localPath) wa s)) = (Normal tt, s3) →
     r = Normal true ∧ s' = s3).
Proof.
  intros localPath Ha Hb H.
  unfold refreshGit in H. fold localPath in H.
  rewrite bind_run in H. unfold perform at 1 in H. rewrite Ha in H.
  rewrite bind_run in H. unfold perform at 1 in H. simpl in H.
  rewrite Hb in H. simpl in H.
  rewrite bind_run in H.
  destruct (deleteAndPull E root_path git _) as [[[]|e] s3] eqn:Hd;
    unfold mret, io_ret in H; simplify_eq;
    destruct (deleteAndPull_no_record _ _ _ _ Hd) as (t & Ht & Hc);
    simpl in Ht; rewrite <- !app_assoc in Ht; simpl in Ht.
  - split; [|by intros; simplify_eq].
    eexists. split; [exact Ht|]. exact Hc.
  - split; [|by intros; simplify_eq].
    eexists. split; [exact Ht|]. exact Hc.
Qed.

(** ** C5: the manifest-only mirror *)

Lemma manifestStale_elapsed now ms :
  manifestStale now (DateAt ms) = true ↔ (120 * 1000 < now - ms)%Z.
Proof.
  unfold manifestStale, secsSinceUpdate.
  rewrite negb_true_iff, <- not_true_iff_false, Qle_bool_iff.
  unfold Qle, Qdiv, Qmult, Qinv, inject_Z. simpl. lia.
Qed.

(** C5.  The staleness of a manifest-only mirror is decided by the
    clock alone.  With a last update at [ms] milliseconds, the mirror
    is stale exactly when more than 120 seconds have passed.  Without
    one (the column is absent or null) the seconds are a large
    number and, for a clock after the epoch, the mirror is stale.
    150 seconds after the last update it is stale, 30 seconds after
    it is fresh.  And [refreshGitManifest] follows that decision: on
    a present mirror, when fresh it makes no call after reading the
    clock; when stale its next call is the download. *)
Theorem manifest_staleness_by_time :
  (∀ now ms,
     manifestStale now (DateAt ms) = true ↔ (120 * 1000 < now - ms)%Z) ∧
  (∀ now, (0 ≤ now)%Z →
     (999 <= secsSinceUpdate now DateUndefined)%Q ∧
     (999 <= secsSinceUpdate now DateNull)%Q ∧
     manifestStale now DateUndefined = true ∧
     manifestStale now DateNull = true) ∧
  (∀ ms,
     manifestStale (ms + 150 * 1000) (DateAt ms) = true ∧
     manifestStale (ms + 30 * 1000) (DateAt ms) = false) ∧
  (∀ git s wa wb now,
     let localPath := getLocalManifestPath root_path (Git.id git) in
     answer E (fs_existsSync localPath) (st_world s) = (Normal true, wa) →
     answer E new_Date wa = (Normal now, wb) →
     (manifestStale now (Git.updatedAt git) = false →
      refreshGitManifest E root_path git s
        = (Normal tt,
           called new_Date wb (called (fs_existsSync localPath) wa s))) ∧
     (manifestStale now (Git.updatedAt git) = true →
      ∃ url t,
        st_trace (refreshGitManifest E root_path git s).2
          = st_trace s ++
              Called (fs_existsSync localPath) :: Called new_Date ::
              Called (child_process_exec (wget localPath url)) :: t)).
Proof.
  split; [exact manifestStale_elapsed|].
  split; [|split].
  - intros now Hnow. unfold manifestStale, secsSinceUpdate.
    split; [|split; [|split]].
    + unfold Qle, Qdiv, Qmult, Qinv, inject_Z. simpl. lia.
    + unfold Qle. simpl. lia.
    + rewrite negb_true_iff, <- not_true_iff_false, Qle_bool_iff.
      unfold Qle, Qdiv, Qmult, Qinv, inject_Z. simpl. lia.
    + done.
  - intros ms. split.
    + apply manifestStale_elapsed. lia.
    + apply not_true_iff_false. rewrite manifestStale_elapsed. lia.
  - intros git s wa wb now localPath Ha Hb. split.
    + intros Hfresh. unfold refreshGitManifest. fold localPath.
      rewrite bind_run. unfold perform at 1. rewrite Ha. simpl.
      rewrite bind_run. unfold mret at 1, io_ret at 1.
      rewrite bind_run. unfold perform at 1. simpl. rewrite Hb.
      by rewrite Hfresh.
    + intros Hstale. unfold refreshGitManifest. fold localPath.
      rewrite bind_run. unfold perform at 1. rewrite Ha. simpl.
      rewrite bind_run. unfold mret at 1, io_ret at 1.
      rewrite bind_run. unfold perform at 1. simpl. rewrite Hb.
      rewrite Hstale.
      pose proof (deleteAndPullManifest_monotone git) as Hrec.
      destruct (pinned git) as [sha|].
      * exists (getManifestUrl git sha).
        match goal with
        | |- context [(try_catch (perform E ?c) ?h ≫= ?k) ?s2] =>
            destruct (first_call c h k s2) as [t Ht]
        end.
        -- intros _. exact Hrec.
        -- intros _. monotone.
        -- rewrite Ht. simpl. rewrite <- !app_assoc. simpl. eauto.
      * exists (getManifestUrl git "main").
        match goal with
        | |- context [(try_catch (perform E ?c) ?h ≫= ?k) ?s2] =>
            destruct (first_call c h k s2) as [t Ht]
        end.
        -- intros _. exact Hrec.
        -- intros _. monotone.
        -- rewrite Ht. simpl. rewrite <- !app_assoc. simpl. eauto.
Qed.

End PipelineProperties.

(** ** The pipeline on the sample worlds *)

(** C1 at its failing input: the mirror stands at the pinned revision
    [abc], the remote has a head, and the check answers stale. *)
Lemma pinned_always_stale_witness :
  pinned sample_pinned_git = Some "abc" ∧
  (outOfDate sample_collaborators sample_root sample_pinned_git
     (start world_at_pinned ∅)).1 = Normal true.
Proof.
  split; [reflexivity|].
  destruct (outOfDate sample_collaborators sample_root sample_pinned_git
              (start world_at_pinned ∅)) as [[stale|e] s'] eqn:H.
  - simpl. f_equal.
    exact (pinned_always_stale sample_collaborators sample_root
             sample_pinned_git "abc" _ stale s' eq_refl H).
  - vm_compute in H. discriminate.
Defined.

(** C9 at its failing input: no local mirror; the refresh clones,
    answers that it refreshed, and records no timestamp. *)
Lemma refresh_from_missing_witness :
  ∃ t,
    st_trace (refreshGit sample_collaborators sample_root sample_git
                (start world_missing ∅)).2 = t ∧
    count is_record t = 0%nat ∧
    (refreshGit sample_collaborators sample_root sample_git
       (start world_missing ∅)).1 = Normal true.
Proof.
  destruct (refreshGit sample_collaborators sample_root sample_git
              (start world_missing ∅)) as [r s'] eqn:H.
  destruct (refresh_from_missing_records_nothing sample_collaborators
              sample_root sample_git (start world_missing ∅) _ _ r s'
              eq_refl eq_refl H) as [(t & Ht & Hc) Hok].
  exists t. split; [exact Ht|]. split; [exact Hc|].
  simpl. eapply Hok. reflexivity.
Defined.


(** C8 on a mirror in sync with its remote: the second call returns
    the manifest of the first and leaves the cache. *)
Lemma cache_reuse_witness :
  ∃ manifest s1 s3,
    getExecutableManifest sample_builtins sample_catalog sample_collaborators
      sample_root sample_git (start world_in_sync ∅) = (Normal manifest, s1) ∧
    getExecutableManifest sample_builtins sample_catalog sample_collaborators
      sample_root sample_git s1 = (Normal manifest, s3) ∧
    st_cache s3 = st_cache s1.
Proof.
  assert (match (getExecutableManifest sample_builtins sample_catalog
                   sample_collaborators sample_root sample_git
                   (start world_in_sync ∅)).1 with
          | Normal _ => true
          | Throw _ => false
          end = true) as Hok by (vm_compute; reflexivity).
  assert (st_world (getExecutableManifest sample_builtins sample_catalog
                      sample_collaborators sample_root sample_git
                      (start world_in_sync ∅)).2 = world_in_sync) as Hw
    by (vm_compute; reflexivity).
  destruct (getExecutableManifest sample_builtins sample_catalog
              sample_collaborators sample_root sample_git
              (start world_in_sync ∅)) as [[manifest|e] s1] eqn:H;
    [|discriminate Hok].
  simpl in Hw.
  pose proof (proj1 (cache_reuse sample_builtins sample_catalog
                      sample_collaborators sample_root sample_git eq_refl)
               (start world_in_sync ∅) manifest s1 s1 world_in_sync world_in_sync world_in_sync world_in_sync 
               {| fetchHead := Some "def"; defaultBranch := Some "refs/heads/main" |} "def"
               {| oid := "def"; timestamp := 0 |} [] H eq_refl) as Hthm.
  simpl in Hthm.
  rewrite Hw in Hthm.
  specialize (Hthm eq_refl eq_refl eq_refl eq_refl eq_refl eq_refl).
  destruct Hthm as (s3 & H3 & _ & Hc & _).
  (exists manifest, s1, s3; split; [reflexivity|]; split; [exact H3|exact Hc]).
Defined.

(** C10 on a repository whose remote advanced to a broken manifest:
    the call pulls, fails to parse, and the cached entry is still
    there. *)
Lemma failure_keeps_cache_witness :
  ∃ s',
    getExecutableManifest sample_builtins sample_catalog sample_collaborators
      sample_root sample_git (start world_broken sample_cache)
      = (Throw SyntaxError, s') ∧
    st_cache s' = sample_cache.
Proof.
  edestruct (proj2 (failure_keeps_cache sample_builtins sample_catalog
                      sample_collaborators sample_root sample_git
                      (start world_broken sample_cache)))
    as (s' & H & Hc & _).
  - unfold refreshGit, outOfDate, mbind, io_bind, perform, try_catch.
    simpl. reflexivity.
  - simpl. reflexivity.
  - reflexivity.
  - exists s'. split; [exact H | exact Hc].
Defined.

(** C5 on a clock after the epoch. *)
Lemma manifest_staleness_by_time_witness :
  manifestStale 1700000000000 DateUndefined = true ∧
  manifestStale 1700000000000 DateNull = true ∧
  manifestStale 1700000150000 (DateAt 1700000000000) = true ∧
  manifestStale 1700000030000 (DateAt 1700000000000) = false.
Proof.
  destruct (manifest_staleness_by_time sample_collaborators sample_root)
    as (_ & Hnone & Hex & _).
  destruct (Hnone 1700000000000%Z ltac:(lia)) as (_ & _ & Hu & Hn).
  destruct (Hex 1700000000000%Z) as [H150 H30].
  split; [exact Hu|]. split; [exact Hn|]. split; [exact H150 | exact H30].
Defined.

(** ** The validator on the sample documents *)

(** Both sides of a closed equation evaluate to the same value. *)
Ltac compute_eq :=
  match goal with
  | |- ?a = ?b => exact (eq_refl b <: a = b)
  end.

(** C3 as stated fails: a document that names a default cluster
    outside its supported clusters is accepted, and keeps it. *)
Lemma default_hpc_not_supported :
  ∃ manifest,
    processExecutableManifest sample_builtins sample_catalog raw_hpc
      sample_address = Normal manifest ∧
    prop manifest "default_hpc" = VStr "x" ∧
    prop manifest "supported_hpc" = VArr [Some (VStr "y")] ∧
    ¬ default_hpc_supported manifest.
Proof.
  exists (validated raw_hpc).
  split; [compute_eq|]. split; [compute_eq|]. split; [compute_eq|].
  intros (slots & Hs & Hin).
  assert (prop (validated raw_hpc) "supported_hpc" = VArr [Some (VStr "y")])
    as Hs' by compute_eq.
  assert (prop (validated raw_hpc) "default_hpc" = VStr "x") as Hd
    by compute_eq.
  rewrite Hs' in Hs. rewrite Hd in Hin. injection Hs as <-.
  apply list_elem_of_singleton in Hin. discriminate Hin.
Qed.

(** C3 as amended, on the demo: no default cluster given, the first
    of the built-in list is taken. *)
Lemma default_hpc_result_witness :
  ∃ manifest,
    processExecutableManifest sample_builtins sample_catalog raw_demo
      sample_address = Normal manifest ∧
    prop manifest "default_hpc" = VStr "keeling_community" ∧
    default_hpc_supported manifest.
Proof.
  assert (processExecutableManifest sample_builtins sample_catalog raw_demo
            sample_address = Normal (validated raw_demo)) as H
    by compute_eq.
  destruct (default_hpc_result sample_builtins sample_catalog raw_demo
              sample_address doc_demo (validated raw_demo) eq_refl H)
    as (_ & _ & Hunset).
  exists (validated raw_demo). split; [exact H|].
  apply Hunset with (rest := []); compute_eq.
Defined.

(** C2 as stated fails: an integer parameter with [max] below its
    default and a negative [step] is accepted as it is. *)
Lemma bounds_not_enforced :
  ∃ manifest rules r,
    processExecutableManifest sample_builtins sample_catalog raw_bounds
      sample_address = Normal manifest ∧
    prop manifest "param_rules" = VObj rules ∧
    rules !! "n" = Some (VObj r) ∧
    integer_typed sample_catalog "param_rules" "n" r = true ∧
    prop r "default_value" = num 5 ∧
    prop r "max" = num 1 ∧
    prop r "step" = num (-1) ∧
    ¬ in_bounds r.
Proof.
  exists (validated raw_bounds),
         (object_of (prop (validated raw_bounds) "param_rules")),
         (rule_of (validated raw_bounds) "param_rules" "n").
  split; [compute_eq|]. split; [compute_eq|].
  split; [compute_eq|]. split; [compute_eq|].
  assert (prop (rule_of (validated raw_bounds) "param_rules" "n")
            "default_value" = num 5) as Hd by compute_eq.
  assert (prop (rule_of (validated raw_bounds) "param_rules" "n")
            "max" = num 1) as Hmax by compute_eq.
  split; [exact Hd|]. split; [exact Hmax|].
  split; [compute_eq|].
  intros (d & lo & hi & st & Hd' & _ & Hhi & _ & _ & Hle & _).
  rewrite Hd in Hd'. rewrite Hmax in Hhi.
  injection Hd' as <-. injection Hhi as <-.
  unfold Qle in Hle. simpl in Hle. lia.
Qed.

(** The rule [time] of the demo: the facts the theorems start from. *)
Lemma demo_time_rule :
  processExecutableManifest sample_builtins sample_catalog raw_demo
    sample_address = Normal (validated raw_demo) ∧
  prop (merged doc_demo sample_address) "slurm_input_rules"
    = VObj (object_of (prop (merged doc_demo sample_address)
                         "slurm_input_rules")) ∧
  object_of (prop (merged doc_demo sample_address) "slurm_input_rules")
    !! "time"
    = Some (VObj (rule_of (merged doc_demo sample_address)
                    "slurm_input_rules" "time")) ∧
  prop (validated raw_demo) "slurm_input_rules"
    = VObj (object_of (prop (validated raw_demo) "slurm_input_rules")) ∧
  object_of (prop (validated raw_demo) "slurm_input_rules") !! "time"
    = Some (VObj (rule_of (validated raw_demo) "slurm_input_rules" "time")).
Proof. repeat split; compute_eq. Qed.

(** C2 as amended, on the rule [time] of the demo. *)
Lemma surviving_rules_invariant_witness :
  ∃ r,
    object_of (prop (validated raw_demo) "slurm_input_rules") !! "time"
      = Some (VObj r) ∧
    truthy (prop r "default_value") = true ∧
    in_bounds r.
Proof.
  destruct demo_time_rule as (H & Hm0 & Hr0 & Hm & Hr).
  destruct (surviving_rules_invariant sample_builtins sample_catalog raw_demo
              sample_address doc_demo (validated raw_demo) eq_refl H
              "slurm_input_rules" _ "time" _ (or_introl eq_refl) Hm Hr)
    as [Hu | (r & rules0 & r0 & Heq & Hm0' & Hr0' & _ & Ht & Hb)];
    [discriminate Hu|].
  exists r. rewrite Hr. split; [by rewrite Heq|]. split; [exact Ht|].
  rewrite Hm0 in Hm0'. injection Hm0' as <-.
  rewrite Hr0 in Hr0'. injection Hr0' as <-.
  apply Hb; [compute_eq | compute_eq |].
  exists (inject_Z 5). split; [compute_eq|]. split; [done|].
  repeat split; intros Hf; vm_compute in Hf; discriminate Hf.
Defined.




(** The sample catalog keeps the unitless category apart. *)
Lemma sample_categories_apart : categories_apart sample_catalog.
Proof.
  intros name H. unfold includes in H. apply bool_decide_eq_true in H.
  simpl in H. unfold sample_unitless in H.
  repeat (apply elem_of_cons in H as [-> | H]); try (split; reflexivity).
  by apply elem_of_nil in H.
Qed.


(* ================================================================== *)
(** * Part 7: further properties *)
(* ================================================================== *)

(** ** Strings *)

Lemma append_cons x (a b : string) :
  (String x a ++ b)%string = String x (a ++ b)%string.
Proof. reflexivity. Qed.

Lemma append_nil_r (a : string) : (a ++ "")%string = a.
Proof. induction a as [|x a IH]; [done|]. rewrite append_cons. by f_equal. Qed.

Lemma append_assoc (a b c : string) :
  ((a ++ b) ++ c = a ++ (b ++ c))%string.
Proof.
  induction a as [|x a IH]; [done|]. rewrite !append_cons. by f_equal.
Qed.

Lemma free_of_app c a b :
  free_of c (a ++ b)%string = free_of c a && free_of c b.
Proof.
  induction a as [|x a IH]; [done|]. rewrite append_cons.
  cbn [free_of]. by rewrite IH, andb_assoc.
Qed.

(** ** The validator: what survives, and what is thrown *)

Section LoopsMore.
Context (body : string → value → completion (option value)).

Lemma for_in_entries_each l l' :
  for_in_entries body l = Normal l' →
  ∀ k v, (k, v) ∈ l → ∃ r, body k v = Normal r.
Proof.
  revert l'. induction l as [|[name v0] l IH]; simpl; intros l' H k v Hin.
  - by apply elem_of_nil in Hin.
  - destruct (body name v0) as [r|e] eqn:Hbody; simpl in H; [|discriminate].
    destruct (for_in_entries body l) as [rest|e] eqn:Hrest; simpl in H;
      [|discriminate].
    apply elem_of_cons in Hin as [Heq | Hin].
    + inversion Heq; subst. eauto.
    + by eapply IH.
Qed.

(** When the loop over an object completes, every iteration did. *)
Lemma for_in_object_each o x :
  for_in body (VObj o) = Normal x →
  ∀ k v, o !! k = Some v → ∃ r, body k v = Normal r.
Proof.
  simpl. destruct (for_in_entries body (map_to_list o)) as [l'|e] eqn:Hl;
    simpl; [|discriminate].
  intros _ k v Hk. eapply for_in_entries_each; [exact Hl|].
  by apply elem_of_map_to_list.
Qed.

Lemma for_in_entries_throws l e :
  for_in_entries body l = Throw e →
  ∃ k v, (k, v) ∈ l ∧ body k v = Throw e.
Proof.
  induction l as [|[name v0] l IH]; simpl; intros H; [discriminate|].
  destruct (body name v0) as [r|e'] eqn:Hbody; simpl in H.
  - destruct (for_in_entries body l) as [rest|e'] eqn:Hrest; simpl in H;
      [discriminate|].
    simplify_eq. destruct (IH eq_refl) as (k & v & Hin & Hb).
    exists k, v. split; [by right | done].
  - simplify_eq. exists name, v0. split; [left | done].
Qed.

Lemma for_in_slots_throws i slots e :
  for_in_slots body i slots = Throw e →
  ∃ k v, body k v = Throw e.
Proof.
  revert i. induction slots as [|[v0|] slots IH]; simpl; intros i H;
    [discriminate| |].
  - destruct (body (pretty i) v0) as [r|e'] eqn:Hbody; simpl in H.
    + destruct (for_in_slots body (S i) slots) as [rest|e'] eqn:Hrest;
        simpl in H; [discriminate|].
      simplify_eq. eauto.
    + simplify_eq. eauto.
  - destruct (for_in_slots body (S i) slots) as [rest|e'] eqn:Hrest;
      simpl in H; [discriminate|].
    simplify_eq. eauto.
Qed.

(** The loop throws what an iteration throws, or a [TypeError] of
    its own. *)
Lemma for_in_throws mapping e :
  for_in body mapping = Throw e →
  e = TypeError ∨ ∃ k v, body k v = Throw e.
Proof.
  destruct mapping as [| | | |s|slots|o]; simpl; try discriminate.
  - case_match; [discriminate|]. intros; simplify_eq. by left.
  - destruct (for_in_slots body 0 slots) as [l|e'] eqn:H; simpl;
      [discriminate|].
    intros; simplify_eq. right. by eapply for_in_slots_throws.
  - destruct (for_in_entries body (map_to_list o)) as [l|e'] eqn:H; simpl;
      [discriminate|].
    intros; simplify_eq. right.
    destruct (for_in_entries_throws _ _ H) as (k & v & _ & ?). eauto.
Qed.

(** An iteration that throws makes the loop over an object throw. *)
Lemma for_in_object_throw o k v e :
  o !! k = Some v → body k v = Throw e →
  ∃ e', for_in body (VObj o) = Throw e'.
Proof.
  intros Hk Hb.
  destruct (for_in body (VObj o)) as [x|e'] eqn:H; [|eauto].
  destruct (for_in_object_each _ _ H _ _ Hk) as [r Hr]. congruence.
Qed.
End LoopsMore.

Section ValidatorMore.
Context (B : builtins) (C : catalog).

Lemma option_defaults_throws r e :
  option_defaults B r = Throw e → e = TypeError.
Proof.
  unfold option_defaults.
  repeat (case_match; simpl; try discriminate); congruence.
Qed.

Lemma slurm_rule_throws name rule e :
  slurm_rule B C name rule = Throw e → e = TypeError.
Proof.
  unfold slurm_rule.
  destruct (includes (slurm_configs C) name); simpl; [|discriminate].
  destruct rule as [| | | | | |r]; try discriminate; [congruence|].
  destruct (truthy (prop r "default_value")); simpl; [|discriminate].
  destruct (includes (slurm_integer_time_unit_config C) name
            && unit_outside ["Minutes"; "Hours"; "Days"] (prop r "unit"));
    [discriminate|].
  destruct (includes (slurm_integer_storage_unit_config C) name
            && unit_outside ["GB"; "MB"] (prop r "unit"));
    [discriminate|].
  destruct (includes (slurm_integer_none_unit_config C) name);
    [discriminate|].
  destruct (includes (slurm_string_option_configs C) name);
    [|discriminate].
  destruct (option_defaults B _) as [r2|e'] eqn:Ho; simpl; [discriminate|].
  intros; simplify_eq. by eapply option_defaults_throws.
Qed.

Lemma param_rule_throws name rule e :
  param_rule B name rule = Throw e → e = TypeError.
Proof.
  unfold param_rule.
  destruct rule as [| | | | | |r]; try discriminate; try congruence.
  destruct (truthy (prop r "default_value")); simpl; [|discriminate].
  destruct (includes_value _ _); simpl; [|discriminate].
  destruct (is_string "string_option" _); [|discriminate].
  destruct (option_defaults B _) as [r2|e'] eqn:Ho; simpl; [discriminate|].
  intros; simplify_eq. by eapply option_defaults_throws.
Qed.

Lemma normalize_throws document address e :
  normalize B C document address = Throw e → e = TypeError.
Proof.
  unfold normalize.
  destruct (for_in (slurm_rule B C) _) as [slurm|e1] eqn:Hs; simpl.
  - destruct (for_in (param_rule B) _) as [param|e2] eqn:Hp; simpl;
      [discriminate|].
    intros; simplify_eq.
    apply for_in_throws in Hp as [? | (k & v & Hb)]; [done|].
    by eapply param_rule_throws.
  - intros; simplify_eq.
    apply for_in_throws in Hs as [? | (k & v & Hb)]; [done|].
    by eapply slurm_rule_throws.
Qed.


(** X2.  A parameter rule that is [null] makes the validation throw a
    [TypeError], and so does a rule mapping that is a non-empty string. *)
Theorem null_rule_throws raw address document :
  JSON_parse B raw = Some document →
  (∃ rules name,
     prop (merged document address) "param_rules" = VObj rules ∧
     rules !! name = Some VNull)
  ∨ (∃ key s, (key = "slurm_input_rules" ∨ key = "param_rules") ∧
              prop (merged document address) key = VStr s ∧ s ≠ "") →
  processExecutableManifest B C raw address = Throw TypeError.
Proof.
  unfold processExecutableManifest. intros -> H.
  destruct (normalize B C document address) as [manifest|e] eqn:Hn.
  - exfalso. apply normalize_inv in Hn as (slurm & param & Hs & Hp & _).
    destruct H as [(rules & name & Hm & Hr) | (key & s & Hkey & Hm & Hne)].
    + rewrite Hm in Hp.
      destruct (for_in_object_each _ _ _ Hp _ _ Hr) as [r Hb]. discriminate.
    + apply String.eqb_neq in Hne.
      destruct Hkey as [-> | ->]; rewrite Hm in *; simpl in *;
        rewrite Hne in *; discriminate.
  - f_equal. by eapply normalize_throws.
Qed.

Lemma default_hpc_step_lookup m k :
  k ≠ "default_hpc" → default_hpc_step m !! k = m !! k.
Proof.
  intros. unfold default_hpc_step. case_match; [|done].
  by rewrite lookup_insert_ne.
Qed.


Lemma param_rule_Some name r :
  truthy (prop r "default_value") = true →
  includes_value param_types (prop r "type") = true →
  param_rule B name (VObj r) ≠ Normal None.
Proof.
  intros Hd Ht. unfold param_rule. rewrite Hd. simpl.
  assert (includes_value ["integer"; "string_option"; "string_input"]
            (match prop r "type" with VUndef => VStr "" | type => type end)
          = true) as ->.
  { destruct (prop r "type"); done. }
  simpl. by destruct (if is_string "string_option" _ then _ else _).
Qed.

Lemma param_rule_valid_kept name rule v' :
  param_rule B name rule = Normal (Some v') → param_rule_valid rule.
Proof.
  unfold param_rule. intros H.
  destruct rule as [| | | | | |r]; try discriminate.
  destruct (truthy (prop r "default_value")) eqn:Hd; simpl in H;
    [|discriminate].
  destruct (includes_value _ _) eqn:Ht; simpl in H; [|discriminate].
  exists r. split; [done|]. split; [done|].
  by destruct (prop r "type").
Qed.

(** X4.  The parameter rules that survive are exactly the rules of the
    document that are objects with a truthy default and one of the
    three types; the validation adds no rule. *)
Theorem param_rule_survival raw address document manifest rules0 :
  JSON_parse B raw = Some document →
  processExecutableManifest B C raw address = Normal manifest →
  prop (merged document address) "param_rules" = VObj rules0 →
  ∃ rules,
    prop manifest "param_rules" = VObj rules ∧
    ∀ name,
      is_Some (rules !! name) ↔
      ∃ rule, rules0 !! name = Some rule ∧ param_rule_valid rule.
Proof.
  unfold processExecutableManifest. intros -> H Hm.
  apply normalize_inv in H as (slurm & param & _ & Hp & ->).
  rewrite Hm in Hp. pose proof Hp as Hp'.
  apply for_in_object in Hp' as (rules & -> & Hiff).
  exists rules. split; [by rewrite prop_insert_eq|].
  intros name. split.
  - intros [v' Hv']. apply Hiff in Hv' as (v & Hv & Hb).
    exists v. split; [done|]. by eapply param_rule_valid_kept.
  - intros (rule & Hr & r & -> & Hd & Ht).
    destruct (for_in_object_each _ _ _ Hp _ _ Hr) as [[v'|] Hb].
    + exists v'. apply Hiff. eauto.
    + by destruct (param_rule_Some name r Hd Ht).
Qed.

Lemma slurm_rule_valid_kept name rule v' :
  slurm_rule B C name rule = Normal (Some v') → slurm_rule_valid C name rule.
Proof.
  unfold slurm_rule. intros H.
  destruct (includes (slurm_configs C) name) eqn:Hc; simpl in H;
    [|discriminate].
  split; [done|].
  destruct rule as [| | | | | |r]; try discriminate; [by left|].
  right. exists r. split; [done|].
  destruct (truthy (prop r "default_value")) eqn:Hd; simpl in H;
    [|discriminate].
  destruct (includes (slurm_integer_time_unit_config C) name
            && unit_outside ["Minutes"; "Hours"; "Days"] (prop r "unit"));
    [discriminate|].
  destruct (includes (slurm_integer_storage_unit_config C) name
            && unit_outside ["GB"; "MB"] (prop r "unit"));
    [discriminate|].
  done.
Qed.

Lemma slurm_rule_Some name rule :
  slurm_rule_valid C name rule → slurm_rule B C name rule ≠ Normal None.
Proof.
  intros [Hc [-> | (r & -> & Hd & Ht & Hs)]]; unfold slurm_rule;
    rewrite Hc; simpl; [done|].
  rewrite Hd, Ht, Hs. simpl.
  destruct (includes (slurm_integer_none_unit_config C) name); [done|].
  by destruct (if includes (slurm_string_option_configs C) name
               then _ else _).
Qed.

(** X5.  The cluster-resource rules that survive are exactly the rules
    of the document whose name is in the catalog and that are objects
    with a truthy default and, in the time and the storage category, no
    unit or one of the units of the category. *)
Theorem slurm_rule_survival raw address document manifest rules0 :
  JSON_parse B raw = Some document →
  processExecutableManifest B C raw address = Normal manifest →
  prop (merged document address) "slurm_input_rules" = VObj rules0 →
  ∃ rules,
    prop manifest "slurm_input_rules" = VObj rules ∧
    ∀ name,
      is_Some (rules !! name) ↔
      ∃ rule, rules0 !! name = Some rule ∧ slurm_rule_valid C name rule.
Proof.
  unfold processExecutableManifest. intros -> H Hm.
  apply normalize_inv in H as (slurm & param & Hs & _ & ->).
  rewrite Hm in Hs. pose proof Hs as Hs'.
  apply for_in_object in Hs' as (rules & -> & Hiff).
  exists rules. split; [by rewrite prop_insert_ne, prop_insert_eq|].
  intros name. split.
  - intros [v' Hv']. apply Hiff in Hv' as (v & Hv & Hb).
    exists v. split; [done|]. by eapply slurm_rule_valid_kept.
  - intros (rule & Hr & Hvalid).
    destruct (for_in_object_each _ _ _ Hs _ _ Hr) as [[v'|] Hb].
    + exists v'. apply Hiff. eauto.
    + by destruct (slurm_rule_Some name rule Hvalid).
Qed.

Lemma unit_outside_among allowed unit :
  unit_outside allowed unit = false → unit_among allowed unit.
Proof.
  unfold unit_outside, unit_among.
  destruct unit as [| | | |u| |]; simpl; try discriminate; [by left|].
  rewrite negb_false_iff. unfold includes. rewrite bool_decide_eq_true.
  right. eauto.
Qed.

(** X6.  The unit of a cluster-resource rule that survives: [None] in
    the unitless category; elsewhere the unit of the document, which in
    the time category is absent or one of minutes, hours and days, and
    in the storage category absent or one of GB and MB. *)
Theorem surviving_units raw address document manifest :
  JSON_parse B raw = Some document →
  processExecutableManifest B C raw address = Normal manifest →
  ∀ rules0 rules name r0 r,
    prop (merged document address) "slurm_input_rules" = VObj rules0 →
    rules0 !! name = Some (VObj r0) →
    prop manifest "slurm_input_rules" = VObj rules →
    rules !! name = Some (VObj r) →
    (includes (slurm_integer_none_unit_config C) name = true →
     prop r "unit" = VStr "None") ∧
    (includes (slurm_integer_none_unit_config C) name = false →
     prop r "unit" = prop r0 "unit" ∧
     (includes (slurm_integer_time_unit_config C) name = true →
      unit_among ["Minutes"; "Hours"; "Days"] (prop r "unit")) ∧
     (includes (slurm_integer_storage_unit_config C) name = true →
      unit_among ["GB"; "MB"] (prop r "unit"))).
Proof.
  unfold processExecutableManifest.
  intros -> H rules0 rules name r0 r Hm0 Hr0 Hm Hr.
  destruct (surviving_rule _ _ _ _ _ _ _ _ _ H (or_introl eq_refl) Hm Hr)
    as (rules0' & rule0 & Hm0' & Hr0' & Hbody).
  rewrite Hm0 in Hm0'. simplify_eq. simpl in Hbody.
  pose proof (slurm_rule_valid_kept _ _ _ Hbody)
    as [_ [? | (r1 & Heq & _ & Ht & Hs)]]; [discriminate|].
  injection Heq as <-.
  apply slurm_rule_kept in Hbody as [[? _]|(r2 & r' & Heq & Heq' & _ & H')];
    [discriminate|].
  injection Heq as <-. injection Heq' as <-.
  split.
  - intros Hnone. rewrite Hnone in H'. subst. by rewrite prop_insert_eq.
  - intros Hnone. rewrite Hnone in H'.
    assert (prop r "unit" = prop r0 "unit") as Hu.
    { destruct (includes (slurm_string_option_configs C) name),
               (includes (slurm_integer_configs C) name);
        first [ rewrite (option_defaults_other _ _ _ _ H') by done
              | simplify_eq ];
        rewrite ?integer_defaults_other by done; done. }
    rewrite Hu. split; [done|]. split.
    + intros Htime. rewrite Htime in Ht. by apply unit_outside_among.
    + intros Hstorage. rewrite Hstorage in Hs. by apply unit_outside_among.
Qed.

Lemma option_defaults_holds r1 r :
  option_defaults B r1 = Normal r →
  options_hold_default B r ∧
  (truthy (prop r1 "options") = false →
   prop r "options" = VArr [Some (prop r1 "default_value")]).
Proof.
  unfold option_defaults, options_hold_default.
  destruct (truthy (prop r1 "options")) eqn:Ht; simpl.
  - destruct (prop r1 "options") as [| | | |s|slots|] eqn:Ho;
      try discriminate.
    + destruct (String_includes B s _) eqn:Hi; simpl; [|discriminate].
      intros ?; simplify_eq. by rewrite Ho.
    + destruct (array_includes slots _) eqn:Hi; simpl.
      * intros ?; simplify_eq. rewrite Ho. split; [by left | done].
      * intros ?; simplify_eq.
        rewrite prop_insert_eq, prop_insert_ne by done.
        split; [|done]. right. apply last_snoc.
  - intros ?; simplify_eq.
    rewrite prop_insert_eq, prop_insert_ne by done. split; [by right|done].
Qed.

(** X7.  A rule with options that survives outside the unitless
    category has options that hold its default: the array of the
    default alone when the document gave no options. *)
Theorem options_of_surviving_rule raw address document manifest :
  JSON_parse B raw = Some document →
  processExecutableManifest B C raw address = Normal manifest →
  ∀ key rules0 rules name r0 r,
    key = "slurm_input_rules" ∨ key = "param_rules" →
    prop (merged document address) key = VObj rules0 →
    rules0 !! name = Some (VObj r0) →
    prop manifest key = VObj rules →
    rules !! name = Some (VObj r) →
    option_typed C key name r0 = true →
    unitless C key name = false →
    options_hold_default B r ∧
    (truthy (prop r0 "options") = false →
     prop r "options" = VArr [Some (prop r0 "default_value")]).
Proof.
  unfold processExecutableManifest.
  intros -> H key rules0 rules name r0 r Hkey Hm0 Hr0 Hm Hr Hopt Hnone.
  destruct (surviving_rule _ _ _ _ _ _ _ _ _ H Hkey Hm Hr)
    as (rules0' & rule0 & Hm0' & Hr0' & Hbody).
  rewrite Hm0 in Hm0'. injection Hm0' as <-.
  rewrite Hr0 in Hr0'. injection Hr0' as <-.
  unfold option_typed, unitless in *.
  destruct Hkey as [-> | ->];
    cbn [String.eqb Ascii.eqb Bool.eqb andb] in Hbody, Hopt, Hnone.
  - apply slurm_rule_kept in Hbody as [[? _]|(r1 & r' & ? & ? & _ & H')];
      [discriminate|]. simplify_eq.
    rewrite Hnone, Hopt in H'.
    apply option_defaults_holds in H' as [Hh Hnew].
    split; [done|].
    destruct (includes (slurm_integer_configs C) name);
      rewrite ?integer_defaults_other in Hnew by done; done.
  - apply param_rule_kept in Hbody as (r1 & r' & ? & ? & _ & H').
    simplify_eq. rewrite Hopt in H'.
    apply option_defaults_holds in H' as [Hh Hnew].
    split; [done|].
    destruct (is_string "integer" (prop r1 "type"));
      rewrite ?integer_defaults_other in Hnew by done; done.
Qed.

Lemma integer_defaults_given r k :
  truthy (prop r k) = true → prop (integer_defaults B r) k = prop r k.
Proof.
  intros Ht.
  destruct (decide (k = "max")) as [-> | ?];
    [by rewrite integer_defaults_max, Ht|].
  destruct (decide (k = "min")) as [-> | ?];
    [by rewrite integer_defaults_min, Ht|].
  destruct (decide (k = "step")) as [-> | ?];
    [by rewrite integer_defaults_step, Ht|].
  by apply integer_defaults_other.
Qed.

(** X8.  What the validation leaves of a rule that survives: every
    field but [max], [min], [step], [options] and [unit]; a [max],
    [min] or [step] that the document gave (truthy); and the unit,
    outside the unitless category. *)
Theorem given_fields_kept raw address document manifest :
  JSON_parse B raw = Some document →
  processExecutableManifest B C raw address = Normal manifest →
  ∀ key rules0 rules name r0 r,
    key = "slurm_input_rules" ∨ key = "param_rules" →
    prop (merged document address) key = VObj rules0 →
    rules0 !! name = Some (VObj r0) →
    prop manifest key = VObj rules →
    rules !! name = Some (VObj r) →
    (∀ k, k ∉ ["max"; "min"; "step"; "options"; "unit"] →
          prop r k = prop r0 k) ∧
    (∀ k, k ∈ ["max"; "min"; "step"] → truthy (prop r0 k) = true →
          prop r k = prop r0 k) ∧
    (unitless C key name = false → prop r "unit" = prop r0 "unit").
Proof.
  unfold processExecutableManifest.
  intros -> H key rules0 rules name r0 r Hkey Hm0 Hr0 Hm Hr.
  destruct (surviving_rule _ _ _ _ _ _ _ _ _ H Hkey Hm Hr)
    as (rules0' & rule0 & Hm0' & Hr0' & Hbody).
  rewrite Hm0 in Hm0'. injection Hm0' as <-.
  rewrite Hr0 in Hr0'. injection Hr0' as <-.
  assert (∀ (int opt : bool) r1,
    (if opt then option_defaults B else Normal)
      (if int then integer_defaults B r0 else r0) = Normal r1 →
    ∀ k, k ≠ "options" →
         (k ∈ ["max"; "min"; "step"] → truthy (prop r0 k) = true) →
         prop r1 k = prop r0 k) as Hkinds.
  { intros int opt r1 H1 k Hk Hgiven.
    assert (prop r1 k = prop (if int then integer_defaults B r0 else r0) k)
      as ->.
    { destruct opt; [by eapply option_defaults_other | by simplify_eq]. }
    destruct int; [|done].
    destruct (decide (k ∈ ["max"; "min"; "step"])) as [Hin | Hout].
    - by apply integer_defaults_given, Hgiven.
    - rewrite !elem_of_cons in Hout.
      apply integer_defaults_other; intros ->; tauto. }
  assert (∀ r1,
    (∀ k, k ≠ "options" →
          (k ∈ ["max"; "min"; "step"] → truthy (prop r0 k) = true) →
          prop r1 k = prop r0 k) →
    (∀ k, k ∉ ["max"; "min"; "step"; "options"; "unit"] →
          prop r1 k = prop r0 k) ∧
    (∀ k, k ∈ ["max"; "min"; "step"] → truthy (prop r0 k) = true →
          prop r1 k = prop r0 k) ∧
    prop r1 "unit" = prop r0 "unit") as Hall.
  { intros r1 H1. split; [|split].
    - intros k Hk. rewrite !elem_of_cons in Hk. apply H1.
      + intros ->. tauto.
      + rewrite !elem_of_cons. intros Hin. tauto.
    - intros k Hk Ht. apply H1; [|done].
      rewrite !elem_of_cons, elem_of_nil in Hk.
      intros ->. by destruct Hk as [?|[?|[?|?]]].
    - apply H1; [done|].
      rewrite !elem_of_cons, elem_of_nil.
      by intros [?|[?|[?|?]]]. }
  unfold unitless.
  destruct Hkey as [-> | ->];
    cbn [String.eqb Ascii.eqb Bool.eqb andb] in Hbody |- *.
  - apply slurm_rule_kept in Hbody as [[? _]|(r1 & r' & ? & ? & _ & H')];
      [discriminate|]. simplify_eq.
    destruct (includes (slurm_integer_none_unit_config C) name).
    + subst. split; [|split]; [| |done].
      * intros k Hk. rewrite !elem_of_cons in Hk.
        apply prop_insert_ne. intros <-. tauto.
      * intros k Hk _. rewrite !elem_of_cons, elem_of_nil in Hk.
        apply prop_insert_ne. intros <-. by destruct Hk as [?|[?|[?|?]]].
    + destruct (Hall r' (Hkinds _ _ _ H')) as (? & ? & ?). done.
  - apply param_rule_kept in Hbody as (r1 & r' & ? & ? & _ & H').
    simplify_eq.
    destruct (Hall r' (Hkinds _ _ _ H')) as (? & ? & ?). done.
Qed.
End ValidatorMore.

(** ** The pipeline: the calls it makes and the calls it never makes *)

Lemma count_app p (t t' : list event) :
  count p (t ++ t') = (count p t + count p t')%nat.
Proof. unfold count. by rewrite List.filter_app, length_app. Qed.

Section Never.
Context (E : collaborators) (p : event → bool).
Local Abbreviation W := (world E).

Lemma never_ret {A} (a : A) : never p (mret a : io W A).
Proof. intros s. exists []. by rewrite app_nil_r. Qed.

Lemma never_throw {A} e : never p (throw e : io W A).
Proof. intros s. exists []. by rewrite app_nil_r. Qed.

Lemma never_lift {A} (c : completion A) : never p (lift c : io W A).
Proof. intros s. exists []. by rewrite app_nil_r. Qed.

Lemma never_read_cache : never p (read_cache : io W _).
Proof. intros s. exists []. by rewrite app_nil_r. Qed.

Lemma never_write_cache id manifest :
  never p (write_cache id manifest : io W _).
Proof. intros s. exists []. by rewrite app_nil_r. Qed.

Lemma never_perform {A} (c : call A) :
  p (Called c) = false → never p (perform E c).
Proof.
  intros Hp s. unfold perform. destruct (answer E c (st_world s)).
  exists [Called c]. split; [done|]. unfold count. simpl. by rewrite Hp.
Qed.

Lemma never_bind {A A'} (m : io W A) (f : A → io W A') :
  never p m → (∀ a, never p (f a)) → never p (m ≫= f).
Proof.
  intros Hm Hf s. unfold mbind, io_bind. destruct (Hm s) as (t & Ht & Hc).
  destruct (m s) as [[a|e] s1]; simpl in *.
  - destruct (Hf a s1) as (t' & Ht' & Hc'). exists (t ++ t').
    rewrite Ht', Ht, app_assoc, count_app, Hc, Hc'. done.
  - by exists t.
Qed.

Lemma never_try_catch {A} (m : io W A) (h : exn → io W A) :
  never p m → (∀ e, never p (h e)) → never p (try_catch m h).
Proof.
  intros Hm Hh s. unfold try_catch. destruct (Hm s) as (t & Ht & Hc).
  destruct (m s) as [[a|e] s1]; simpl in *.
  - by exists t.
  - destruct (Hh e s1) as (t' & Ht' & Hc'). exists (t ++ t').
    rewrite Ht', Ht, app_assoc, count_app, Hc, Hc'. done.
Qed.

(** What [never] says of one run. *)
Lemma never_run {A} (m : io W A) s r s' :
  never p m → m s = (r, s') →
  ∃ t, st_trace s' = st_trace s ++ t ∧ count p t = 0%nat.
Proof. intros Hm H. specialize (Hm s). by rewrite H in Hm. Qed.
End Never.

Ltac never :=
  repeat first
    [ assumption
    | apply never_ret | apply never_throw | apply never_lift
    | apply never_read_cache | apply never_write_cache
    | apply never_bind | apply never_try_catch
    | apply never_perform
    | match goal with
      | |- ∀ _, _ => intros ?
      | |- never _ (match ?x with _ => _ end) => destruct x
      | |- never _ (if ?x then _ else _) => destruct x
      | |- never _ (let _ := _ in _) => cbv zeta
      end ].

Section PipelineMore.
Context (B : builtins) (C : catalog) (E : collaborators).
Context (root_path : string).
Local Abbreviation W := (world E).

Lemma prefix_app a b : String.prefix a (a ++ b)%string = true.
Proof.
  induction a as [|c a IH]; [by destruct b|].
  rewrite append_cons. simpl. by destruct (Ascii.ascii_dec c c).
Qed.

Lemma wget_inside dir url :
  String.prefix ("cd " ++ dir ++ " && wget -O manifest.json ")%string
    (wget dir url) = true.
Proof.
  unfold wget.
  replace ("cd " ++ dir ++ " && wget -O manifest.json " ++ url)%string
    with (("cd " ++ dir ++ " && wget -O manifest.json ") ++ url)%string.
  - apply prefix_app.
  - by rewrite !append_assoc.
Qed.

(** X9.  [GitUtil] runs no shell command. *)
Theorem GitUtil_never_shell git :
  never is_shell (getExecutableManifest B C E root_path git) ∧
  never is_shell (getLastCommitTime E root_path git) ∧
  never is_shell (refreshGit E root_path git).
Proof.
  assert (never is_shell (deleteAndPull E root_path git)) as Hd.
  { unfold deleteAndPull. never; reflexivity. }
  assert (never is_shell (refreshGit E root_path git)) as Hr.
  { unfold refreshGit, outOfDate. never; first [exact Hd | reflexivity]. }
  split; [|split; [|done]].
  - unfold getExecutableManifest. never; first [done | reflexivity].
  - unfold getLastCommitTime. never; first [done | reflexivity].
Qed.

(** X10.  For a repository with a pinned revision, [ManifestUtil] makes
    no call to isomorphic-git. *)
Theorem ManifestUtil_pinned_never_git git sha :
  pinned git = Some sha →
  never is_isomorphic_git
    (ManifestUtil_getExecutableManifest B C E root_path git).
Proof.
  intros Hpin.
  assert (never is_isomorphic_git (deleteAndPullManifest E root_path git))
    as Hd.
  { unfold deleteAndPullManifest. rewrite Hpin. never; reflexivity. }
  unfold ManifestUtil_getExecutableManifest, refreshGitManifest.
  rewrite Hpin. never; reflexivity.
Qed.

(** X11.  Every deletion, creation, clone, checkout and pull of
    [GitUtil] is in the directory of the repository; [ManifestUtil]
    deletes and creates nothing but the directory of the manifest of
    the repository, and every shell command it runs changes to that
    directory and downloads the manifest there. *)
Theorem own_directory_only git :
  never (changes_outside (getLocalPath root_path (Git.id git)))
    (getExecutableManifest B C E root_path git) ∧
  never (changes_outside (getLocalPath root_path (Git.id git)))
    (getLastCommitTime E root_path git) ∧
  never (changes_outside (getLocalManifestPath root_path (Git.id git)))
    (ManifestUtil_getExecutableManifest B C E root_path git).
Proof.
  assert (∀ dir, negb (String.eqb dir dir) = false) as Hsame.
  { intros dir. by rewrite String.eqb_refl. }
  assert (∀ dir url, negb (String.prefix
            ("cd " ++ dir ++ " && wget -O manifest.json ")%string
            (wget dir url))
          = false) as Hwget.
  { intros dir url. by rewrite wget_inside. }
  assert (never (changes_outside (getLocalPath root_path (Git.id git)))
            (deleteAndPull E root_path git)) as Hd.
  { unfold deleteAndPull. never; first [apply Hsame | reflexivity]. }
  assert (never (changes_outside (getLocalPath root_path (Git.id git)))
            (refreshGit E root_path git)) as Hr.
  { unfold refreshGit, outOfDate.
    never; first [exact Hd | apply Hsame | reflexivity]. }
  assert (never (changes_outside (getLocalManifestPath root_path (Git.id git)))
            (deleteAndPullManifest E root_path git)) as Hm.
  { unfold deleteAndPullManifest, getDefaultBranch.
    never; first [apply Hsame | apply Hwget | reflexivity]. }
  split; [|split].
  - unfold getExecutableManifest.
    never; first [exact Hr | exact Hd | reflexivity].
  - unfold getLastCommitTime. never; first [exact Hr | reflexivity].
  - unfold ManifestUtil_getExecutableManifest, refreshGitManifest.
    never; first [exact Hm | apply Hsame | apply Hwget | reflexivity].
Qed.

Ltac cache_free :=
  repeat first
    [ assumption
    | apply oblivious_perform | apply oblivious_ret | apply oblivious_throw
    | apply oblivious_lift | apply oblivious_bind | apply oblivious_try_catch
    | match goal with
      | |- ∀ _, _ => intros ?
      | |- oblivious (match ?x with _ => _ end) => destruct x
      | |- oblivious (if ?x then _ else _) => destruct x
      | |- oblivious (let _ := _ in _) => cbv zeta
      end ].

Lemma deleteAndPullManifest_oblivious git :
  oblivious (deleteAndPullManifest E root_path git).
Proof. unfold deleteAndPullManifest, getDefaultBranch. cache_free. Qed.

(** X12.  [ManifestUtil.getExecutableManifest] neither reads nor writes
    the cache of [GitUtil], and no more does [getLastCommitTime]. *)
Theorem ManifestUtil_ignores_cache git :
  oblivious (ManifestUtil_getExecutableManifest B C E root_path git) ∧
  (∀ s, st_cache (ManifestUtil_getExecutableManifest B C E root_path git s).2
        = st_cache s) ∧
  oblivious (getLastCommitTime E root_path git) ∧
  (∀ s, st_cache (getLastCommitTime E root_path git s).2 = st_cache s).
Proof.
  assert (oblivious (ManifestUtil_getExecutableManifest B C E root_path git))
    as HM.
  { pose proof (deleteAndPullManifest_oblivious git).
    unfold ManifestUtil_getExecutableManifest, refreshGitManifest.
    cache_free. }
  assert (oblivious (getLastCommitTime E root_path git)) as HL.
  { pose proof (refreshGit_oblivious E root_path git).
    unfold getLastCommitTime. cache_free. }
  split; [done|]. split; [|split; [done|]].
  - intros s. by apply oblivious_cache.
  - intros s. by apply oblivious_cache.
Qed.

(** ** Runs *)

Ltac step H :=
  rewrite bind_run in H; unfold perform at 1 in H;
  cbn [st_world called] in H.

(** X13.  For a repository without a pinned revision, the check of the
    full mirror answers stale when the remote has no head, without
    looking at the mirror, and otherwise exactly when the head that was
    fetched is not the last commit of the mirror; a mirror without a
    commit makes it throw. *)
Theorem unpinned_staleness git s remote w1 :
  let localPath := getLocalPath root_path (Git.id git) in
  pinned git = None →
  answer E (git_fetch localPath (Git.address git)) (st_world s)
    = (Normal remote, w1) →
  (fetchHead remote = None →
   outOfDate E root_path git s
     = (Normal true, called (git_fetch localPath (Git.address git)) w1 s)) ∧
  (∀ head local w2,
     fetchHead remote = Some head →
     answer E (git_log localPath) w1 = (Normal local, w2) →
     match local with
     | [] => (outOfDate E root_path git s).1 = Throw TypeError
     | commit :: _ =>
         ∃ stale,
           outOfDate E root_path git s
             = (Normal stale,
                called (git_log localPath) w2
                  (called (git_fetch localPath (Git.address git)) w1 s)) ∧
           (stale = true ↔ head ≠ oid commit)
     end).
Proof.
  intros localPath Hpin Hf. split.
  - intros Hnone. unfold outOfDate. fold localPath.
    rewrite bind_run. unfold perform at 1. rewrite Hf.
    by rewrite Hnone.
  - intros head local w2 Hhead Hl.
    assert (outOfDate E root_path git s
            = (match local with
               | [] => Throw TypeError
               | commit :: _ => Normal (negb (String.eqb head (oid commit)))
               end,
               called (git_log localPath) w2
                 (called (git_fetch localPath (Git.address git)) w1 s)))
      as Heq.
    { unfold outOfDate. fold localPath. rewrite Hpin.
      rewrite bind_run. unfold perform at 1. rewrite Hf. rewrite Hhead.
      rewrite bind_run. unfold perform at 1. cbn [st_world called].
      rewrite Hl. by destruct local. }
    rewrite Heq. destruct local as [|commit rest]; [done|].
    eexists. split; [reflexivity|].
    rewrite negb_true_iff. apply String.eqb_neq.
Qed.

(** X14.  A refresh of the full mirror that answers that nothing was to
    be done has made four calls, none of which changes the mirror: the
    removal of a left-over archive, the existence test, a fetch and a
    log. *)
Theorem refresh_false_read_only git s s' :
  let localPath := getLocalPath root_path (Git.id git) in
  refreshGit E root_path git s = (Normal false, s') →
  st_trace s' =
    st_trace s ++
      [Called (FolderUtil_removeZip localPath);
       Called (fs_existsSync localPath);
       Called (git_fetch localPath (Git.address git));
       Called (git_log localPath)] ∧
  count is_mutation
    [Called (FolderUtil_removeZip localPath);
     Called (fs_existsSync localPath);
     Called (git_fetch localPath (Git.address git));
     Called (git_log localPath)] = 0%nat ∧
  st_cache s' = st_cache s.
Proof.
  intros localPath H. unfold refreshGit in H. fold localPath in H.
  step H.
  destruct (answer E (FolderUtil_removeZip localPath) (st_world s))
    as [[[]|e] wa]; [|discriminate].
  step H.
  destruct (answer E (fs_existsSync localPath) wa) as [[present|e] wb];
    [|discriminate].
  destruct present; simpl in H.
  - rewrite bind_run in H. unfold outOfDate in H. fold localPath in H.
    step H.
    destruct (answer E (git_fetch localPath (Git.address git)) wb)
      as [[remote|e] wc]; [|discriminate].
    destruct (fetchHead remote) as [head|].
    + step H.
      destruct (answer E (git_log localPath) wc) as [[[|commit rest]|e] wd];
        try discriminate.
      unfold mret at 1, io_ret at 1 in H.
      match type of H with
      | context [if ?b then _ else _] => destruct b
      end.
      * exfalso. rewrite bind_run in H.
        destruct (try_catch _ _ _) as [[[]|e] s4]; [|discriminate].
        step H. destruct (answer E new_Date _) as [[now|e] w5];
          [|discriminate].
        step H. destruct (answer E (update_updatedAt _ _) _) as [[[]|e] w6];
          discriminate.
      * unfold mret, io_ret in H. simplify_eq. simpl.
        rewrite <- !app_assoc. done.
    + exfalso. unfold mret at 1, io_ret at 1 in H.
      rewrite bind_run in H.
      destruct (try_catch _ _ _) as [[[]|e] s4]; [|discriminate].
      step H. destruct (answer E new_Date _) as [[now|e] w5];
        [|discriminate].
      step H. destruct (answer E (update_updatedAt _ _) _) as [[[]|e] w6];
        discriminate.
  - exfalso. rewrite bind_run in H.
    destruct (deleteAndPull E root_path git _) as [[[]|e] s3];
      discriminate.
Qed.

Lemma deleteAndPull_never_record git :
  never is_record (deleteAndPull E root_path git).
Proof. unfold deleteAndPull. never; reflexivity. Qed.


(** X16.  When the checkout or the pull of a stale mirror throws,
    [refreshGit] does not throw what it threw: it deletes the directory
    once and clones again; when that completes, it records the time and
    answers that it refreshed, and when deleting and cloning again
    throws, that exception is the result. *)
Theorem refresh_update_failure_recovered git s wa wb s3 e w :
  let localPath := getLocalPath root_path (Git.id git) in
  let update :=
    match pinned git with
    | Some sha => git_checkout localPath sha
    | None => git_pull localPath
    end in
  answer E (FolderUtil_removeZip localPath) (st_world s) = (Normal tt, wa) →
  answer E (fs_existsSync localPath) wa = (Normal true, wb) →
  outOfDate E root_path git
    (called (fs_existsSync localPath) wb
       (called (FolderUtil_removeZip localPath) wa s)) = (Normal true, s3) →
  answer E update (st_world s3) = (Throw e, w) →
  (∀ e' s4,
     deleteAndPull E root_path git (called update w s3) = (Throw e', s4) →
     refreshGit E root_path git s = (Throw e', s4)) ∧
  (∀ s4 now w5 w6,
     deleteAndPull E root_path git (called update w s3) = (Normal tt, s4) →
     answer E new_Date (st_world s4) = (Normal now, w5) →
     answer E (update_updatedAt (Git.id git) now) w5 = (Normal tt, w6) →
     refreshGit E root_path git s
       = (Normal true,
          called (update_updatedAt (Git.id git) now) w6
            (called new_Date w5 s4)) ∧
     ∃ t, st_trace s4 = st_trace s3 ++ Called update :: t ∧
          count is_destroy t = 1%nat).
Proof.
  intros localPath update Ha Hb Ho Hu.
  assert (∀ r s4,
    deleteAndPull E root_path git (called update w s3) = (r, s4) →
    refreshGit E root_path git s =
      match r with
      | Normal _ =>
          (now ← perform E new_Date;
           perform E (update_updatedAt (Git.id git) now);; mret true) s4
      | Throw e' => (Throw e', s4)
      end) as Hrun.
  { intros r s4 Hd. unfold refreshGit. fold localPath.
    rewrite bind_run. unfold perform at 1. rewrite Ha.
    rewrite bind_run. unfold perform at 1. cbn [st_world called].
    rewrite Hb. cbn [negb]. rewrite bind_run, Ho.
    rewrite bind_run. unfold try_catch.
    assert ((match pinned git with
             | Some sha => perform E (git_checkout localPath sha)
             | None => perform E (git_pull localPath)
             end) s3 = (Throw e, called update w s3)) as ->.
    { unfold update in *. destruct (pinned git); unfold perform;
        by rewrite Hu. }
    rewrite Hd. by destruct r as [[]|e']. }
  split.
  - intros e' s4 Hd. by rewrite (Hrun _ _ Hd).
  - intros s4 now w5 w6 Hd Hnow Hrec. split.
    + rewrite (Hrun _ _ Hd). rewrite bind_run. unfold perform at 1.
      rewrite Hnow. rewrite bind_run. unfold perform at 1.
      cbn [st_world called]. by rewrite Hrec.
    + apply (deleteAndPull_one_destroy E root_path git) in Hd
        as (t & Ht & Hdes & _).
      exists t. split; [|done]. rewrite Ht. simpl.
      by rewrite <- app_assoc.
Qed.


(** X18.  [getLastCommitTime] refreshes the mirror, then asks for its
    log: its result is the time of the first commit of the log, a
    [TypeError] on an empty log, and what the refresh or the log
    throws; and it reads no file. *)
Theorem last_commit_time git s :
  (∀ e s1, refreshGit E root_path git s = (Throw e, s1) →
           getLastCommitTime E root_path git s = (Throw e, s1)) ∧
  (∀ refreshed s1 r w,
     refreshGit E root_path git s = (Normal refreshed, s1) →
     answer E (git_log (getLocalPath root_path (Git.id git))) (st_world s1)
       = (r, w) →
     getLastCommitTime E root_path git s
       = (match r with
          | Normal [] => Throw TypeError
          | Normal (commit :: _) => Normal (timestamp commit)
          | Throw e => Throw e
          end,
          called (git_log (getLocalPath root_path (Git.id git))) w s1)) ∧
  never is_read (getLastCommitTime E root_path git).
Proof.
  split; [|split].
  - intros e s1 Hr. unfold getLastCommitTime. by rewrite bind_run, Hr.
  - intros refreshed s1 r w Hr Hl. unfold getLastCommitTime.
    rewrite bind_run, Hr. rewrite bind_run. unfold perform at 1.
    rewrite Hl. by destruct r as [[|commit rest]|e].
  - assert (never is_read (deleteAndPull E root_path git)) as Hd.
    { unfold deleteAndPull. never; reflexivity. }
    unfold getLastCommitTime, refreshGit, outOfDate. never; reflexivity.
Qed.

(** X19.  When the directory of the manifest is missing, the refresh of
    [ManifestUtil] creates it and downloads the manifest of the branch
    [main], whether or not the repository has a pinned revision; when
    the time of the last update is then fresh, that is the only
    download, and nothing is recorded. *)
Theorem missing_manifest_downloads_main git s wa wb wc wd now :
  let localPath := getLocalManifestPath root_path (Git.id git) in
  let download :=
    child_process_exec (wget localPath (getManifestUrl git "main")) in
  answer E (fs_existsSync localPath) (st_world s) = (Normal false, wa) →
  answer E (fs_mkdir localPath true) wa = (Normal tt, wb) →
  answer E download wb = (Normal tt, wc) →
  answer E new_Date wc = (Normal now, wd) →
  manifestStale now (Git.updatedAt git) = false →
  refreshGitManifest E root_path git s
    = (Normal tt,
       called new_Date wd
         (called download wc
            (called (fs_mkdir localPath true) wb
               (called (fs_existsSync localPath) wa s)))).
Proof.
  intros localPath download Ha Hb Hc Hd Hfresh.
  unfold refreshGitManifest. fold localPath. fold download.
  rewrite bind_run. unfold perform at 1. rewrite Ha. simpl.
  rewrite bind_run. rewrite bind_run. unfold perform at 1. simpl.
  rewrite Hb. unfold perform at 1. simpl. rewrite Hc.
  rewrite bind_run. unfold perform at 1. simpl. rewrite Hd.
  by rewrite Hfresh.
Qed.

End PipelineMore.

(** ** Branches and addresses *)

(** ** The last section of a branch *)

Lemma last_section_cons current x s :
  last_section current (String x s)
  = if Ascii.eqb x slash then last_section "" s
    else last_section (current ++ String x "") s.
Proof. reflexivity. Qed.

Lemma last_section_free current s :
  free_of slash current = true →
  free_of slash (last_section current s) = true.
Proof.
  revert current. induction s as [|x s IH]; intros current Hc; [done|].
  rewrite last_section_cons. destruct (Ascii.eqb x slash) eqn:Hx.
  - by apply IH.
  - apply IH. rewrite free_of_app, Hc. cbn [free_of]. by rewrite Hx.
Qed.

Lemma last_section_whole current s :
  free_of slash s = true →
  last_section current s = (current ++ s)%string.
Proof.
  revert current. induction s as [|x s IH]; intros current Hs.
  - by rewrite append_nil_r.
  - rewrite last_section_cons. cbn [free_of] in Hs.
    apply andb_true_iff in Hs as [Hx Hs].
    apply negb_true_iff in Hx. rewrite Hx.
    rewrite IH by done. by rewrite append_assoc.
Qed.

Lemma last_section_after current p s :
  last_section current (p ++ String slash s)%string = last_section "" s.
Proof.
  revert current. induction p as [|x p IH]; intros current.
  - change ("" ++ String slash s)%string with (String slash s).
    by rewrite last_section_cons, Ascii.eqb_refl.
  - rewrite append_cons, last_section_cons. by destruct (Ascii.eqb x slash).
Qed.

Section Strings.
Context (E : collaborators) (root_path : string).

(** X21.  The branch that [getDefaultBranch] returns holds no slash: it
    is [main] when the remote names no default branch, the default
    branch itself when that holds no slash, and otherwise what follows
    its last slash. *)
Theorem default_branch_last_section git s branch s' :
  getDefaultBranch E root_path git s = (Normal branch, s') →
  free_of slash branch = true ∧
  ∃ remote,
    (answer E (git_fetch (getLocalPath root_path (Git.id git))
                 (Git.address git)) (st_world s)).1 = Normal remote ∧
    match defaultBranch remote with
    | None => branch = "main"
    | Some name =>
        (free_of slash name = true → branch = name) ∧
        (∀ p x, name = (p ++ String slash x)%string →
                free_of slash x = true → branch = x)
    end.
Proof.
  unfold getDefaultBranch, mbind, io_bind, perform, mret, io_ret.
  destruct (answer E _ (st_world s)) as [[remote|e] w]; [|discriminate].
  destruct (defaultBranch remote) as [name|] eqn:Hb; intros H; simplify_eq.
  - split; [by apply last_section_free|].
    exists remote. split; [done|]. rewrite Hb. split.
    + intros Hfree. by rewrite last_section_whole.
    + intros p x -> Hx. rewrite last_section_after.
      by rewrite last_section_whole.
  - split; [done|]. exists remote. split; [done|]. by rewrite Hb.
Qed.
End Strings.

(** ** The address of the manifest *)

Lemma replace_skip pattern replacement x s :
  String.prefix pattern (String x s) = false →
  replace pattern replacement (String x s)
  = String x (replace pattern replacement s).
Proof.
  intros H.
  change (replace pattern replacement (String x s))
    with (if String.prefix pattern (String x s)
          then (replacement ++
                String.substring (String.length pattern)
                  (String.length (String x s) - String.length pattern)
                  (String x s))%string
          else String x (replace pattern replacement s)).
  by rewrite H.
Qed.

Lemma replace_here pattern replacement s :
  String.prefix pattern s = true →
  replace pattern replacement s
  = (replacement ++
     String.substring (String.length pattern)
       (String.length s - String.length pattern) s)%string.
Proof.
  intros H. destruct s as [|x s].
  - change (replace pattern replacement "")
      with (if String.prefix pattern ""
            then (replacement ++
                  String.substring (String.length pattern)
                    (String.length "" - String.length pattern) "")%string
            else ""). by rewrite H.
  - change (replace pattern replacement (String x s))
      with (if String.prefix pattern (String x s)
            then (replacement ++
                  String.substring (String.length pattern)
                    (String.length (String x s) - String.length pattern)
                    (String x s))%string
            else String x (replace pattern replacement s)).
    by rewrite H.
Qed.

Lemma prefix_dot x s :
  Ascii.eqb x dot = false → String.prefix ".git" (String x s) = false.
Proof.
  intros Hx.
  destruct x as [[] [] [] [] [] [] [] []]; first [reflexivity | discriminate Hx].
Qed.

Lemma replace_absent_dot replacement s :
  free_of dot s = true → replace ".git" replacement s = s.
Proof.
  induction s as [|x s IH]; intros Hs; [done|].
  cbn [free_of] in Hs. apply andb_true_iff in Hs as [Hx Hs].
  rewrite replace_skip.
  - by rewrite IH.
  - apply prefix_dot. by apply negb_true_iff in Hx.
Qed.

Lemma replace_suffix_git s :
  free_of dot s = true → replace ".git" "" (s ++ ".git")%string = s.
Proof.
  induction s as [|x s IH]; intros Hs; [done|].
  cbn [free_of] in Hs. apply andb_true_iff in Hs as [Hx Hs].
  rewrite append_cons, replace_skip.
  - by rewrite IH.
  - apply prefix_dot. by apply negb_true_iff in Hx.
Qed.

Lemma substring_all s : String.substring 0 (String.length s) s = s.
Proof. induction s as [|x s IH]; [done|]. simpl. by rewrite IH. Qed.

(** X22.  For the address of a repository on GitHub, with or without
    the ending [.git], whose owner and name hold no dot, the manifest
    of a commit is fetched from the raw-content host under the same
    owner and name. *)
Theorem manifest_url_of_github git path commit :
  free_of dot path = true →
  Git.address git = ("https://github.com/" ++ path ++ ".git")%string
  ∨ Git.address git = ("https://github.com/" ++ path)%string →
  getManifestUrl git commit
  = ("https://raw.githubusercontent.com/" ++ path ++ "/" ++ commit
     ++ "/manifest.json")%string.
Proof.
  intros Hpath Haddr. unfold getManifestUrl.
  assert (replace ".git" "" (Git.address git)
          = ("https://github.com/" ++ path)%string) as ->.
  { destruct Haddr as [-> | ->]; rewrite !append_cons.
    - change ("" ++ path ++ ".git")%string with (path ++ ".git")%string.
      rewrite !replace_skip by reflexivity.
      by rewrite replace_suffix_git.
    - change ("" ++ path)%string with path.
      rewrite !replace_skip by reflexivity.
      by rewrite replace_absent_dot. }
  rewrite !append_cons. change ("" ++ path)%string with path.
  rewrite !replace_skip by reflexivity.
  rewrite replace_here by reflexivity.
  cbn [String.length Nat.sub String.substring].
  rewrite substring_all.
  by rewrite !append_cons.
Qed.

(** ** The runtime statistics and the date columns *)

Section StatisticProperties.
Context (parseInt : string → number).

Lemma by_hpc_snoc out rows row :
  by_hpc parseInt out (rows ++ [row])
  = <[ByHPC.HPC row := parseInt (ByHPC.STATISTIC row)]>
      (by_hpc parseInt out rows).
Proof. unfold by_hpc. by rewrite fold_left_app. Qed.

Lemma by_hpc_other out rows k :
  k ∉ ByHPC.HPC <$> rows → by_hpc parseInt out rows !! k = out !! k.
Proof.
  induction rows as [|row rows IH] using rev_ind; intros Hk; [done|].
  rewrite by_hpc_snoc. rewrite fmap_app, elem_of_app in Hk.
  rewrite lookup_insert_ne.
  - apply IH. tauto.
  - intros <-. apply Hk. right. simpl. left.
Qed.

(** The row that counts for a cluster is the last one that names
    it. *)
Lemma by_hpc_last out before row after :
  ByHPC.HPC row ∉ ByHPC.HPC <$> after →
  by_hpc parseInt out (before ++ row :: after) !! ByHPC.HPC row
  = Some (parseInt (ByHPC.STATISTIC row)).
Proof.
  intros Hafter.
  replace (before ++ row :: after) with ((before ++ [row]) ++ after)
    by by rewrite <- app_assoc.
  unfold by_hpc. rewrite fold_left_app.
  fold (by_hpc parseInt out (before ++ [row])).
  fold (by_hpc parseInt (by_hpc parseInt out (before ++ [row])) after).
  rewrite by_hpc_other by done.
  by rewrite by_hpc_snoc, lookup_insert_eq.
Qed.

Lemma by_hpc_keys out rows k :
  is_Some (by_hpc parseInt out rows !! k) →
  is_Some (out !! k) ∨ k ∈ ByHPC.HPC <$> rows.
Proof.
  induction rows as [|row rows IH] using rev_ind; [by left|].
  rewrite by_hpc_snoc, fmap_app, elem_of_app.
  destruct (decide (ByHPC.HPC row = k)) as [<- | Hne].
  - intros _. right. right. simpl. left.
  - rewrite lookup_insert_ne by done. intros H.
    destruct (IH H); tauto.
Qed.

Context (R : Job_repository).


End StatisticProperties.

(** ** Event *)

Lemma Qeq_bool_inject_Z ms : Qeq_bool (inject_Z ms) 0 = (ms =? 0)%Z.
Proof.
  unfold Qeq_bool, inject_Z. simpl. by rewrite Z.mul_1_r.
Qed.

(** X24.  A date that is written to a date column and read back comes
    back as it was, but for the date of the epoch itself, which comes
    back as [null], as do an invalid date, [null] and [undefined]. *)
Theorem date_column_round_trip :
  (∀ ms, (Z.abs ms ≤ 8640000000000000)%Z →
     transformer_from (of_null (transformer_to (Present (Time_value ms))))
     = if (ms =? 0)%Z then None else Some (Time_value ms)) ∧
  transformer_from (of_null (transformer_to (Present Invalid_Date))) = None ∧
  transformer_from (of_null (transformer_to Null)) = None ∧
  transformer_from (of_null (transformer_to Undefined)) = None.
Proof.
  split; [|done].
  intros ms Hms.
  unfold transformer_to, of_null, transformer_from, getTime, truthy.
  rewrite Qeq_bool_inject_Z.
  destruct (Z.eqb_spec ms 0) as [-> | Hne]; [done|].
  unfold Math_trunc, new_Date_of. cbn [negb].
  assert (Qle_bool (Qabs (inject_Z (Z.quot (Qnum (inject_Z ms))
                                      (Z.pos (Qden (inject_Z ms))))))
            (inject_Z 8640000000000000) = true) as ->.
  { apply Qle_bool_iff. unfold Qle, Qabs, inject_Z. cbn [Qnum Qden].
    rewrite Z.quot_1_r. lia. }
  unfold inject_Z. cbn [Qnum Qden]. by rewrite !Z.quot_1_r.
Qed.

(** ** The further properties on the samples *)

(** The sample documents, validated. *)
Lemma validated_samples :
  processExecutableManifest sample_builtins sample_catalog raw_full
    sample_address = Normal (validated raw_full) ∧
  processExecutableManifest sample_builtins sample_catalog raw_unitless
    sample_address = Normal (validated raw_unitless) ∧
  processExecutableManifest sample_builtins sample_catalog raw_array_default
    sample_address = Normal (validated raw_array_default).
Proof. split; [compute_eq|]. split; compute_eq. Qed.

(** A mapping and a rule of a sample, as the objects they are. *)
Lemma sample_rule (m : gmap string value) key name :
  match prop m key with
  | VObj rules => match rules !! name with
                  | Some (VObj _) => true
                  | _ => false
                  end
  | _ => false
  end = true →
  prop m key = VObj (object_of (prop m key)) ∧
  object_of (prop m key) !! name = Some (VObj (rule_of m key name)).
Proof.
  intros H. unfold rule_of.
  destruct (prop m key) as [| | | | | |rules]; try discriminate H.
  simpl. unfold prop.
  destruct (rules !! name) as [[| | | | | |r]|]; try discriminate H.
  done.
Qed.


(** X2 on a parameter rule that is [null]. *)
Lemma null_rule_throws_witness :
  processExecutableManifest more_builtins sample_catalog raw_null_rule
    sample_address = Throw TypeError.
Proof.
  apply (null_rule_throws more_builtins sample_catalog raw_null_rule
           sample_address doc_null_rule); [compute_eq|].
  left. exists (object_of (prop (merged doc_null_rule sample_address)
                             "param_rules")), "p".
  split; compute_eq.
Defined.


(** X4 on an integer parameter with a default: it survives. *)
Lemma param_rule_survival_witness :
  ∃ rules,
    prop (validated raw_full) "param_rules" = VObj rules ∧
    is_Some (rules !! "n").
Proof.
  destruct validated_samples as (H & _).
  destruct (sample_rule (merged doc_full sample_address) "param_rules" "n")
    as [Hm Hr]; [compute_eq|].
  destruct (param_rule_survival sample_builtins sample_catalog raw_full
              sample_address doc_full (validated raw_full) _ eq_refl H Hm)
    as (rules & Hrules & Hiff).
  exists rules. split; [exact Hrules|].
  apply Hiff. eexists. split; [exact Hr|].
  eexists. split; [reflexivity|]. split; compute_eq.
Defined.

(** X5 on the demo: its time rule survives. *)
Lemma slurm_rule_survival_witness :
  ∃ rules,
    prop (validated raw_demo) "slurm_input_rules" = VObj rules ∧
    is_Some (rules !! "time").
Proof.
  destruct demo_time_rule as (H & Hm & Hr & _).
  destruct (slurm_rule_survival sample_builtins sample_catalog raw_demo
              sample_address doc_demo (validated raw_demo) _ eq_refl H Hm)
    as (rules & Hrules & Hiff).
  exists rules. split; [exact Hrules|].
  apply Hiff. eexists. split; [exact Hr|].
  split; [compute_eq|]. right.
  eexists. split; [reflexivity|]. split; [compute_eq|]. split; compute_eq.
Defined.

(** X6 on a rule of the unitless category: its unit is [None]. *)
Lemma surviving_units_witness :
  prop (rule_of (validated raw_unitless) "slurm_input_rules" "cpu_per_task")
    "unit" = VStr "None".
Proof.
  destruct validated_samples as (_ & H & _).
  destruct (sample_rule (merged doc_unitless sample_address)
              "slurm_input_rules" "cpu_per_task") as [Hm0 Hr0]; [compute_eq|].
  destruct (sample_rule (validated raw_unitless)
              "slurm_input_rules" "cpu_per_task") as [Hm Hr]; [compute_eq|].
  destruct (surviving_units sample_builtins sample_catalog raw_unitless
              sample_address doc_unitless (validated raw_unitless) eq_refl H
              _ _ "cpu_per_task" _ _ Hm0 Hr0 Hm Hr) as [Hnone _].
  apply Hnone. compute_eq.
Defined.

(** X7 on a parameter with options and none given: its options are
    its default alone. *)
Lemma options_of_surviving_rule_witness :
  options_hold_default sample_builtins
    (rule_of (validated raw_array_default) "param_rules" "p") ∧
  prop (rule_of (validated raw_array_default) "param_rules" "p") "options"
  = VArr [Some (arr [num 1])].
Proof.
  destruct validated_samples as (_ & _ & H).
  destruct (sample_rule (merged doc_array_default sample_address)
              "param_rules" "p") as [Hm0 Hr0]; [compute_eq|].
  destruct (sample_rule (validated raw_array_default)
              "param_rules" "p") as [Hm Hr]; [compute_eq|].
  destruct (options_of_surviving_rule sample_builtins sample_catalog
              raw_array_default sample_address doc_array_default
              (validated raw_array_default) eq_refl H
              "param_rules" _ _ "p" _ _ (or_intror eq_refl) Hm0 Hr0 Hm Hr)
    as [Hhold Hnew]; [compute_eq | compute_eq |].
  split; [exact Hhold|].
  rewrite Hnew by compute_eq. compute_eq.
Defined.

(** X8 on an integer parameter with all its fields: its [max] and its
    type are those of the document. *)
Lemma given_fields_kept_witness :
  prop (rule_of (validated raw_full) "param_rules" "n") "max" = num 8 ∧
  prop (rule_of (validated raw_full) "param_rules" "n") "type"
  = VStr "integer".
Proof.
  destruct validated_samples as (H & _).
  destruct (sample_rule (merged doc_full sample_address) "param_rules" "n")
    as [Hm0 Hr0]; [compute_eq|].
  destruct (sample_rule (validated raw_full) "param_rules" "n")
    as [Hm Hr]; [compute_eq|].
  destruct (given_fields_kept sample_builtins sample_catalog raw_full
              sample_address doc_full (validated raw_full) eq_refl H
              "param_rules" _ _ "n" _ _ (or_intror eq_refl) Hm0 Hr0 Hm Hr)
    as (Hother & Hgiven & _).
  split.
  - rewrite (Hgiven "max"); [compute_eq | | compute_eq].
    rewrite !elem_of_cons. by left.
  - rewrite (Hother "type"); [compute_eq|].
    rewrite !elem_of_cons, elem_of_nil.
    intros [?|[?|[?|[?|[?|?]]]]]; done.
Defined.

(** X10 on the pinned sample. *)
Lemma ManifestUtil_pinned_never_git_witness :
  ∃ t,
    st_trace (ManifestUtil_getExecutableManifest sample_builtins
                sample_catalog sample_collaborators sample_root
                sample_pinned_git (start world_in_sync ∅)).2 = t ∧
    count is_isomorphic_git t = 0%nat.
Proof.
  destruct (ManifestUtil_pinned_never_git sample_builtins sample_catalog
              sample_collaborators sample_root sample_pinned_git "abc"
              eq_refl (start world_in_sync ∅)) as (t & Ht & Hc).
  exists t. split; [exact Ht | exact Hc].
Defined.

(** X13 on a mirror behind its remote: stale. *)
Lemma unpinned_staleness_witness :
  ∃ stale s',
    outOfDate sample_collaborators sample_root sample_git
      (start world_broken ∅) = (Normal stale, s') ∧
    (stale = true ↔ "def" ≠ "abc").
Proof.
  destruct (unpinned_staleness sample_collaborators sample_root sample_git
              (start world_broken ∅) _ _ eq_refl eq_refl) as [_ H].
  specialize (H "def" _ _ eq_refl eq_refl).
  destruct H as (stale & Hrun & Hiff).
  exists stale. eexists. split; [exact Hrun | exact Hiff].
Defined.

(** X14 on a mirror in sync with its remote. *)
Lemma refresh_false_read_only_witness :
  st_trace (refreshGit sample_collaborators sample_root sample_git
              (start world_in_sync ∅)).2
  = [Called (FolderUtil_removeZip "/data/hello");
     Called (fs_existsSync "/data/hello");
     Called (git_fetch "/data/hello" "https://github.com/o/r.git");
     Called (git_log "/data/hello")].
Proof.
  destruct (refreshGit sample_collaborators sample_root sample_git
              (start world_in_sync ∅)) as [r s'] eqn:H.
  assert (r = Normal false) as -> by (vm_compute in H; congruence).
  destruct (refresh_false_read_only sample_collaborators sample_root
              sample_git _ _ H) as (Ht & _ & _).
  exact Ht.
Defined.


(** X16 on a mirror behind its remote, when the pull fails: the mirror
    is cloned again and the time recorded. *)
Lemma refresh_update_failure_recovered_witness :
  (refreshGit no_pull_collaborators sample_root sample_git
     (start world_broken ∅)).1 = Normal true ∧
  count is_destroy
    (st_trace (refreshGit no_pull_collaborators sample_root sample_git
                 (start world_broken ∅)).2) = 1%nat.
Proof.
  destruct (refresh_update_failure_recovered no_pull_collaborators
              sample_root sample_git (start world_broken ∅)
              world_broken world_broken _ (Failure "pull") world_broken
              eq_refl eq_refl eq_refl eq_refl) as [_ Hok].
  destruct (Hok _ 1000%Z _ _ eq_refl eq_refl eq_refl) as [Hrun _].
  rewrite Hrun. split; reflexivity.
Defined.


(** X18 on a mirror in sync with its remote: the time of its
    commit. *)
Lemma last_commit_time_witness :
  (getLastCommitTime sample_collaborators sample_root sample_git
     (start world_in_sync ∅)).1 = Normal 0%Z.
Proof.
  destruct (refreshGit sample_collaborators sample_root sample_git
              (start world_in_sync ∅)) as [r s1] eqn:Hr.
  assert (r = Normal false ∧ st_world s1 = world_in_sync) as [-> Hw]
    by (vm_compute in Hr; by simplify_eq).
  destruct (last_commit_time sample_collaborators sample_root sample_git
              (start world_in_sync ∅)) as (_ & Hrun & _).
  rewrite (Hrun false s1 (Normal [{| oid := "def"; timestamp := 0 |}])
             world_in_sync Hr); [done|].
  by rewrite Hw.
Defined.

(** X19 on a pinned repository without a directory and with a fresh
    time: the manifest of [main] is downloaded. *)
Lemma missing_manifest_downloads_main_witness :
  (refreshGitManifest sample_collaborators sample_root sample_fresh_git
     (start world_missing ∅)).1 = Normal tt ∧
  st_trace (refreshGitManifest sample_collaborators sample_root
              sample_fresh_git (start world_missing ∅)).2
  = [Called (fs_existsSync "/data/manifests/hello");
     Called (fs_mkdir "/data/manifests/hello" true);
     Called (child_process_exec
       "cd /data/manifests/hello && wget -O manifest.json https://raw.githubusercontent.com/o/r/main/manifest.json");
     Called new_Date].
Proof.
  rewrite (missing_manifest_downloads_main sample_collaborators sample_root
             sample_fresh_git (start world_missing ∅) world_missing
             (sample_answer _ (fs_mkdir "/data/manifests/hello" true)
                world_missing).2
             (sample_answer _ (child_process_exec "")
                (sample_answer _ (fs_mkdir "/data/manifests/hello" true)
                   world_missing).2).2
             (sample_answer _ (child_process_exec "")
                (sample_answer _ (fs_mkdir "/data/manifests/hello" true)
                   world_missing).2).2
             1000 eq_refl eq_refl eq_refl eq_refl eq_refl).
  split; reflexivity.
Defined.


(** X21 on the default branch of the sample remote. *)
Lemma default_branch_last_section_witness :
  (getDefaultBranch sample_collaborators sample_root sample_git
     (start world_in_sync ∅)).1 = Normal "main" ∧
  free_of slash "main" = true.
Proof.
  destruct (getDefaultBranch sample_collaborators sample_root sample_git
              (start world_in_sync ∅)) as [r s'] eqn:H.
  assert (r = Normal "main") as -> by (vm_compute in H; congruence).
  split; [reflexivity|].
  by destruct (default_branch_last_section sample_collaborators sample_root
                 sample_git _ _ _ H) as [Hfree _].
Defined.

(** X22 on the address of the sample repository. *)
Lemma manifest_url_of_github_witness :
  getManifestUrl sample_git "abc"
  = "https://raw.githubusercontent.com/o/r/abc/manifest.json".
Proof.
  exact (manifest_url_of_github sample_git "o/r" "abc" eq_refl
           (or_introl eq_refl)).
Defined.


(** X24 on a date of 2023 and on the epoch. *)
Lemma date_column_round_trip_witness :
  transformer_from
    (of_null (transformer_to (Present (Time_value 1700000000000))))
  = Some (Time_value 1700000000000) ∧
  transformer_from (of_null (transformer_to (Present (Time_value 0))))
  = None.
Proof.
  destruct date_column_round_trip as (Hvalid & _).
  split.
  - rewrite (Hvalid 1700000000000%Z) by lia. reflexivity.
  - rewrite (Hvalid 0%Z) by lia. reflexivity.
Defined.
